(** * A shallow embedding of the generic state-based lexer (package [lexer])

    The development follows [lexer.go]: the cursor over an immutable source
    string, the history stack used for backing up, the boundary operations
    [Emit], [Ignore] and [Error], the state runner and the token channel.

    Go values are represented as follows.
    - [int], [rune] and [TokenType] are [Z]; every integer the engine computes
      is bounded by the length of the source, so no wrap-around occurs.
    - a Go [string] is its sequence of bytes, [list byte].
    - a method on [*Lexer] is a function in the monad [M]: it receives the
      lexer, and either returns a value and the updated lexer, panics, or
      blocks on the token channel.
    - a loop is a function with fuel; the loops of the engine itself are
      given enough fuel for every source, the loop of [run] is not bounded
      by the engine and keeps its fuel as an argument.
    - [Start] runs [StartSync] in a goroutine, while the caller receives
      from the channel; the two sides taking turns are the interleavings
      of [interleave]. *)

From Stdlib Require Import Strings.String.
From Stdlib Require Import ZArith List Lia Bool.
From Stdlib Require Strings.Byte.
Import ListNotations.
Local Open Scope Z_scope.

(** A Go string. *)
Definition gostring : Type := list Byte.byte.

(** The numeric value of a byte, between 0 and 255. *)
Definition b2z (b : Byte.byte) : Z := Z.of_N (Byte.to_N b).

(** The conversion [byte(x)] of an integer, which keeps the low eight bits. *)
Definition z2b (x : Z) : Byte.byte :=
  match Byte.of_N (Z.to_N (x mod 256)) with
  | Some b => b
  | None => Byte.x00
  end.

(** A string literal of the source, as bytes. *)
Definition lit (s : String.string) : gostring := String.list_byte_of_string s.
Arguments lit s%_string.

(** [len(s)] *)
Definition len {A : Type} (s : list A) : Z := Z.of_nat (length s).

(** ** The parts of Go's standard library that the lexer calls *)

(** *** Package [unicode/utf8] *)
Module utf8.

Definition RuneError : Z := 0xFFFD.
Definition RuneSelf : Z := 0x80.
Definition MaxRune : Z := 0x10FFFF.
Definition surrogateMin : Z := 0xD800.
Definition surrogateMax : Z := 0xDFFF.

Definition locb : Z := 0x80.
Definition hicb : Z := 0xBF.

(** Information about the first byte of an encoding: the table [first]. *)
Definition xx : Z := 0xF1.
Definition as_ : Z := 0xF0.
Definition s1 : Z := 0x02.
Definition s2 : Z := 0x13.
Definition s3 : Z := 0x03.
Definition s4 : Z := 0x23.
Definition s5 : Z := 0x34.
Definition s6 : Z := 0x04.
Definition s7 : Z := 0x44.

Definition first (b : Z) : Z :=
  if b <? 0x80 then as_
  else if b <? 0xC2 then xx
  else if b <? 0xE0 then s1
  else if b =? 0xE0 then s2
  else if b <? 0xED then s3
  else if b =? 0xED then s4
  else if b <? 0xF0 then s3
  else if b =? 0xF0 then s5
  else if b <? 0xF4 then s6
  else if b =? 0xF4 then s7
  else xx.

(** The table [acceptRanges]: the range allowed for the second byte. *)
Definition acceptRanges (i : Z) : Z * Z :=
  if i =? 0 then (locb, hicb)
  else if i =? 1 then (0xA0, hicb)
  else if i =? 2 then (locb, 0x9F)
  else if i =? 3 then (0x90, hicb)
  else if i =? 4 then (locb, 0x8F)
  else (0, 0).

Definition mask2 : Z := 0x1F.
Definition mask3 : Z := 0x0F.
Definition mask4 : Z := 0x07.
Definition maskx : Z := 0x3F.

(** [DecodeRuneInString(s)]: the first rune of [s] and its width in bytes.
    An empty string gives [(RuneError, 0)], an invalid encoding
    [(RuneError, 1)]. *)
Definition DecodeRuneInString (s : gostring) : Z * Z :=
  match s with
  | [] => (RuneError, 0)
  | c0 :: t0 =>
    let n := len s in
    let s0 := b2z c0 in
    let x := first s0 in
    if x >=? as_ then
      (* mask is all ones for [xx] and zero for [as_] *)
      let mask := if Z.testbit x 0 then (-1) else 0 in
      (Z.lor (Z.land s0 (Z.lnot mask)) (Z.land RuneError mask), 1)
    else
      let sz := Z.land x 7 in
      let accept := acceptRanges (Z.shiftr x 4) in
      if n <? sz then (RuneError, 1)
      else
        match t0 with
        | [] => (RuneError, 1)
        | c1 :: t1 =>
          let s1 := b2z c1 in
          if (s1 <? fst accept) || (snd accept <? s1) then (RuneError, 1)
          else if sz <=? 2 then
            (Z.lor (Z.shiftl (Z.land s0 mask2) 6) (Z.land s1 maskx), 2)
          else
            match t1 with
            | [] => (RuneError, 1)
            | c2 :: t2 =>
              let s2 := b2z c2 in
              if (s2 <? locb) || (hicb <? s2) then (RuneError, 1)
              else if sz <=? 3 then
                (Z.lor (Z.lor (Z.shiftl (Z.land s0 mask3) 12)
                              (Z.shiftl (Z.land s1 maskx) 6))
                       (Z.land s2 maskx), 3)
              else
                match t2 with
                | [] => (RuneError, 1)
                | c3 :: _ =>
                  let s3 := b2z c3 in
                  if (s3 <? locb) || (hicb <? s3) then (RuneError, 1)
                  else
                    (Z.lor (Z.lor (Z.lor (Z.shiftl (Z.land s0 mask4) 18)
                                         (Z.shiftl (Z.land s1 maskx) 12))
                                  (Z.shiftl (Z.land s2 maskx) 6))
                           (Z.land s3 maskx), 4)
                end
            end
        end
  end.

(** [RuneLen(r)]: the number of bytes of the encoding of [r], or -1. *)
Definition RuneLen (r : Z) : Z :=
  if r <? 0 then -1
  else if r <=? 0x7F then 1
  else if r <=? 0x7FF then 2
  else if (surrogateMin <=? r) && (r <=? surrogateMax) then -1
  else if r <=? 0xFFFF then 3
  else if r <=? MaxRune then 4
  else -1.

(** [ValidRune(r)] *)
Definition ValidRune (r : Z) : bool :=
  ((0 <=? r) && (r <? surrogateMin)) || ((surrogateMax <? r) && (r <=? MaxRune)).

(** [string(r)] for a rune: its encoding, or that of [RuneError]. *)
Definition EncodeRune (r : Z) : gostring :=
  if (0 <=? r) && (r <=? 0x7F) then [z2b r]
  else if (0 <=? r) && (r <=? 0x7FF) then
    [z2b (Z.lor 0xC0 (Z.shiftr r 6)); z2b (Z.lor 0x80 (Z.land r maskx))]
  else if negb (ValidRune r) then [z2b 0xEF; z2b 0xBF; z2b 0xBD]
  else if r <=? 0xFFFF then
    [z2b (Z.lor 0xE0 (Z.shiftr r 12));
     z2b (Z.lor 0x80 (Z.land (Z.shiftr r 6) maskx));
     z2b (Z.lor 0x80 (Z.land r maskx))]
  else
    [z2b (Z.lor 0xF0 (Z.shiftr r 18));
     z2b (Z.lor 0x80 (Z.land (Z.shiftr r 12) maskx));
     z2b (Z.lor 0x80 (Z.land (Z.shiftr r 6) maskx));
     z2b (Z.lor 0x80 (Z.land r maskx))].

(** The runes of a string with their widths, as [for _, r := range s]
    visits them.  Every step consumes at least one byte, so [length s]
    steps are enough. *)
Fixpoint decode_all (fuel : nat) (s : gostring) : list (Z * Z) :=
  match fuel with
  | O => []
  | S fuel' =>
    match s with
    | [] => []
    | _ => let rw := DecodeRuneInString s in
           rw :: decode_all fuel' (skipn (Z.to_nat (snd rw)) s)
    end
  end.

Definition runes (s : gostring) : list (Z * Z) := decode_all (length s) s.

(** [RuneCountInString(s)] *)
Definition RuneCountInString (s : gostring) : Z := len (runes s).

(** [ValidString(s)]: no step of the decoding is an invalid encoding. *)
Definition ValidString (s : gostring) : bool :=
  forallb (fun rw => negb ((fst rw =? RuneError) && (snd rw =? 1))) (runes s).

End utf8.

(** *** Package [unicode] *)
Module unicode.

Definition MaxLatin1 : Z := 0xFF.

(** [IsSpace(r)].  Up to [MaxLatin1] the function is a switch; above it the
    rune is looked up in the table [White_Space].  The comparison is made
    on [uint32(r)], so a negative rune is never a space. *)
Definition IsSpace (r : Z) : bool :=
  let u := r mod 2 ^ 32 in
  if u <=? MaxLatin1 then
    (r =? 0x09) || (r =? 0x0A) || (r =? 0x0B) || (r =? 0x0C) || (r =? 0x0D)
    || (r =? 0x20) || (r =? 0x85) || (r =? 0xA0)
  else
    (u =? 0x1680) || ((0x2000 <=? u) && (u <=? 0x200A))
    || (u =? 0x2028) || (u =? 0x2029) || (u =? 0x202F) || (u =? 0x205F)
    || (u =? 0x3000).

End unicode.

(** *** Packages [strings] and [bytes] *)
Module strings.

(** [IndexByte(s, c)]: the index of the first [c] in [s], or -1. *)
Fixpoint IndexByte_from (i : Z) (s : gostring) (c : Byte.byte) : Z :=
  match s with
  | [] => -1
  | b :: s' => if Byte.eqb b c then i else IndexByte_from (i + 1) s' c
  end.

Definition IndexByte (s : gostring) (c : Byte.byte) : Z := IndexByte_from 0 s c.

Fixpoint HasPrefix (s prefix : gostring) : bool :=
  match prefix, s with
  | [], _ => true
  | _ :: _, [] => false
  | p :: prefix', b :: s' => Byte.eqb b p && HasPrefix s' prefix'
  end.

(** [Index(s, substr)]: the index of the first [substr] in [s], or -1. *)
Fixpoint Index_from (i : Z) (s substr : gostring) : Z :=
  if HasPrefix s substr then i
  else match s with
       | [] => -1
       | _ :: s' => Index_from (i + 1) s' substr
       end.

Definition Index (s substr : gostring) : Z := Index_from 0 s substr.

(** The loop [for i, r := range s] of [IndexRune] looking for
    [RuneError]. *)
Fixpoint IndexRuneError_from (fuel : nat) (i : Z) (s : gostring) : Z :=
  match fuel with
  | O => -1
  | S fuel' =>
    match s with
    | [] => -1
    | _ =>
      let rw := utf8.DecodeRuneInString s in
      if fst rw =? utf8.RuneError then i
      else IndexRuneError_from fuel' (i + snd rw) (skipn (Z.to_nat (snd rw)) s)
    end
  end.

(** [IndexRune(s, r)]: the index of the first rune [r] in [s], or -1. *)
Definition IndexRune (s : gostring) (r : Z) : Z :=
  if (0 <=? r) && (r <? utf8.RuneSelf) then IndexByte s (z2b r)
  else if r =? utf8.RuneError then IndexRuneError_from (length s) 0 s
  else if negb (utf8.ValidRune r) then -1
  else Index s (utf8.EncodeRune r).

End strings.

Module bytes.

(** [Count(s, sep)] for a separator of one byte: the number of bytes of
    [s] equal to it. *)
Fixpoint CountByte (s : gostring) (c : Byte.byte) : Z :=
  match s with
  | [] => 0
  | b :: s' => (if Byte.eqb b c then 1 else 0) + CountByte s' c
  end.

End bytes.

(** A slice expression [s[lo:hi]]; out of range it panics, here [None]. *)
Definition slice (s : gostring) (lo hi : Z) : option gostring :=
  if (0 <=? lo) && (lo <=? hi) && (hi <=? len s)
  then Some (firstn (Z.to_nat (hi - lo)) (skipn (Z.to_nat lo) s))
  else None.

(** ** Constants and tokens *)

Definition rune : Type := Z.
Definition TokenType : Type := Z.

(** [EOFRune] is a convenience for EOF. *)
Definition EOFRune : rune := -1.
(** [ErrorToken] is returned on error. *)
Definition ErrorToken : TokenType := -1.
(** [EOFToken] is returned on EOF. *)
Definition EOFToken : TokenType := 0.

(** [lineSep], the one byte of a newline. *)
Definition lineSep : Byte.byte := z2b 10.

(** [Token] is returned by the lexer.  The field [Type] is named [Type_]. *)
Record Token : Type := mkToken {
  Type_ : TokenType;
  Value : gostring;
  Position : Z;
  Line : Z
}.

(** ** The history stack *)

(** Modelled from the spec: the file that declares the type [stack] with
    [newStack], [push], [pop] and [clear] is missing from the sources.  The
    spec describes an ordered, last-in-first-out sequence of the runes read
    since the last boundary, which is emptied at a boundary and on which
    backing up is a no-op when it is empty; [TestStack] fixes that [pop]
    returns the last rune pushed, and [EOFRune] on an empty stack. *)
Definition stack : Type := list rune.

Definition newStack : stack := [].

Definition push (r : rune) (s : stack) : stack := r :: s.

Definition pop (s : stack) : rune * stack :=
  match s with
  | [] => (EOFRune, [])
  | r :: s' => (r, s')
  end.

Definition clear (s : stack) : stack := [].

(** ** The token channel *)

(** A channel of tokens is nil, open or closed; it has a capacity and holds
    the tokens sent and not yet received, oldest first. *)
Inductive chan_state : Type := ChNil | ChOpen | ChClosed.

Record Chan : Type := mkChan {
  ch_state : chan_state;
  ch_cap : Z;
  ch_buf : list Token
}.

(** The zero value of a channel. *)
Definition nil_chan : Chan := mkChan ChNil 0 [].

(** [make(chan Token, size)] *)
Definition make_chan (size : Z) : Chan := mkChan ChOpen size [].

(** What an operation of the engine does. *)
Inductive outcome (A : Type) : Type :=
| Ok (a : A)   (* it returns *)
| Panic        (* a run-time panic: slice bounds out of range, or a send on
                  or a close of a channel that does not allow it *)
| Blocked      (* it waits on the channel: a send on a nil or full channel, a
                  receive on an empty channel that is not closed *)
| Timeout      (* the fuel given to a loop of the model ran out *).
Arguments Ok {A} a.
Arguments Panic {A}.
Arguments Blocked {A}.
Arguments Timeout {A}.

(** What follows an outcome that returns. *)
Definition lift_outcome {A B : Type} (o : outcome A) (k : A -> outcome B)
  : outcome B :=
  match o with
  | Ok a => k a
  | Panic => Panic
  | Blocked => Blocked
  | Timeout => Timeout
  end.

(** [c <- t]: a send on a nil channel blocks forever, on a closed channel it
    panics, on a full one it waits for a receiver. *)
Definition chan_send (t : Token) (c : Chan) : outcome Chan :=
  match ch_state c with
  | ChNil => Blocked
  | ChClosed => Panic
  | ChOpen =>
    if len (ch_buf c) <? ch_cap c
    then Ok (mkChan ChOpen (ch_cap c) (ch_buf c ++ [t]))
    else Blocked
  end.

(** [close(c)] *)
Definition chan_close (c : Chan) : outcome Chan :=
  match ch_state c with
  | ChOpen => Ok (mkChan ChClosed (ch_cap c) (ch_buf c))
  | _ => Panic
  end.

(** [t, ok := <-c]: the oldest token, or [(None, false)] on a closed and
    drained channel; on an empty channel that is not closed the receiver
    waits. *)
Definition chan_recv (c : Chan) : outcome (option Token * bool * Chan) :=
  match ch_buf c with
  | t :: rest => Ok (Some t, true, mkChan (ch_state c) (ch_cap c) rest)
  | [] =>
    match ch_state c with
    | ChClosed => Ok (None, false, c)
    | _ => Blocked
    end
  end.

(** The channel after a send that does not wait. *)
Definition enqueued (tok : Token) (c : Chan) : Chan :=
  mkChan ChOpen (ch_cap c) (ch_buf c ++ [tok]).

(** The channel has room for a send. *)
Definition has_room (c : Chan) : Prop :=
  ch_state c = ChOpen /\ len (ch_buf c) < ch_cap c.

(** ** The lexer *)

Section Engine.

(** The states of the caller's grammar.  A [StateFunc] is a Go function
    value from the lexer to the next [StateFunc]; here it is the name of a
    state, [None] for the nil function, and the functions themselves are
    given by a table [trans] (see [run]). *)
Context {State : Type}.

Definition StateFunc : Type := option State.

(** [Lexer] represents the lexer machine. *)
Record Lexer : Type := mkLexer {
  source : gostring;
  start : Z;
  line : Z;
  position : Z;
  lastWidth : Z;
  startState : StateFunc;
  tokens : Chan;
  history : stack
}.

Definition set_start (v : Z) (l : Lexer) : Lexer :=
  mkLexer (source l) v (line l) (position l) (lastWidth l) (startState l)
          (tokens l) (history l).
Definition set_line (v : Z) (l : Lexer) : Lexer :=
  mkLexer (source l) (start l) v (position l) (lastWidth l) (startState l)
          (tokens l) (history l).
Definition set_position (v : Z) (l : Lexer) : Lexer :=
  mkLexer (source l) (start l) (line l) v (lastWidth l) (startState l)
          (tokens l) (history l).
Definition set_tokens (v : Chan) (l : Lexer) : Lexer :=
  mkLexer (source l) (start l) (line l) (position l) (lastWidth l)
          (startState l) v (history l).
Definition set_history (v : stack) (l : Lexer) : Lexer :=
  mkLexer (source l) (start l) (line l) (position l) (lastWidth l)
          (startState l) (tokens l) v.

(** A method on [*Lexer] with a result of type [A]. *)
Definition M (A : Type) : Type := Lexer -> outcome (A * Lexer).

Definition ret {A : Type} (a : A) : M A := fun l => Ok (a, l).

Definition bind {A B : Type} (m : M A) (k : A -> M B) : M B :=
  fun l =>
    match m l with
    | Ok (a, l') => k a l'
    | Panic => Panic
    | Blocked => Blocked
    | Timeout => Timeout
    end.

Definition get : M Lexer := fun l => Ok (l, l).
Definition modify (f : Lexer -> Lexer) : M unit := fun l => Ok (tt, f l).
Definition panic {A : Type} : M A := fun _ => Panic.
Definition timeout {A : Type} : M A := fun _ => Timeout.

(** A slice expression inside a method. *)
Definition slicing (s : gostring) (lo hi : Z) : M gostring :=
  match slice s lo hi with
  | Some v => ret v
  | None => panic
  end.

(** An operation on the channel [l.tokens]. *)
Definition on_tokens {A : Type} (f : Chan -> outcome (A * Chan)) : M A :=
  fun l =>
    match f (tokens l) with
    | Ok (a, c) => Ok (a, set_tokens c l)
    | Panic => Panic
    | Blocked => Blocked
    | Timeout => Timeout
    end.

(** [l.tokens <- tok] *)
Definition send (tok : Token) : M unit :=
  on_tokens (fun c => match chan_send tok c with
                      | Ok c' => Ok (tt, c')
                      | Panic => Panic
                      | Blocked => Blocked
                      | Timeout => Timeout
                      end).

End Engine.

Arguments Lexer State : clear implicits.
Arguments M State A : clear implicits.

Declare Scope lexer_scope.
Delimit Scope lexer_scope with lexer.
Notation "x <- m ;; k" := (bind m (fun x => k))
  (at level 61, m at next level, right associativity) : lexer_scope.
Notation "m ;;; k" := (bind m (fun _ => k))
  (at level 61, right associativity) : lexer_scope.
Local Open Scope lexer_scope.

Section Operations.

Context {State : Type}.

(** The values of type [interface{}] given to [Error], and
    [fmt.Sprintf]. *)
Context {any : Type}.
Variable Sprintf : gostring -> list any -> gostring.

(** The table of the caller's state functions: what the function named
    [s] does to the lexer, and the state function it returns. *)
Variable trans : State -> M State (StateFunc (State := State)).

(** [New] creates a lexer ready to parse the given source code.  The
    fields that the composite literal leaves out are zero. *)
Definition New (src : gostring) (start_ : StateFunc) : Lexer State :=
  {| source := src;
     startState := start_;
     start := 0;
     line := 1;
     position := 0;
     lastWidth := 0;
     tokens := nil_chan;
     history := newStack |}.

(** [Current] returns the value being analyzed at this moment. *)
Definition Current : M State gostring :=
  l <- get ;;
  slicing (source l) (start l) (position l).

Definition checkLines : M State unit :=
  val <- Current ;;
  modify (fun l => set_line (line l + bytes.CountByte val lineSep) l).

(** [Emit] receives a token type and pushes a new token with the current
    analyzed value into the tokens channel. *)
Definition Emit (t : TokenType) : M State unit :=
  val <- Current ;;
  l <- get ;;
  let tok := {| Type_ := t;
                Value := val;
                Position := position l;
                Line := line l |} in
  send tok ;;;
  checkLines ;;;
  modify (fun l => set_start (position l) l) ;;;
  modify (fun l => set_history (clear (history l)) l).

(** [Next] pulls the next rune from the lexer and returns it, moving the
    position forward in the source. *)
Definition Next : M State rune :=
  l <- get ;;
  str <- slicing (source l) (position l) (len (source l)) ;;
  let '(r, s) := if len str =? 0 then (EOFRune, 0)
                 else utf8.DecodeRuneInString str in
  modify (fun l => set_position (position l + s) l) ;;;
  modify (fun l => set_history (push r (history l)) l) ;;;
  ret r.

(** [Ignore] clears the history stack and then sets the current beginning
    position to the current position in the source. *)
Definition Ignore : M State unit :=
  modify (fun l => set_history (clear (history l)) l) ;;;
  checkLines ;;;
  modify (fun l => set_start (position l) l).

(** [Backup] takes the last rune read (if any) and goes back. *)
Definition Backup : M State unit :=
  l <- get ;;
  let '(r, h) := pop (history l) in
  modify (set_history h) ;;;
  if r >? EOFRune then
    let size := utf8.RuneLen r in
    modify (fun l => set_position (position l - size) l) ;;;
    l <- get ;;
    if position l <? start l
    then modify (fun l => set_position (start l) l)
    else ret tt
  else ret tt.

(** [Peek] performs a [Next] immediately followed by a [Backup],
    returning the peeked rune. *)
Definition Peek : M State rune :=
  r <- Next ;;
  Backup ;;;
  ret r.

(** [Accept] consumes the next rune if it is in the given string. *)
Definition Accept (valid : gostring) : M State bool :=
  r <- Next ;;
  if strings.IndexRune valid r >=? 0 then ret true
  else Backup ;;; ret false.

(** The loop of [AcceptRun]; [n] is the count so far. *)
Fixpoint AcceptRun_loop (fuel : nat) (valid : gostring) (n : Z)
  : M State Z :=
  match fuel with
  | O => timeout
  | S fuel' =>
    r <- Next ;;
    if strings.IndexRune valid r >=? 0
    then AcceptRun_loop fuel' valid (n + 1)
    else ret n
  end.

(** The number of iterations that a loop over [Next] can make: every
    iteration but the last consumes at least one byte. *)
Definition loop_fuel (l : Lexer State) : nat := S (length (source l)).

(** [AcceptRun] consumes a run of runes from the valid set. *)
Definition AcceptRun (valid : gostring) : M State Z :=
  l <- get ;;
  n <- AcceptRun_loop (loop_fuel l) valid 0 ;;
  Backup ;;;
  ret n.

(** The loop of [SkipWhitespace]. *)
Fixpoint SkipWhitespace_loop (fuel : nat) : M State unit :=
  match fuel with
  | O => timeout
  | S fuel' =>
    r <- Next ;;
    if negb (unicode.IsSpace r) then Backup
    else if r =? EOFRune then Emit EOFToken
    else SkipWhitespace_loop fuel'
  end.

(** [SkipWhitespace] continues over all unicode whitespace. *)
Definition SkipWhitespace : M State unit :=
  l <- get ;;
  SkipWhitespace_loop (loop_fuel l).

(** [Tokens] returns the token channel. *)
Definition Tokens : M State Chan :=
  l <- get ;;
  ret (tokens l).

(** [NextToken] returns the next token from the lexer and done. *)
Definition NextToken : M State (option Token * bool) :=
  on_tokens (fun c =>
    match chan_recv c with
    | Ok (tok, ok, c') => if ok then Ok ((tok, false), c')
                          else Ok ((None, true), c')
    | Panic => Panic
    | Blocked => Blocked
    | Timeout => Timeout
    end).

(** [Error] sends an error token and returns the nil state function. *)
Definition Error (format : gostring) (args : list any)
  : M State (StateFunc (State := State)) :=
  l <- get ;;
  send {| Type_ := ErrorToken;
          Value := Sprintf format args;
          Position := position l;
          Line := line l |} ;;;
  ret None.

(** The loop of [run]: [for state != nil { state = state(l) }].  The
    number of transitions is not bounded by the engine, hence the
    fuel. *)
Fixpoint run_loop (fuel : nat) (state : StateFunc (State := State))
  : M State unit :=
  match state with
  | None => ret tt
  | Some s =>
    match fuel with
    | O => timeout
    | S fuel' => state' <- trans s ;; run_loop fuel' state'
    end
  end.

Definition run (fuel : nat) : M State unit :=
  l <- get ;;
  run_loop fuel (startState l) ;;;
  on_tokens (fun c => match chan_close c with
                      | Ok c' => Ok (tt, c')
                      | Panic => Panic
                      | Blocked => Blocked
                      | Timeout => Timeout
                      end).

(** [StartSync] starts the lexer synchronously. *)
Definition StartSync (fuel : nat) : M State unit :=
  l <- get ;;
  (* Take half the string length as a buffer size. *)
  let buffSize := len (source l) / 2 in
  let buffSize := if buffSize <=? 0 then 1 else buffSize in
  modify (set_tokens (make_chan buffSize)) ;;;
  run fuel.

End Operations.

(** ** The grammar of the tests *)

Module TestGrammar.

(** The token types of [lexer_test.go], numbered by [iota]. *)
Definition NumberToken : TokenType := 0.
Definition OpToken : TokenType := 1.
Definition IdentToken : TokenType := 2.

(** The state functions of [lexer_test.go]. *)
Inductive state : Type :=
| NumberState
| IdentState
| NewlineState
| WhitespaceState.

Section States.

Context {any : Type}.
Variable Sprintf : gostring -> list any -> gostring.
(** The value [r] of type [rune] as an [interface{}]. *)
Variable of_rune : rune -> any.

Definition digits : gostring := lit "0123456789".

Definition do_NumberState : M state (option state) :=
  AcceptRun digits ;;;
  Emit NumberToken ;;;
  r <- Peek ;;
  if r =? 46 (* '.' *) then
    Next ;;;
    Emit OpToken ;;;
    ret (Some IdentState)
  else ret None.

(** The loop of [IdentState]. *)
Fixpoint IdentState_loop (fuel : nat) (r : rune) : M state unit :=
  if ((97 <=? r) && (r <=? 122)) || (r =? 95) then
    match fuel with
    | O => timeout
    | S fuel' => r' <- Next ;; IdentState_loop fuel' r'
    end
  else ret tt.

Definition do_IdentState : M state (option state) :=
  l <- get ;;
  r <- Next ;;
  IdentState_loop (loop_fuel l) r ;;;
  Backup ;;;
  Emit IdentToken ;;;
  ret (Some WhitespaceState).

Definition do_NewlineState : M state (option state) :=
  AcceptRun digits ;;;
  Emit NumberToken ;;;
  SkipWhitespace ;;;
  Ignore ;;;
  AcceptRun digits ;;;
  Emit NumberToken ;;;
  SkipWhitespace ;;;
  ret None.

Definition do_WhitespaceState : M state (option state) :=
  r <- Next ;;
  if r =? EOFRune then ret None
  else if negb (r =? 32) && negb (r =? 9) && negb (r =? 10)
          && negb (r =? 13) then
    Error Sprintf (Sprintf (lit "unexpected token %q") [of_rune r]) [] ;;;
    ret None
  else
    Accept [z2b 32; z2b 9; z2b 10; z2b 13] ;;;
    Ignore ;;;
    ret (Some NumberState).

Definition trans (s : state) : M state (option state) :=
  match s with
  | NumberState => do_NumberState
  | IdentState => do_IdentState
  | NewlineState => do_NewlineState
  | WhitespaceState => do_WhitespaceState
  end.

End States.

(** A stand-in for [fmt.Sprintf] that returns the format; the tests do
    not look at the message of an error token. *)
Definition Sprintf0 (format : gostring) (args : list Z) : gostring := format.

Definition trans0 : state -> M state (option state) :=
  trans Sprintf0 (fun r => r).

(** The source of [TestNewlines]. *)
Definition newlines_src : gostring :=
  lit "123" ++ [lineSep] ++ lit "456" ++ [lineSep] ++ lit "789".

End TestGrammar.

(** ** Sequences of operations *)

(** The operations of the engine that a state function can call. *)
Inductive op {any : Type} : Type :=
| ONext
| OBackup
| OPeek
| OAccept (valid : gostring)
| OAcceptRun (valid : gostring)
| OSkipWhitespace
| OEmit (t : TokenType)
| OIgnore
| OError (format : gostring) (args : list any).
Arguments op any : clear implicits.

Section Exec.

Context {State any : Type}.
Variable Sprintf : gostring -> list any -> gostring.

(** One operation, its result dropped. *)
Definition exec (o : op any) : M State unit :=
  match o with
  | ONext => Next ;;; ret tt
  | OBackup => Backup
  | OPeek => Peek ;;; ret tt
  | OAccept valid => Accept valid ;;; ret tt
  | OAcceptRun valid => AcceptRun valid ;;; ret tt
  | OSkipWhitespace => SkipWhitespace
  | OEmit t => Emit t
  | OIgnore => Ignore
  | OError format args => Error Sprintf format args ;;; ret tt
  end.

(** The operations of a list, one after the other. *)
Fixpoint exec_all (os : list (op any)) : M State unit :=
  match os with
  | [] => ret tt
  | o :: os' => exec o ;;; exec_all os'
  end.

(** [n] calls of [Next]. *)
Fixpoint Next_n (n : nat) : M State unit :=
  match n with
  | O => ret tt
  | S n' => Next ;;; Next_n n'
  end.

(** [n] calls of [Backup]. *)
Fixpoint Backup_n (n : nat) : M State unit :=
  match n with
  | O => ret tt
  | S n' => Backup ;;; Backup_n n'
  end.

(** [n] calls of [NextToken], with their results in order. *)
Fixpoint pull (n : nat) : M State (list (option Token * bool)) :=
  match n with
  | O => ret []
  | S n' => x <- NextToken ;; xs <- pull n' ;; ret (x :: xs)
  end.

(** The results of [n] calls of [NextToken] on a closed channel that
    holds the tokens [buf]. *)
Definition drained (n : nat) (buf : list Token) : list (option Token * bool) :=
  map (fun t => (Some t, false)) (firstn n buf)
  ++ repeat (None, true) (n - length buf).

(** The lexer of [New] whose channel has been made with the given
    capacity, as [StartSync] makes it before it runs the states. *)
Definition started (cap : Z) (src : gostring) (st : option State)
  : Lexer State :=
  set_tokens (make_chan cap) (New src st).

(** The token that [Error] sends. *)
Definition error_token (format : gostring) (args : list any)
           (l : Lexer State) : Token :=
  {| Type_ := ErrorToken;
     Value := Sprintf format args;
     Position := position l;
     Line := line l |}.

(** The pending span, [None] where [Current] would panic. *)
Definition span (l : Lexer State) : option gostring :=
  slice (source l) (start l) (position l).

(** What [Next] reads: the source from [position] on, and the rune there
    with its width. *)
Definition rest (l : Lexer State) : gostring :=
  skipn (Z.to_nat (position l)) (source l).

Definition reading (l : Lexer State) : rune * Z :=
  if len (rest l) =? 0 then (EOFRune, 0)
  else utf8.DecodeRuneInString (rest l).

(** The position after a [Backup] that pops the rune [r]. *)
Definition backed (r : rune) (l : Lexer State) : Z :=
  if r >? EOFRune then
    if position l - utf8.RuneLen r <? start l then start l
    else position l - utf8.RuneLen r
  else position l.

(** The lexer after a [Next] that does not panic. *)
Definition after_Next (l : Lexer State) : Lexer State :=
  mkLexer (source l) (start l) (line l) (position l + snd (reading l))
          (lastWidth l) (startState l) (tokens l)
          (push (fst (reading l)) (history l)).

(** The lexer after a [Backup]. *)
Definition after_Backup (l : Lexer State) : Lexer State :=
  mkLexer (source l) (start l) (line l) (backed (fst (pop (history l))) l)
          (lastWidth l) (startState l) (tokens l) (snd (pop (history l))).

(** The lexer after a boundary whose pending span is [val]: what [Ignore]
    does, and [Emit] after it has sent the token. *)
Definition after_boundary (val : gostring) (l : Lexer State) : Lexer State :=
  mkLexer (source l) (position l) (line l + bytes.CountByte val lineSep)
          (position l) (lastWidth l) (startState l) (tokens l)
          (clear (history l)).

(** The bytes that are left to read. *)
Definition remaining (l : Lexer State) : Z := len (source l) - position l.

(** The steps of which every operation of the engine is made: a [Next] or
    a [Backup], a boundary, a send on the channel. *)
Inductive move : Lexer State -> Lexer State -> Prop :=
| move_Next l :
    0 <= position l <= len (source l) -> move l (after_Next l)
| move_Backup l : move l (after_Backup l).

Inductive prim : Lexer State -> Lexer State -> Prop :=
| prim_move l l' : move l l' -> prim l l'
| prim_boundary l val : span l = Some val -> prim l (after_boundary val l)
| prim_send l tok c :
    chan_send tok (tokens l) = Ok c -> prim l (set_tokens c l).

Inductive moves : Lexer State -> Lexer State -> Prop :=
| moves_refl l : moves l l
| moves_step l1 l2 l3 : move l1 l2 -> moves l2 l3 -> moves l1 l3.

Inductive steps : Lexer State -> Lexer State -> Prop :=
| steps_refl l : steps l l
| steps_step l1 l2 l3 : prim l1 l2 -> steps l2 l3 -> steps l1 l3.

(** An outcome made of such steps: the method returns after a sequence of
    steps, or waits on the channel, or panics because the channel is
    closed; the fuel of the model is enough. *)
Definition stepwise {A : Type} (l : Lexer State)
           (o : outcome (A * Lexer State)) : Prop :=
  match o with
  | Ok (_, l') => steps l l'
  | Blocked => True
  | Panic => ch_state (tokens l) = ChClosed
  | Timeout => False
  end.

(** The outcome of a method that does not touch the channel, on a lexer
    with another channel. *)
Definition with_chan {A : Type} (c : Chan) (o : outcome (A * Lexer State))
  : outcome (A * Lexer State) :=
  lift_outcome o (fun al => Ok (fst al, set_tokens c (snd al))).

Definition chan_free {A : Type} (m : M State A) : Prop :=
  forall c l, m (set_tokens c l) = with_chan c (m l).

(** The engine operations and the calls of [NextToken] of a producer and a
    consumer that take turns. *)
Inductive action : Type :=
| Produce (o : op any)
| Consume.

(** The actions of a list, one after the other, with the results of the
    calls of [NextToken] in order.  A list in which an action would have
    to wait for the other side is not a schedule of the program: its
    outcome is [Blocked]. *)
Fixpoint interleave (acts : list action)
  : M State (list (option Token * bool)) :=
  match acts with
  | [] => ret []
  | Produce o :: acts' => exec o ;;; interleave acts'
  | Consume :: acts' =>
    x <- NextToken ;; xs <- interleave acts' ;; ret (x :: xs)
  end.

(** The engine operations among the actions. *)
Fixpoint produced (acts : list action) : list (op any) :=
  match acts with
  | [] => []
  | Produce o :: acts' => o :: produced acts'
  | Consume :: acts' => produced acts'
  end.

(** The tokens that a sequence of engine operations emits, in order: what
    the channel holds after them when nothing is received and the channel
    has room for a token for each operation. *)
Definition emitted (os : list (op any)) (l : Lexer State)
  : option (list Token) :=
  match exec_all os (set_tokens (make_chan (len os)) l) with
  | Ok (_, l') => Some (ch_buf (tokens l'))
  | _ => None
  end.

End Exec.

(** ** Sample states *)

(** A lexer over ["ab"] that has read the first byte, one over ["x"] that
    has read nothing, and a state function that fails at once. *)
Definition ab : Lexer unit :=
  mkLexer (lit "ab") 0 1 1 0 None (make_chan 1) [97].

Definition x0 : Lexer unit := started 1 (lit "x") (Some tt).


(** ** Invariants *)

Section Invariants.

Context {State : Type}.

(** The invariant of the cursor. *)
Definition cursor_inv (l : Lexer State) : Prop :=
  0 <= start l /\ start l <= position l /\ position l <= len (source l)
  /\ 1 <= line l.

(** What the history holds: the end sentinel or a rune that has an
    encoding. *)
Definition hist_ok (r : rune) : Prop :=
  r = EOFRune \/ utf8.ValidRune r = true.

Definition inv (l : Lexer State) : Prop :=
  cursor_inv l /\ Forall hist_ok (history l).

(** The entries of the history that are runes of the source. *)
Definition read_runes (h : stack) : list rune :=
  filter (fun r => r >? EOFRune) h.

(** [clean s rs]: the string [s] is the concatenation of the valid
    encodings of the runes [rs]. *)
Inductive clean : gostring -> list rune -> Prop :=
| clean_nil : clean [] []
| clean_cons (c s : gostring) (r : rune) (rs : list rune) :
    c <> [] ->
    utf8.DecodeRuneInString c = (r, len c) ->
    ~ (r = utf8.RuneError /\ len c = 1) ->
    clean s rs ->
    clean (c ++ s) (r :: rs).

(** The invariant on a source that is valid UTF-8: the source splits into
    the part before [start], the pending span and the rest; the span is
    the encoding of the runes of the history, oldest first, and the rest
    is valid. *)
Definition utf8_inv (l : Lexer State) : Prop :=
  inv l /\
  exists a b c : gostring,
    source l = a ++ b ++ c /\
    len a = start l /\
    len a + len b = position l /\
    clean b (rev (read_runes (history l))) /\
    utf8.ValidString c = true.

End Invariants.

(** ** Tokens received *)

(** The tokens among the results of calls of [NextToken], in order. *)
Fixpoint received (res : list (option Token * bool)) : list Token :=
  match res with
  | [] => []
  | (Some t, _) :: res' => t :: received res'
  | (None, _) :: res' => received res'
  end.

(** ** Encodings *)

Section Encodings.

Import utf8.

(** The second byte allowed after the first byte [s0] of an encoding of
    three or four bytes. *)
Definition lo2 (s0 : Z) : Z :=
  if s0 =? 0xE0 then 0xA0 else if s0 =? 0xF0 then 0x90 else 0x80.
Definition hi2 (s0 : Z) : Z :=
  if s0 =? 0xED then 0x9F else if s0 =? 0xF4 then 0x8F else 0xBF.

Inductive enc : gostring -> Z -> Prop :=
| enc_1 c0 : b2z c0 < 0x80 -> enc [c0] (b2z c0)
| enc_2 c0 c1 :
    0xC2 <= b2z c0 <= 0xDF -> 0x80 <= b2z c1 <= 0xBF ->
    enc [c0; c1] ((b2z c0 - 0xC0) * 64 + (b2z c1 - 0x80))
| enc_3 c0 c1 c2 :
    0xE0 <= b2z c0 <= 0xEF -> lo2 (b2z c0) <= b2z c1 <= hi2 (b2z c0) ->
    0x80 <= b2z c2 <= 0xBF ->
    enc [c0; c1; c2]
        ((b2z c0 - 0xE0) * 4096 + (b2z c1 - 0x80) * 64 + (b2z c2 - 0x80))
| enc_4 c0 c1 c2 c3 :
    0xF0 <= b2z c0 <= 0xF4 -> lo2 (b2z c0) <= b2z c1 <= hi2 (b2z c0) ->
    0x80 <= b2z c2 <= 0xBF -> 0x80 <= b2z c3 <= 0xBF ->
    enc [c0; c1; c2; c3]
        ((b2z c0 - 0xF0) * 262144 + (b2z c1 - 0x80) * 4096
         + (b2z c2 - 0x80) * 64 + (b2z c3 - 0x80)).

(** The shape of the first byte. *)
Inductive lead : Z -> Z -> Prop :=
| lead_as b : b < 0x80 -> lead b as_
| lead_xx b : 0x80 <= b < 0xC2 \/ 0xF5 <= b -> lead b xx
| lead_s1 b : 0xC2 <= b <= 0xDF -> lead b s1
| lead_s2 : lead 0xE0 s2
| lead_s3 b : 0xE1 <= b <= 0xEC \/ 0xEE <= b <= 0xEF -> lead b s3
| lead_s4 : lead 0xED s4
| lead_s5 : lead 0xF0 s5
| lead_s6 b : 0xF1 <= b <= 0xF3 -> lead b s6
| lead_s7 : lead 0xF4 s7.

End Encodings.

(** ** Tokens in the channel and grammars of engine operations *)

Section Notions.

Context {State any : Type}.

(** The operations that send a token. *)
Definition sends_token (o : op any) : bool :=
  match o with
  | OEmit _ => true
  | OError _ _ => true
  | _ => false
  end.

(** The number of operations of a list that send a token. *)
Definition sends (os : list (op any)) : Z := len (filter sends_token os).

(** A token that does not carry the error tag. *)
Definition non_error (tok : Token) : bool := negb (Type_ tok =? ErrorToken).

(** The tokens [toks] lie in the source [src] one after the other, from
    the offset [lo] on: the value of each is the part of the source that
    ends at its position, it starts no earlier than the one before it ends,
    and its line is one more than the number of newlines before its first
    byte. *)
Fixpoint tiles (src : gostring) (lo : Z) (toks : list Token) : Prop :=
  match toks with
  | [] => True
  | t :: ts =>
    let s0 := Position t - len (Value t) in
    lo <= s0 /\
    slice src s0 (Position t) = Some (Value t) /\
    Line t = 1 + bytes.CountByte (firstn (Z.to_nat s0) src) lineSep /\
    tiles src (Position t) ts
  end.

(** The offset at which the last of the tokens ends, [lo] when there is
    none. *)
Definition last_end (lo : Z) (toks : list Token) : Z :=
  last (map Position toks) lo.

(** The line is one more than the number of newlines before [start]. *)
Definition line_inv (l : Lexer State) : Prop :=
  line l = 1 + bytes.CountByte (firstn (Z.to_nat (start l)) (source l)) lineSep.

(** The invariant of the channel of a lexer whose tokens nobody has
    received yet. *)
Definition tiled (src : gostring) (l : Lexer State) : Prop :=
  let toks := filter non_error (ch_buf (tokens l)) in
  tiles src 0 toks /\ last_end 0 toks <= start l.

(** A grammar whose state functions are made of engine operations: from a
    lexer that satisfies the invariant, each of them is a sequence of
    steps, unless it waits on the channel or the channel is closed. *)
Definition engine_grammar (trans : State -> M State (option State)) : Prop :=
  forall s l, inv l -> stepwise l (trans s l).

End Notions.

(** * Properties *)

(** ** Bytes, lengths and bit operations *)

Lemma b2z_range (b : Byte.byte) : 0 <= b2z b <= 255.
Proof.
  unfold b2z. pose proof (Byte.to_N_bounded b) as H.
  split; [apply N2Z.is_nonneg|].
  change 255 with (Z.of_N 255). apply N2Z.inj_le. exact H.
Qed.

Lemma len_cons {A} (x : A) (s : list A) : len (x :: s) = 1 + len s.
Proof. unfold len. cbn [length]. lia. Qed.
Lemma len_nil {A} : len (@nil A) = 0.
Proof. reflexivity. Qed.
Lemma len_nonneg {A} (s : list A) : 0 <= len s.
Proof. unfold len. lia. Qed.
Lemma len_app {A} (s t : list A) : len (s ++ t) = len s + len t.
Proof. unfold len. rewrite length_app. lia. Qed.

Lemma len_pos_cons {A} (x : A) (s : list A) : 1 <= len (x :: s).
Proof. rewrite len_cons. pose proof (len_nonneg s). lia. Qed.

Ltac case_cmp :=
  repeat match goal with
         | |- context [?a <? ?b] => destruct (Z.ltb_spec a b)
         | |- context [?a =? ?b] => destruct (Z.eqb_spec a b)
         | |- context [?a <=? ?b] => destruct (Z.leb_spec a b)
         end.

Ltac len_facts :=
  repeat rewrite len_cons in *; repeat rewrite (@len_nil Byte.byte) in *;
  repeat match goal with
         | |- context [len ?s] =>
           lazymatch goal with
           | _ : 0 <= len s |- _ => fail
           | _ => pose proof (len_nonneg s)
           end
         | _ : context [len ?s] |- _ =>
           lazymatch goal with
           | _ : 0 <= len s |- _ => fail
           | _ => pose proof (len_nonneg s)
           end
         end.

Lemma land_low (b k m : Z) :
  0 <= k -> m * 2 ^ k <= b < (m + 1) * 2 ^ k -> Z.land b (Z.ones k) = b - m * 2 ^ k.
Proof.
  intros Hk Hb. rewrite Z.land_ones by assumption.
  symmetry. apply Z.mod_unique with (q := m); [left|]; lia.
Qed.

Lemma lor_shiftl (a b k : Z) :
  0 <= k -> 0 <= b < 2 ^ k -> Z.lor (Z.shiftl a k) b = a * 2 ^ k + b.
Proof.
  intros Hk Hb.
  rewrite <- Z.shiftl_mul_pow2 by assumption.
  rewrite <- Z.add_lor_land.
  assert (Z.land (Z.shiftl a k) b = 0) as ->; [|lia].
  apply Z.bits_inj'. intros n Hn. rewrite Z.land_spec, Z.bits_0.
  destruct (Z.lt_ge_cases n k).
  - rewrite Z.shiftl_spec_low by assumption. reflexivity.
  - assert (Z.testbit b n = false) as ->; [|apply andb_false_r].
    destruct (Z.eq_dec b 0) as [->|]; [apply Z.bits_0|].
    apply Z.bits_above_log2; [lia|].
    apply Z.log2_lt_pow2; [lia|].
    apply Z.lt_le_trans with (2 ^ k); [lia|].
    apply Z.pow_le_mono_r; lia.
Qed.

(** ** The decoding of a rune *)

Section Utf8Facts.

Import utf8.

Lemma first_lead b : lead b (first b).
Proof.
  unfold first. case_cmp; subst; try (constructor; lia).
Qed.

Lemma land_maskx b : 0x80 <= b <= 0xBF -> Z.land b maskx = b - 0x80.
Proof. intros. apply (land_low b 6 2); lia. Qed.
Lemma land_mask2 b : 0xC0 <= b <= 0xDF -> Z.land b mask2 = b - 0xC0.
Proof. intros. apply (land_low b 5 6); lia. Qed.
Lemma land_mask3 b : 0xE0 <= b <= 0xEF -> Z.land b mask3 = b - 0xE0.
Proof. intros. apply (land_low b 4 14); lia. Qed.
Lemma land_mask4 b : 0xF0 <= b <= 0xF7 -> Z.land b mask4 = b - 0xF0.
Proof. intros. apply (land_low b 3 30); lia. Qed.

Ltac closed_eval t := let v := eval vm_compute in t in change t with v.

Ltac eval_lead :=
  repeat match goal with
         | |- context [?x >=? as_] => closed_eval (x >=? as_)
         | |- context [Z.testbit ?x 0] => closed_eval (Z.testbit x 0)
         | |- context [Z.land ?x 7 <=? ?k] => closed_eval (Z.land x 7 <=? k)
         | |- context [Z.land ?x 7] => closed_eval (Z.land x 7)
         | |- context [fst (acceptRanges ?y)] => closed_eval (fst (acceptRanges y))
         | |- context [snd (acceptRanges ?y)] => closed_eval (snd (acceptRanges y))
         | |- context [Z.lnot ?y] => closed_eval (Z.lnot y)
         end;
  cbv beta iota;
  change locb with 0x80; change hicb with 0xBF.

Lemma lor_3 a b c :
  0 <= b < 64 -> 0 <= c < 64 ->
  Z.lor (Z.lor (Z.shiftl a 12) (Z.shiftl b 6)) c = a * 4096 + b * 64 + c.
Proof.
  intros Hb Hc.
  replace (Z.lor (Z.shiftl a 12) (Z.shiftl b 6)) with (Z.shiftl (a * 64 + b) 6).
  - rewrite lor_shiftl by lia. lia.
  - replace (a * 64 + b) with (Z.lor (Z.shiftl a 6) b)
      by (rewrite lor_shiftl by lia; lia).
    rewrite Z.shiftl_lor, Z.shiftl_shiftl by lia. reflexivity.
Qed.

Lemma lor_4 a b c d :
  0 <= b < 64 -> 0 <= c < 64 -> 0 <= d < 64 ->
  Z.lor (Z.lor (Z.lor (Z.shiftl a 18) (Z.shiftl b 12)) (Z.shiftl c 6)) d
  = a * 262144 + b * 4096 + c * 64 + d.
Proof.
  intros Hb Hc Hd.
  replace (Z.lor (Z.lor (Z.shiftl a 18) (Z.shiftl b 12)) (Z.shiftl c 6))
    with (Z.shiftl (a * 4096 + b * 64 + c) 6).
  - rewrite lor_shiftl by lia. lia.
  - rewrite <- (lor_3 a b c) by lia.
    rewrite !Z.shiftl_lor, !Z.shiftl_shiftl by lia. reflexivity.
Qed.

Lemma land_all b : Z.land b (-1) = b.
Proof. apply Z.land_m1_r. Qed.

Lemma Decode_enc c r : enc c r -> forall t, DecodeRuneInString (c ++ t) = (r, len c).
Proof.
  intros H t. destruct H as [c0 H0|c0 c1 H0 H1|c0 c1 c2 H0 H1 H2|c0 c1 c2 c3 H0 H1 H2 H3];
    cbn [app]; unfold DecodeRuneInString;
    pose proof (first_lead (b2z c0)) as L; inversion L; subst; try lia;
    try match goal with H : _ = b2z _ |- _ => rewrite <- H in * end;
    eval_lead; unfold lo2, hi2 in *;
    repeat match goal with H : context [_ =? _] |- _ => revert H end; case_cmp; intros; try lia.
  all: len_facts; try lia.
  all: cbn [orb]; f_equal; try lia.
  - rewrite land_all. change (Z.land RuneError 0) with 0. apply Z.lor_0_r.
  - rewrite land_mask2, land_maskx by lia. rewrite lor_shiftl by lia. lia.
  - rewrite land_mask3, !land_maskx by lia. rewrite lor_3 by lia. lia.
  - rewrite land_mask3, !land_maskx by lia. rewrite lor_3 by lia. lia.
  - rewrite land_mask3, !land_maskx by lia. rewrite lor_3 by lia. lia.
  - rewrite land_mask4, !land_maskx by lia. rewrite lor_4 by lia. lia.
  - rewrite land_mask4, !land_maskx by lia. rewrite lor_4 by lia. lia.
  - rewrite land_mask4, !land_maskx by lia. rewrite lor_4 by lia. lia.
Qed.

Ltac solve_invalid :=
  left; unfold DecodeRuneInString;
  try match goal with H : _ = first _ |- _ => rewrite <- H end;
  try match goal with H : _ = b2z _ |- _ => rewrite <- H end;
  eval_lead; len_facts; case_cmp; cbn [orb]; try lia;
  try reflexivity.

Ltac in_range x lo hi :=
  destruct (Z.lt_ge_cases x lo); [solve_invalid|];
  destruct (Z.lt_ge_cases hi x); [solve_invalid|].

Lemma Decode_cases (s : gostring) :
  s = [] \/ DecodeRuneInString s = (RuneError, 1)
  \/ exists c t r, s = c ++ t /\ enc c r.
Proof.
  destruct s as [|c0 t]; [left; reflexivity|right].
  pose proof (b2z_range c0) as R0.
  pose proof (first_lead (b2z c0)) as L.
  inversion L as [b Hb Eb E|b Hb Eb E|b Hb Eb E|Eb E|b Hb Eb E|Eb E|Eb E|b Hb Eb E|Eb E].
  - right. exists [c0], t, (b2z c0). split; [reflexivity|constructor; lia].
  - solve_invalid. rewrite Z.land_0_r, Z.land_m1_r. reflexivity.
  - destruct t as [|c1 t]; [solve_invalid|].
    in_range (b2z c1) 0x80 0xBF.
    right. exists [c0; c1], t. eexists. split; [reflexivity|constructor; lia].
  - destruct t as [|c1 [|c2 t]]; [solve_invalid|solve_invalid|].
    in_range (b2z c1) 0xA0 0xBF. in_range (b2z c2) 0x80 0xBF.
    right. exists [c0; c1; c2], t. eexists. split; [reflexivity|].
    constructor; rewrite <- ?Eb; unfold lo2, hi2; cbn; lia.
  - destruct t as [|c1 [|c2 t]]; [solve_invalid|solve_invalid|].
    in_range (b2z c1) 0x80 0xBF. in_range (b2z c2) 0x80 0xBF.
    right. exists [c0; c1; c2], t. eexists. split; [reflexivity|].
    constructor; unfold lo2, hi2; case_cmp; lia.
  - destruct t as [|c1 [|c2 t]]; [solve_invalid|solve_invalid|].
    in_range (b2z c1) 0x80 0x9F. in_range (b2z c2) 0x80 0xBF.
    right. exists [c0; c1; c2], t. eexists. split; [reflexivity|].
    constructor; rewrite <- ?Eb; unfold lo2, hi2; cbn; lia.
  - destruct t as [|c1 [|c2 [|c3 t]]]; [solve_invalid|solve_invalid|solve_invalid|].
    in_range (b2z c1) 0x90 0xBF. in_range (b2z c2) 0x80 0xBF.
    in_range (b2z c3) 0x80 0xBF.
    right. exists [c0; c1; c2; c3], t. eexists. split; [reflexivity|].
    constructor; rewrite <- ?Eb; unfold lo2, hi2; cbn; lia.
  - destruct t as [|c1 [|c2 [|c3 t]]]; [solve_invalid|solve_invalid|solve_invalid|].
    in_range (b2z c1) 0x80 0xBF. in_range (b2z c2) 0x80 0xBF.
    in_range (b2z c3) 0x80 0xBF.
    right. exists [c0; c1; c2; c3], t. eexists. split; [reflexivity|].
    constructor; unfold lo2, hi2; case_cmp; lia.
  - destruct t as [|c1 [|c2 [|c3 t]]]; [solve_invalid|solve_invalid|solve_invalid|].
    in_range (b2z c1) 0x80 0x8F. in_range (b2z c2) 0x80 0xBF.
    in_range (b2z c3) 0x80 0xBF.
    right. exists [c0; c1; c2; c3], t. eexists. split; [reflexivity|].
    constructor; rewrite <- ?Eb; unfold lo2, hi2; cbn; lia.
Qed.

Lemma enc_RuneLen c r : enc c r -> RuneLen r = len c /\ ValidRune r = true.
Proof.
  intros H. destruct H; len_facts;
    repeat match goal with b : Byte.byte |- _ =>
      lazymatch goal with
      | _ : 0 <= b2z b <= 255 |- _ => fail
      | _ => pose proof (b2z_range b)
      end end;
    unfold lo2, hi2 in *;
    repeat match goal with H : context [_ =? _] |- _ => revert H end;
    unfold RuneLen, ValidRune, surrogateMin, surrogateMax, MaxRune;
    case_cmp; intros; cbn [andb orb]; split; try reflexivity; try lia.
Qed.

Lemma enc_len c r : enc c r -> 1 <= len c <= 4.
Proof. intros H; destruct H; len_facts; lia. Qed.

Lemma enc_nonempty c r : enc c r -> c <> [].
Proof. intros H; destruct H; discriminate. Qed.

Lemma enc_not_invalid c r : enc c r -> ~ (r = RuneError /\ len c = 1).
Proof.
  intros H [Hr Hl]. destruct H; len_facts; try lia.
  unfold RuneError in Hr. lia.
Qed.

(** The decoding of a string that is not empty is an invalid encoding or
    the rune of an encoding at the front of the string. *)
Lemma Decode_shape s r w :
  s <> [] -> DecodeRuneInString s = (r, w) ->
  (r = RuneError /\ w = 1) \/
  exists c t, s = c ++ t /\ enc c r /\ len c = w.
Proof.
  intros Hs E. destruct (Decode_cases s) as [->|[H|(c & t & r' & -> & He)]].
  - contradiction.
  - left. rewrite H in E. inversion E. auto.
  - right. rewrite (Decode_enc _ _ He) in E. inversion E; subst.
    exists c, t. auto.
Qed.

Lemma Decode_width s r w :
  s <> [] -> DecodeRuneInString s = (r, w) -> 1 <= w <= 4 /\ w <= len s.
Proof.
  intros Hs E. destruct (Decode_shape s r w Hs E) as [[_ ->]|(c & t & -> & He & <-)].
  - destruct s; [contradiction|]. len_facts. lia.
  - pose proof (enc_len _ _ He). rewrite len_app. pose proof (len_nonneg t). lia.
Qed.

Lemma ValidRune_RuneLen r : ValidRune r = true -> 1 <= RuneLen r <= 4.
Proof.
  unfold ValidRune, RuneLen, surrogateMin, surrogateMax, MaxRune.
  case_cmp; cbn [andb orb]; intros; try discriminate; lia.
Qed.

Lemma Decode_ValidRune s : ValidRune (fst (DecodeRuneInString s)) = true.
Proof.
  destruct s as [|c0 t]; [reflexivity|].
  destruct (DecodeRuneInString (c0 :: t)) as [r w] eqn:E.
  destruct (Decode_shape (c0 :: t) r w) as [[-> _]|(c & t' & _ & He & _)];
    [discriminate|assumption|reflexivity|].
  apply (enc_RuneLen _ _ He).
Qed.

(** A decoding that is not an invalid encoding has the width that
    [RuneLen] gives for its rune. *)
Lemma Decode_RuneLen s r w :
  s <> [] -> DecodeRuneInString s = (r, w) ->
  ~ (r = RuneError /\ w = 1) -> RuneLen r = w.
Proof.
  intros Hs E Hv. destruct (Decode_shape s r w Hs E) as [?|(c & t & _ & He & <-)].
  - contradiction.
  - apply (enc_RuneLen _ _ He).
Qed.

Lemma enc_clean c r :
  c <> [] -> DecodeRuneInString c = (r, len c) ->
  ~ (r = RuneError /\ len c = 1) -> enc c r.
Proof.
  intros Hc E Hv. destruct (Decode_shape c r (len c) Hc E) as [?|(c' & t & -> & He & Hl)].
  - contradiction.
  - rewrite len_app in Hl. destruct t; [rewrite app_nil_r; exact He|].
    len_facts. lia.
Qed.

Lemma skipn_len_app {A} (c t : list A) : skipn (Z.to_nat (len c)) (c ++ t) = t.
Proof.
  unfold len. rewrite Nat2Z.id. rewrite skipn_app, skipn_all, Nat.sub_diag. reflexivity.
Qed.

Lemma firstn_len_app {A} (c t : list A) : firstn (Z.to_nat (len c)) (c ++ t) = c.
Proof.
  unfold len. rewrite Nat2Z.id. rewrite firstn_app, firstn_all, Nat.sub_diag.
  cbn. apply app_nil_r.
Qed.

Lemma decode_all_fuels f1 : forall f2 s,
  (length s <= f1)%nat -> (length s <= f2)%nat ->
  decode_all f1 s = decode_all f2 s.
Proof.
  induction f1 as [|f1 IH]; intros f2 s H1 H2.
  - destruct s; [destruct f2; reflexivity|cbn in H1; lia].
  - destruct s as [|c0 t]; [destruct f2; reflexivity|].
    destruct f2 as [|f2]; [cbn in H2; lia|].
    cbn [decode_all].
    destruct (DecodeRuneInString (c0 :: t)) as [r w] eqn:E. cbn [snd].
    destruct (Decode_width (c0 :: t) r w) as [Hw Hl]; [discriminate|exact E|].
    f_equal. cbn [length] in H1, H2.
    apply IH; rewrite length_skipn; cbn [length]; lia.
Qed.

Lemma decode_all_fuel fuel s :
  (length s <= fuel)%nat -> decode_all fuel s = decode_all (length s) s.
Proof. intros H. apply decode_all_fuels; [exact H|apply Nat.le_refl]. Qed.

Lemma runes_nil : runes [] = [].
Proof. reflexivity. Qed.

Lemma runes_step s r w :
  s <> [] -> DecodeRuneInString s = (r, w) ->
  runes s = (r, w) :: runes (skipn (Z.to_nat w) s).
Proof.
  intros Hs E. unfold runes. destruct s as [|c0 t]; [contradiction|].
  cbn [decode_all length]. rewrite E. cbn [snd]. f_equal.
  apply decode_all_fuel.
  destruct (Decode_width (c0 :: t) r w) as [Hw Hl]; [discriminate|exact E|].
  rewrite length_skipn. cbn [length]. lia.
Qed.

Lemma runes_enc_app c r t : enc c r -> runes (c ++ t) = (r, len c) :: runes t.
Proof.
  intros He. rewrite (runes_step (c ++ t) r (len c)).
  - rewrite skipn_len_app. reflexivity.
  - pose proof (enc_nonempty _ _ He). destruct c; [contradiction|discriminate].
  - apply Decode_enc. exact He.
Qed.

Lemma ValidString_enc_app c r t :
  enc c r -> ValidString (c ++ t) = ValidString t.
Proof.
  intros He. unfold ValidString. rewrite (runes_enc_app _ _ _ He).
  cbn [forallb fst snd].
  pose proof (enc_not_invalid _ _ He) as Hv.
  destruct (Z.eqb_spec r RuneError), (Z.eqb_spec (len c) 1); cbn; try reflexivity.
  exfalso. auto.
Qed.

Lemma ValidString_step s :
  ValidString s = true -> s <> [] ->
  exists c t r, s = c ++ t /\ enc c r /\ ValidString t = true.
Proof.
  intros Hv Hs.
  destruct (DecodeRuneInString s) as [r w] eqn:E.
  destruct (Decode_shape s r w Hs E) as [[-> ->]|(c & t & -> & He & Hl)].
  - unfold ValidString in Hv. rewrite (runes_step s _ _ Hs E) in Hv.
    cbn in Hv. discriminate.
  - exists c, t, r. rewrite (ValidString_enc_app _ _ _ He) in Hv. auto.
Qed.

Lemma clean_enc c r : enc c r -> clean c [r].
Proof.
  intros He. rewrite <- (app_nil_r c). constructor.
  - apply (enc_nonempty _ _ He).
  - rewrite <- (app_nil_r c) at 1. apply Decode_enc. exact He.
  - apply (enc_not_invalid _ _ He).
  - constructor.
Qed.

Lemma clean_app b1 rs1 b2 rs2 :
  clean b1 rs1 -> clean b2 rs2 -> clean (b1 ++ b2) (rs1 ++ rs2).
Proof.
  intros H1 H2. induction H1; [exact H2|].
  rewrite <- app_assoc. cbn [app]. constructor; auto.
Qed.

Lemma clean_snoc_inv b xs r :
  clean b (xs ++ [r]) ->
  exists b' c, b = b' ++ c /\ clean b' xs /\ enc c r.
Proof.
  revert b. induction xs as [|x xs IH]; intros b H.
  - inversion H as [|c s r0 rs Hc Hd Hv Hs Eb Er]; subst.
    inversion Hs; subst.
    exists [], c. rewrite app_nil_r. split; [reflexivity|]. split; [constructor|].
    exact (enc_clean _ _ Hc Hd Hv).
  - cbn [app] in H. inversion H as [|c s r0 rs Hc Hd Hv Hs Eb Er]; subst.
    destruct (IH _ Hs) as (b' & c' & -> & Hb' & He).
    exists (c ++ b'), c'. rewrite app_assoc. split; [reflexivity|]. split; [|exact He].
    constructor; assumption.
Qed.

Lemma clean_runes b rs : clean b rs -> map fst (runes b) = rs.
Proof.
  induction 1; [reflexivity|].
  rewrite (runes_enc_app c r s) by (apply enc_clean; assumption).
  cbn [map fst]. rewrite IHclean. reflexivity.
Qed.

Lemma clean_RuneCount b rs : clean b rs -> RuneCountInString b = len rs.
Proof.
  intros H. unfold RuneCountInString, len. rewrite <- (clean_runes _ _ H).
  rewrite length_map. reflexivity.
Qed.

Lemma clean_ValidString b rs t : clean b rs -> ValidString (b ++ t) = ValidString t.
Proof.
  induction 1; [reflexivity|].
  rewrite <- app_assoc. rewrite (ValidString_enc_app c r) by (apply enc_clean; assumption).
  assumption.
Qed.

End Utf8Facts.

(** ** The operations as equations *)

Lemma slice_ok s lo hi :
  0 <= lo -> lo <= hi -> hi <= len s ->
  slice s lo hi = Some (firstn (Z.to_nat (hi - lo)) (skipn (Z.to_nat lo) s)).
Proof.
  intros H1 H2 H3. unfold slice.
  destruct (Z.leb_spec 0 lo), (Z.leb_spec lo hi), (Z.leb_spec hi (len s));
    try lia. reflexivity.
Qed.

Lemma slice_panics s lo hi :
  ~ (0 <= lo /\ lo <= hi /\ hi <= len s) -> slice s lo hi = None.
Proof.
  intros H. unfold slice.
  destruct (Z.leb_spec 0 lo), (Z.leb_spec lo hi), (Z.leb_spec hi (len s));
    try reflexivity. lia.
Qed.

Lemma slice_rest (s : gostring) p :
  0 <= p -> p <= len s -> slice s p (len s) = Some (skipn (Z.to_nat p) s).
Proof.
  intros H1 H2. rewrite slice_ok by lia. f_equal.
  apply firstn_all2. rewrite length_skipn. unfold len in *. lia.
Qed.

Lemma len_skipn (s : gostring) (p : Z) : 0 <= p <= len s -> len (skipn (Z.to_nat p) s) = len s - p.
Proof. intros H. unfold len in *. rewrite (length_skipn (A := Byte.byte)). lia. Qed.

Section OpEquations.

Context {State any : Type}.
Variable Sprintf : gostring -> list any -> gostring.
Implicit Types l : Lexer State.

Lemma bind_Ok {A B} (m : M State A) (k : A -> M State B) l a l' :
  m l = Ok (a, l') -> bind m k l = k a l'.
Proof. intros H. unfold bind. rewrite H. reflexivity. Qed.

Lemma Current_eq l :
  Current l = match span l with Some v => Ok (v, l) | None => Panic end.
Proof.
  unfold Current, span, bind, get, slicing. destruct (slice _ _ _); reflexivity.
Qed.

Lemma Next_eq l :
  0 <= position l <= len (source l) ->
  Next l = Ok (fst (reading l), after_Next l).
Proof.
  intros H. unfold Next, bind, get, slicing.
  rewrite slice_rest by lia. unfold ret at 1.
  fold (rest l). unfold after_Next, reading.
  destruct (if len (rest l) =? 0 then _ else _) as [r s]. reflexivity.
Qed.

Lemma Next_panics l :
  ~ (0 <= position l <= len (source l)) -> Next l = Panic.
Proof.
  intros H. unfold Next, bind, get, slicing.
  rewrite slice_panics by lia. reflexivity.
Qed.

Lemma Backup_eq l :
  Backup l = Ok (tt, after_Backup l).
Proof.
  unfold Backup, after_Backup, bind, get, backed. destruct (pop (history l)) as [r h].
  cbn [fst snd]. unfold modify at 1. cbn.
  destruct (r >? EOFRune); [|reflexivity].
  cbn. destruct (_ <? _); reflexivity.
Qed.

Lemma send_eq tok l :
  send tok l = lift_outcome (chan_send tok (tokens l))
                            (fun c => Ok (tt, set_tokens c l)).
Proof.
  unfold send, on_tokens, lift_outcome.
  destruct (chan_send tok (tokens l)); reflexivity.
Qed.

Lemma chan_send_ok tok c :
  ch_state c = ChOpen -> len (ch_buf c) < ch_cap c ->
  chan_send tok c = Ok (mkChan ChOpen (ch_cap c) (ch_buf c ++ [tok])).
Proof.
  intros Hs Hc. unfold chan_send. rewrite Hs.
  destruct (Z.ltb_spec (len (ch_buf c)) (ch_cap c)); [reflexivity|lia].
Qed.

Lemma chan_send_Ok_inv tok c c' :
  chan_send tok c = Ok c' ->
  ch_state c = ChOpen /\ len (ch_buf c) < ch_cap c /\
  c' = mkChan ChOpen (ch_cap c) (ch_buf c ++ [tok]).
Proof.
  unfold chan_send. destruct (ch_state c); try discriminate.
  destruct (Z.ltb_spec (len (ch_buf c)) (ch_cap c)); [|discriminate].
  intros E; inversion E. auto.
Qed.

Lemma chan_send_not_Timeout tok c : chan_send tok c <> Timeout.
Proof.
  unfold chan_send. destruct (ch_state c); try discriminate.
  destruct (_ <? _); discriminate.
Qed.

Lemma checkLines_eq l :
  checkLines l =
  match span l with
  | Some val => Ok (tt, set_line (line l + bytes.CountByte val lineSep) l)
  | None => Panic
  end.
Proof.
  unfold checkLines, bind. rewrite Current_eq. destruct (span l); reflexivity.
Qed.

Lemma Emit_eq t l :
  Emit t l =
  match span l with
  | Some val =>
    lift_outcome
      (chan_send (mkToken t val (position l) (line l)) (tokens l))
      (fun c => Ok (tt, after_boundary val (set_tokens c l)))
  | None => Panic
  end.
Proof.
  unfold Emit. unfold bind at 1. rewrite Current_eq.
  destruct (span l) as [val|] eqn:E; [|reflexivity].
  unfold bind at 1, get at 1. unfold bind at 1. rewrite send_eq.
  destruct (chan_send _ _) as [c| | |]; cbn [lift_outcome]; try reflexivity.
  unfold bind at 1. rewrite checkLines_eq.
  unfold span in *. cbn [source start position set_tokens]. rewrite E.
  reflexivity.
Qed.

Lemma Ignore_eq l :
  Ignore l =
  match span l with
  | Some val =>
    Ok (tt, after_boundary val l)
  | None => Panic
  end.
Proof.
  unfold Ignore. unfold bind at 1, modify at 1. unfold bind at 1.
  rewrite checkLines_eq. unfold span. cbn [source start position set_history].
  destruct (slice _ _ _); reflexivity.
Qed.

Lemma Error_eq format args l :
  Error Sprintf format args l =
  lift_outcome
    (chan_send (mkToken ErrorToken (Sprintf format args) (position l) (line l))
               (tokens l))
    (fun c => Ok (None, set_tokens c l)).
Proof.
  unfold Error. unfold bind at 1, get at 1. unfold bind at 1. rewrite send_eq.
  destruct (chan_send _ _); reflexivity.
Qed.

Lemma Peek_eq l :
  0 <= position l <= len (source l) ->
  Peek l = Ok (fst (reading l), after_Backup (after_Next l)).
Proof.
  intros H. unfold Peek. rewrite (bind_Ok _ _ _ _ _ (Next_eq l H)).
  unfold bind. rewrite Backup_eq. reflexivity.
Qed.

Lemma chan_close_Ok_inv c c' :
  chan_close c = Ok c' -> c' = mkChan ChClosed (ch_cap c) (ch_buf c).
Proof.
  unfold chan_close. destruct (ch_state c); try discriminate.
  intros H; inversion H. reflexivity.
Qed.

Lemma NextToken_eq l :
  NextToken l =
  match ch_buf (tokens l) with
  | t :: rest =>
    Ok ((Some t, false),
        set_tokens (mkChan (ch_state (tokens l)) (ch_cap (tokens l)) rest) l)
  | [] =>
    match ch_state (tokens l) with
    | ChClosed => Ok ((None, true), l)
    | _ => Blocked
    end
  end.
Proof.
  unfold NextToken, on_tokens, chan_recv.
  destruct (ch_buf (tokens l)); [|reflexivity].
  destruct (ch_state (tokens l)); try reflexivity.
  destruct l as [? ? ? ? ? ? [? ? ?] ?]; reflexivity.
Qed.

End OpEquations.

(** ** Steps and invariants *)

Lemma CountByte_nonneg s c : 0 <= bytes.CountByte s c.
Proof. induction s as [|b s IH]; cbn [bytes.CountByte]; [lia|]. destruct (Byte.eqb b c); lia. Qed.

Lemma IndexRune_EOFRune valid : strings.IndexRune valid EOFRune = -1.
Proof. reflexivity. Qed.

Lemma IsSpace_EOFRune : unicode.IsSpace EOFRune = false.
Proof. reflexivity. Qed.

Lemma ValidRune_not_EOF r : utf8.ValidRune r = true -> (r >? EOFRune) = true.
Proof.
  unfold utf8.ValidRune, EOFRune, utf8.surrogateMax. intros H.
  apply Z.gtb_lt. revert H. case_cmp; cbn; intros; try discriminate; lia.
Qed.

Ltac fields :=
  cbn [source start line position lastWidth startState tokens history
       set_start set_line set_position set_tokens set_history
       ch_state ch_cap ch_buf push pop clear fst snd] in *.

Section Steps.

Context {State : Type}.
Implicit Types l : Lexer State.

(** What [Next] reads is the end sentinel at the end of the source and a
    rune with its width before it. *)
Lemma reading_cases l :
  0 <= position l <= len (source l) ->
  (position l = len (source l) /\ reading l = (EOFRune, 0)) \/
  (position l < len (source l) /\
   reading l = utf8.DecodeRuneInString (rest l) /\ rest l <> [] /\
   utf8.ValidRune (fst (reading l)) = true /\
   1 <= snd (reading l) <= 4 /\
   position l + snd (reading l) <= len (source l)).
Proof.
  intros H. unfold reading.
  assert (len (rest l) = len (source l) - position l) as Hr
      by (apply len_skipn; lia).
  destruct (Z.eqb_spec (len (rest l)) 0) as [E|E]; [left; split; [lia|reflexivity]|].
  right. split; [lia|]. split; [reflexivity|].
  assert (rest l <> []) as Hne by (intros E0; rewrite E0 in E; apply E; reflexivity).
  split; [exact Hne|]. split; [apply Decode_ValidRune|].
  destruct (utf8.DecodeRuneInString (rest l)) as [r w] eqn:D.
  destruct (Decode_width _ _ _ Hne D). cbn [snd]. lia.
Qed.

Lemma inv_move l l' : inv l -> move l l' -> inv l'.
Proof.
  intros [(H0 & H1 & H2 & H3) Hh] Hm. destruct Hm as [l Hp|l].
  - destruct (reading_cases l Hp) as [[Hp' E]|(Hp' & E & Hne & Hv & Hw & Hl)].
    + unfold after_Next, inv, cursor_inv. rewrite E. cbn.
      split; [lia|]. constructor; [left; reflexivity|assumption].
    + unfold after_Next, inv, cursor_inv. cbn.
      split; [lia|]. constructor; [right; assumption|assumption].
  - unfold after_Backup, inv, cursor_inv. cbn.
    destruct (history l) as [|r h]; cbn.
    + unfold backed. cbn. split; [lia|constructor].
    + inversion Hh as [|? ? Hr Hh']; subst. split; [|assumption].
      unfold backed. destruct (Z.gtb_spec r EOFRune) as [Hg|Hg]; [|lia].
      destruct Hr as [->|Hr]; [unfold EOFRune in Hg; lia|].
      pose proof (ValidRune_RuneLen _ Hr).
      destruct (Z.ltb_spec (position l - utf8.RuneLen r) (start l)); lia.
Qed.

Lemma span_Some l val : span l = Some val -> 0 <= start l <= position l /\ position l <= len (source l).
Proof.
  unfold span, slice.
  destruct (Z.leb_spec 0 (start l)), (Z.leb_spec (start l) (position l)),
    (Z.leb_spec (position l) (len (source l))); cbn; try discriminate. lia.
Qed.

Lemma inv_span l : inv l -> exists val, span l = Some val.
Proof.
  intros [(H0 & H1 & H2 & H3) _]. eexists. unfold span. apply slice_ok; lia.
Qed.

Lemma inv_prim l l' : inv l -> prim l l' -> inv l'.
Proof.
  intros Hi Hp. destruct Hp as [l l' Hm|l val Hs|l tok c Hc].
  - eapply inv_move; eassumption.
  - destruct Hi as [(H0 & H1 & H2 & H3) Hh].
    pose proof (CountByte_nonneg val lineSep).
    unfold after_boundary, inv, cursor_inv. fields. split; [lia|constructor].
  - exact Hi.
Qed.

Lemma inv_steps l l' : inv l -> steps l l' -> inv l'.
Proof. intros Hi Hs. induction Hs; [assumption|]. eauto using inv_prim. Qed.

Lemma moves_steps l l' : moves l l' -> steps l l'.
Proof. induction 1; [constructor|]. econstructor; [apply prim_move|]; eassumption. Qed.

Lemma steps_trans l1 l2 l3 : steps l1 l2 -> steps l2 l3 -> steps l1 l3.
Proof. induction 1; [auto|]. intros. econstructor; eauto. Qed.

Lemma moves_trans l1 l2 l3 : moves l1 l2 -> moves l2 l3 -> moves l1 l3.
Proof. induction 1; [auto|]. intros. econstructor; eauto. Qed.

Lemma moves_one l l' : move l l' -> moves l l'.
Proof. intros. econstructor; [eassumption|constructor]. Qed.

Lemma steps_one l l' : prim l l' -> steps l l'.
Proof. intros. econstructor; [eassumption|constructor]. Qed.

(** A [Next] or a [Backup] changes the position and the history only. *)
Lemma move_frame l l' :
  move l l' ->
  source l' = source l /\ start l' = start l /\ line l' = line l /\
  tokens l' = tokens l /\ startState l' = startState l.
Proof. destruct 1; cbn; auto. Qed.

Lemma moves_frame l l' :
  moves l l' ->
  source l' = source l /\ start l' = start l /\ line l' = line l /\
  tokens l' = tokens l /\ startState l' = startState l.
Proof.
  induction 1 as [|l1 l2 l3 Hm _ IH]; [auto|].
  destruct (move_frame _ _ Hm) as (? & ? & ? & ? & ?).
  destruct IH as (? & ? & ? & ? & ?). repeat split; congruence.
Qed.

Lemma prim_source l l' : prim l l' -> source l' = source l.
Proof. destruct 1 as [l l' Hm| |]; [apply (move_frame _ _ Hm)|reflexivity|reflexivity]. Qed.

Lemma steps_source l l' : steps l l' -> source l' = source l.
Proof. induction 1 as [|l1 l2 l3 Hp _ IH]; [reflexivity|]. rewrite IH. apply (prim_source _ _ Hp). Qed.

Lemma prim_ch_state l l' :
  prim l l' -> ch_state (tokens l') = ch_state (tokens l).
Proof.
  destruct 1 as [l l' Hm| |l tok c Hc];
    [destruct (move_frame _ _ Hm) as (_ & _ & _ & -> & _); reflexivity|reflexivity|].
  destruct (chan_send_Ok_inv _ _ _ Hc) as (Hs & _ & ->). fields. congruence.
Qed.

Lemma steps_ch_state l l' :
  steps l l' -> ch_state (tokens l') = ch_state (tokens l).
Proof.
  induction 1 as [|l1 l2 l3 Hp _ IH]; [reflexivity|].
  rewrite IH. apply (prim_ch_state _ _ Hp).
Qed.

Lemma inv_position l : inv l -> 0 <= position l <= len (source l).
Proof. intros [(? & ? & ? & ?) _]. lia. Qed.

(** A rune that is read, other than the end sentinel, moves the position
    forward. *)
Lemma Next_progress l :
  inv l -> fst (reading l) <> EOFRune ->
  remaining (after_Next l) < remaining l.
Proof.
  intros Hi Hr. destruct (reading_cases l (inv_position l Hi))
    as [[_ E]|(_ & _ & _ & _ & Hw & _)].
  - rewrite E in Hr. contradiction.
  - unfold remaining, after_Next. fields. lia.
Qed.

Lemma inv_remaining l : inv l -> 0 <= remaining l.
Proof. intros Hi. pose proof (inv_position l Hi). unfold remaining. lia. Qed.

Lemma Next_Ok l :
  inv l -> Next l = Ok (fst (reading l), after_Next l) /\
           move l (after_Next l) /\ inv (after_Next l).
Proof.
  intros Hi. pose proof (inv_position l Hi) as Hp.
  split; [apply Next_eq; exact Hp|].
  assert (move l (after_Next l)) as Hm by (constructor; exact Hp).
  split; [exact Hm|]. eapply inv_move; eassumption.
Qed.

Lemma Accept_moves valid l :
  inv l -> exists b l', Accept valid l = Ok (b, l') /\ moves l l'.
Proof.
  intros Hi. destruct (Next_Ok l Hi) as (E & Hm & Hi').
  unfold Accept. rewrite (bind_Ok _ _ _ _ _ E).
  destruct (_ >=? 0).
  - eexists _, _. split; [reflexivity|]. apply moves_one. exact Hm.
  - unfold bind. rewrite Backup_eq. eexists _, _. split; [reflexivity|].
    econstructor; [exact Hm|]. apply moves_one. constructor.
Qed.

Lemma Peek_moves l :
  inv l -> exists r l', Peek l = Ok (r, l') /\ moves l l'.
Proof.
  intros Hi. rewrite Peek_eq by (apply inv_position; exact Hi).
  eexists _, _. split; [reflexivity|].
  econstructor; [constructor; apply inv_position; exact Hi|].
  apply moves_one. constructor.
Qed.

Lemma AcceptRun_loop_moves fuel : forall valid n l,
  inv l -> remaining l < Z.of_nat fuel ->
  exists n' l', AcceptRun_loop fuel valid n l = Ok (n', l') /\ moves l l'.
Proof.
  induction fuel as [|fuel IH]; intros valid n l Hi Hf.
  - pose proof (inv_remaining l Hi). lia.
  - destruct (Next_Ok l Hi) as (E & Hm & Hi').
    cbn [AcceptRun_loop]. rewrite (bind_Ok _ _ _ _ _ E).
    destruct (Z.geb_spec (strings.IndexRune valid (fst (reading l))) 0) as [Hg|Hg].
    + assert (fst (reading l) <> EOFRune) as Hr.
      { intros E0. rewrite E0, IndexRune_EOFRune in Hg. lia. }
      pose proof (Next_progress l Hi Hr).
      destruct (IH valid (n + 1) (after_Next l) Hi') as (n' & l' & E' & Hm'); [lia|].
      exists n', l'. split; [exact E'|]. econstructor; eassumption.
    + eexists _, _. split; [reflexivity|]. apply moves_one. exact Hm.
Qed.

Lemma loop_fuel_enough l : inv l -> remaining l < Z.of_nat (loop_fuel l).
Proof.
  intros Hi. pose proof (inv_position l Hi). unfold remaining, loop_fuel, len in *. lia.
Qed.

Lemma AcceptRun_moves valid l :
  inv l -> exists n l', AcceptRun valid l = Ok (n, l') /\ moves l l'.
Proof.
  intros Hi. unfold AcceptRun. unfold bind at 1, get at 1.
  destruct (AcceptRun_loop_moves (loop_fuel l) valid 0 l Hi (loop_fuel_enough l Hi))
    as (n & l1 & E & Hm).
  rewrite (bind_Ok _ _ _ _ _ E). unfold bind. rewrite Backup_eq.
  eexists _, _. split; [reflexivity|].
  eapply moves_trans; [exact Hm|]. apply moves_one. constructor.
Qed.

(** [SkipWhitespace] never reaches its call of [Emit]: the end sentinel is
    not a space, so the loop leaves through [Backup]. *)
Lemma SkipWhitespace_loop_moves fuel : forall l,
  inv l -> remaining l < Z.of_nat fuel ->
  exists l', SkipWhitespace_loop fuel l = Ok (tt, l') /\ moves l l'.
Proof.
  induction fuel as [|fuel IH]; intros l Hi Hf.
  - pose proof (inv_remaining l Hi). lia.
  - destruct (Next_Ok l Hi) as (E & Hm & Hi').
    cbn [SkipWhitespace_loop]. rewrite (bind_Ok _ _ _ _ _ E).
    destruct (unicode.IsSpace (fst (reading l))) eqn:Hs; cbn [negb].
    + assert (fst (reading l) <> EOFRune) as Hr.
      { intros E0. rewrite E0, IsSpace_EOFRune in Hs. discriminate. }
      destruct (Z.eqb_spec (fst (reading l)) EOFRune) as [?|_]; [contradiction|].
      pose proof (Next_progress l Hi Hr).
      destruct (IH (after_Next l) Hi') as (l' & E' & Hm'); [lia|].
      exists l'. split; [exact E'|]. econstructor; eassumption.
    + rewrite Backup_eq. eexists. split; [reflexivity|].
      econstructor; [exact Hm|]. apply moves_one. constructor.
Qed.

Lemma SkipWhitespace_moves l :
  inv l -> exists l', SkipWhitespace l = Ok (tt, l') /\ moves l l'.
Proof.
  intros Hi. unfold SkipWhitespace. unfold bind, get.
  apply SkipWhitespace_loop_moves; [exact Hi|apply loop_fuel_enough; exact Hi].
Qed.

End Steps.

(** ** The outcome of a sequence of operations *)

Section Outcomes.

Context {State any : Type}.
Variable Sprintf : gostring -> list any -> gostring.
Implicit Types l : Lexer State.

Lemma chan_send_stepwise tok l :
  match chan_send tok (tokens l) with
  | Ok c => prim l (set_tokens c l)
  | Blocked => True
  | Panic => ch_state (tokens l) = ChClosed
  | Timeout => False
  end.
Proof.
  destruct (chan_send tok (tokens l)) as [c| | |] eqn:E.
  - eapply prim_send. exact E.
  - unfold chan_send in E. destruct (ch_state (tokens l)); try discriminate; [|reflexivity].
    destruct (_ <? _); discriminate.
  - exact I.
  - exact (chan_send_not_Timeout _ _ E).
Qed.

Lemma Emit_stepwise t l : inv l -> stepwise l (Emit t l).
Proof.
  intros Hi. rewrite Emit_eq. destruct (inv_span l Hi) as [val Hv]. rewrite Hv.
  pose proof (chan_send_stepwise (mkToken t val (position l) (line l)) l) as Hc.
  destruct (chan_send _ _) as [c| | |]; cbn [lift_outcome stepwise]; try assumption.
  econstructor; [exact Hc|]. apply steps_one. apply prim_boundary. exact Hv.
Qed.

Lemma Ignore_stepwise l : inv l -> stepwise l (Ignore l).
Proof.
  intros Hi. rewrite Ignore_eq. destruct (inv_span l Hi) as [val Hv]. rewrite Hv.
  cbn [stepwise]. apply steps_one. apply prim_boundary. exact Hv.
Qed.

Lemma Error_stepwise format args l : stepwise l (Error Sprintf format args l).
Proof.
  rewrite Error_eq.
  pose proof (chan_send_stepwise
                (mkToken ErrorToken (Sprintf format args) (position l) (line l)) l) as Hc.
  destruct (chan_send _ _) as [c| | |]; cbn [lift_outcome stepwise]; try assumption.
  apply steps_one. exact Hc.
Qed.

Lemma stepwise_drop {A} (m : M State A) l :
  stepwise l (m l) -> stepwise l ((m ;;; ret tt) l).
Proof.
  unfold bind. destruct (m l) as [[a l']| | |]; cbn; auto.
Qed.

Lemma moves_stepwise {A} (m : M State A) l :
  (exists a l', m l = Ok (a, l') /\ moves l l') -> stepwise l (m l).
Proof. intros (a & l' & -> & Hm). cbn. apply moves_steps. exact Hm. Qed.

Lemma exec_stepwise o l : inv l -> stepwise l (exec Sprintf o l).
Proof.
  intros Hi. destruct o; cbn [exec].
  - apply stepwise_drop, moves_stepwise. destruct (Next_Ok l Hi) as (E & Hm & _).
    eexists _, _. split; [exact E|apply moves_one; exact Hm].
  - apply moves_stepwise. rewrite Backup_eq. eexists _, _. split; [reflexivity|].
    apply moves_one. constructor.
  - apply stepwise_drop, moves_stepwise, Peek_moves, Hi.
  - apply stepwise_drop, moves_stepwise, Accept_moves, Hi.
  - apply stepwise_drop, moves_stepwise, AcceptRun_moves, Hi.
  - apply moves_stepwise. destruct (SkipWhitespace_moves l Hi) as (l' & E & Hm).
    eexists _, _. eauto.
  - apply Emit_stepwise, Hi.
  - apply Ignore_stepwise, Hi.
  - apply stepwise_drop, Error_stepwise.
Qed.

Lemma stepwise_bind {A B} (m : M State A) (k : A -> M State B) l :
  inv l -> stepwise l (m l) ->
  (forall a l', inv l' -> stepwise l' (k a l')) ->
  stepwise l (bind m k l).
Proof.
  intros Hi Hm Hk. unfold bind. destruct (m l) as [[a l1]| | |]; cbn in *; auto.
  pose proof (inv_steps _ _ Hi Hm) as Hi1. specialize (Hk a l1 Hi1).
  destruct (k a l1) as [[b l2]| | |]; cbn in *; auto.
  - eapply steps_trans; eassumption.
  - rewrite <- (steps_ch_state _ _ Hm). exact Hk.
Qed.

Lemma exec_all_stepwise os : forall l, inv l -> stepwise l (exec_all Sprintf os l).
Proof.
  induction os as [|o os IH]; intros l Hi; cbn [exec_all].
  - cbn. constructor.
  - apply stepwise_bind; [exact Hi|apply exec_stepwise; exact Hi|].
    intros _ l' Hi'. apply IH. exact Hi'.
Qed.

(** Every operation that returns keeps the invariant. *)
Lemma exec_keeps_inv o l l' :
  inv l -> exec Sprintf o l = Ok (tt, l') -> inv l'.
Proof.
  intros Hi E. pose proof (exec_stepwise o l Hi) as Hs. rewrite E in Hs.
  apply (inv_steps _ _ Hi Hs).
Qed.

(** A property that the steps keep is kept by every sequence of
    operations. *)
Lemma steps_invariant (P : Lexer State -> Prop) :
  (forall l l', inv l -> P l -> prim l l' -> P l') ->
  forall l l', inv l -> P l -> steps l l' -> P l'.
Proof.
  intros HP l l' Hi Hp Hs. induction Hs as [|l1 l2 l3 Hprim _ IH]; [exact Hp|].
  apply IH; [eapply inv_prim; eassumption|eapply HP; eassumption].
Qed.

Lemma exec_all_invariant (P : Lexer State -> Prop) :
  (forall l l', inv l -> P l -> prim l l' -> P l') ->
  forall os l l', inv l -> P l -> exec_all Sprintf os l = Ok (tt, l') -> P l'.
Proof.
  intros HP os l l' Hi Hp E. pose proof (exec_all_stepwise os l Hi) as Hs.
  rewrite E in Hs. cbn in Hs. eapply steps_invariant; eassumption.
Qed.

Lemma inv_New src st : inv (New (State := State) src st).
Proof.
  unfold New, inv, cursor_inv. cbn. pose proof (len_nonneg src).
  split; [lia|constructor].
Qed.

End Outcomes.

(** ** Sources that are valid UTF-8 *)

Lemma skipn_app_len {A} (a t : list A) (n : Z) :
  n = len a -> skipn (Z.to_nat n) (a ++ t) = t.
Proof. intros ->. apply skipn_len_app. Qed.

Lemma firstn_app_len {A} (a t : list A) (n : Z) :
  n = len a -> firstn (Z.to_nat n) (a ++ t) = a.
Proof. intros ->. apply firstn_len_app. Qed.

Lemma read_runes_EOF h : read_runes (EOFRune :: h) = read_runes h.
Proof. reflexivity. Qed.

Lemma read_runes_rune r h :
  (r >? EOFRune) = true -> read_runes (r :: h) = r :: read_runes h.
Proof. intros H. unfold read_runes. cbn [filter]. rewrite H. reflexivity. Qed.

Lemma read_runes_not r h :
  (r >? EOFRune) = false -> read_runes (r :: h) = read_runes h.
Proof. intros H. unfold read_runes. cbn [filter]. rewrite H. reflexivity. Qed.

Section Utf8Inv.

Context {State : Type}.
Implicit Types l : Lexer State.

Lemma rest_split l (a b c : gostring) :
  source l = a ++ b ++ c -> len a + len b = position l -> rest l = c.
Proof.
  intros Hs Hp. unfold rest. rewrite Hs, app_assoc.
  apply skipn_app_len. rewrite len_app. lia.
Qed.

Lemma span_split l (a b c : gostring) :
  source l = a ++ b ++ c -> len a = start l -> len a + len b = position l ->
  span l = Some b.
Proof.
  intros Hs Ha Hp. unfold span. pose proof (len_nonneg a). pose proof (len_nonneg b).
  pose proof (len_nonneg c).
  rewrite slice_ok; [|lia|lia|rewrite Hs, !len_app; lia].
  rewrite Hs. apply f_equal. rewrite (skipn_app_len a) by lia.
  apply firstn_app_len. lia.
Qed.

Lemma utf8_inv_prim l l' : utf8_inv l -> prim l l' -> utf8_inv l'.
Proof.
  intros [Hi (a & b & c & Hs & Ha & Hp & Hc & Hv)] Hprim.
  split; [eapply inv_prim; eassumption|].
  destruct Hprim as [l l' Hm|l val Hval|l tok ch Hch].
  - destruct Hm as [l Hpos|l].
    + pose proof (rest_split l a b c Hs Hp) as Hr.
      unfold after_Next, reading. rewrite Hr. fields.
      destruct c as [|c0 c]; cbn [len length Z.of_nat Z.eqb].
      * exists a, b, []. rewrite read_runes_EOF. fields.
        repeat split; try assumption; lia.
      * destruct (ValidString_step (c0 :: c) Hv) as (c1 & c' & r & Ec & He & Hv');
          [discriminate|].
        rewrite Ec. rewrite (Decode_enc _ _ He).
        replace (len (c1 ++ c') =? 0) with false.
        2:{ symmetry. apply Z.eqb_neq. rewrite len_app.
            pose proof (enc_len _ _ He). pose proof (len_nonneg c'). lia. }
        fields. exists a, (b ++ c1), c'.
        rewrite read_runes_rune
          by (apply ValidRune_not_EOF; apply (enc_RuneLen _ _ He)).
        cbn [rev]. rewrite len_app.
        repeat split; try assumption; try lia.
        -- rewrite Hs, Ec, <- !app_assoc. reflexivity.
        -- apply clean_app; [assumption|apply clean_enc; assumption].
    + unfold after_Backup. fields.
      destruct (history l) as [|r h] eqn:Eh; fields.
      * exists a, b, c. unfold backed. cbn.
        repeat split; assumption.
      * unfold backed. fields.
        destruct (r >? EOFRune) eqn:Hr.
        -- rewrite read_runes_rune in Hc by assumption. cbn [rev] in Hc.
           destruct (clean_snoc_inv _ _ _ Hc) as (b' & c1 & -> & Hb' & He).
           destruct (enc_RuneLen _ _ He) as [Hl _].
           rewrite len_app in Hp. pose proof (len_nonneg b').
           destruct (Z.ltb_spec (position l - utf8.RuneLen r) (start l)); [lia|].
           exists a, b', (c1 ++ c).
           repeat split; try assumption; try lia.
           ++ rewrite Hs, <- !app_assoc. reflexivity.
           ++ rewrite (ValidString_enc_app _ _ _ He). assumption.
        -- rewrite read_runes_not in Hc by assumption.
           exists a, b, c. repeat split; assumption.
  - unfold after_boundary. fields. exists (a ++ b), [], c.
    rewrite len_app, len_nil.
    repeat split; try lia.
    + rewrite Hs, <- app_assoc. reflexivity.
    + constructor.
    + assumption.
  - fields. exists a, b, c. repeat split; assumption.
Qed.

Lemma utf8_inv_New src st :
  utf8.ValidString src = true -> utf8_inv (New (State := State) src st).
Proof.
  intros Hv. split; [apply inv_New|]. exists [], [], src. cbn.
  repeat split; try assumption. constructor.
Qed.

(** On a source that is valid UTF-8 the runes of the history are the runes
    of the pending span. *)
Lemma utf8_inv_span l :
  utf8_inv l ->
  exists val, span l = Some val /\
              map fst (utf8.runes val) = rev (read_runes (history l)).
Proof.
  intros [_ (a & b & c & Hs & Ha & Hp & Hc & _)]. exists b.
  split; [eapply span_split; eassumption|apply clean_runes; assumption].
Qed.

End Utf8Inv.

(** ** Backing up on a source that is valid UTF-8 *)

Section WellFormed.

Context {State : Type}.
Implicit Types l : Lexer State.

Lemma lexer_eta l :
  mkLexer (source l) (start l) (line l) (position l) (lastWidth l)
          (startState l) (tokens l) (history l) = l.
Proof. destruct l; reflexivity. Qed.

Lemma utf8_inv_inv l : utf8_inv l -> inv l.
Proof. intros [H _]. exact H. Qed.

(** What [Next] reads on a source that is valid UTF-8: the end sentinel, or
    a rune whose width is the one that [RuneLen] gives. *)
Lemma utf8_inv_reading l :
  utf8_inv l ->
  reading l = (EOFRune, 0) \/
  ((fst (reading l) >? EOFRune) = true /\
   utf8.RuneLen (fst (reading l)) = snd (reading l) /\
   1 <= snd (reading l)).
Proof.
  intros [Hi (a & b & c & Hs & Ha & Hp & Hc & Hv)].
  pose proof (rest_split l a b c Hs Hp) as Hr.
  unfold reading. rewrite Hr.
  destruct c as [|c0 c]; [left; reflexivity|right].
  destruct (ValidString_step (c0 :: c) Hv) as (c1 & c' & r & Ec & He & _);
    [discriminate|].
  rewrite Ec. rewrite (Decode_enc _ _ He).
  replace (len (c1 ++ c') =? 0) with false.
  2:{ symmetry. apply Z.eqb_neq. rewrite len_app.
      pose proof (enc_len _ _ He). pose proof (len_nonneg c'). lia. }
  cbn [fst snd]. destruct (enc_RuneLen _ _ He) as [Hl Hval].
  pose proof (enc_len _ _ He).
  split; [apply ValidRune_not_EOF; exact Hval|]. split; [exact Hl|lia].
Qed.

(** On a source that is valid UTF-8 a [Backup] undoes the [Next] before
    it. *)
Lemma Backup_undoes_Next l :
  utf8_inv l -> after_Backup (after_Next l) = l.
Proof.
  intros Hu. pose proof (utf8_inv_inv l Hu) as [(H0 & H1 & H2 & H3) _].
  unfold after_Backup, after_Next, backed. fields.
  destruct (utf8_inv_reading l Hu) as [E|(Hg & Hl & Hw)].
  - rewrite E. fields. change (EOFRune >? EOFRune) with false. cbv iota.
    rewrite Z.add_0_r. apply lexer_eta.
  - rewrite Hg, Hl.
    replace (position l + snd (reading l) - snd (reading l)) with (position l) by lia.
    destruct (Z.ltb_spec (position l) (start l)); [lia|]. apply lexer_eta.
Qed.

Lemma Next_n_eq n : forall l,
  utf8_inv l ->
  Next_n n l = Ok (tt, Nat.iter n after_Next l) /\
  utf8_inv (Nat.iter n after_Next l).
Proof.
  induction n as [|n IH]; intros l Hu; [split; [reflexivity|exact Hu]|].
  pose proof (inv_position l (utf8_inv_inv l Hu)) as Hp.
  assert (utf8_inv (after_Next l)) as Hu'.
  { apply (utf8_inv_prim l); [exact Hu|]. apply prim_move. constructor. exact Hp. }
  destruct (IH _ Hu') as [E Hu''].
  cbn [Next_n]. rewrite (bind_Ok _ _ _ _ _ (Next_eq l Hp)).
  rewrite Nat.iter_succ_r. split; assumption.
Qed.

Lemma Backup_n_eq n : forall l, Backup_n n l = Ok (tt, Nat.iter n after_Backup l).
Proof.
  induction n as [|n IH]; intros l; [reflexivity|].
  cbn [Backup_n]. unfold bind at 1. rewrite Backup_eq, IH.
  rewrite Nat.iter_succ_r. reflexivity.
Qed.

(** On a source that is valid UTF-8, [n] calls of [Next] followed by [n]
    calls of [Backup] return the lexer to the state it was in. *)
Lemma Next_Backup_round_trip n : forall l,
  utf8_inv l ->
  exists l1, Next_n n l = Ok (tt, l1) /\ Backup_n n l1 = Ok (tt, l).
Proof.
  intros l Hu. destruct (Next_n_eq n l Hu) as [E _].
  eexists. split; [exact E|]. rewrite Backup_n_eq. do 2 f_equal.
  revert l Hu E. induction n as [|n IH]; intros l Hu E; [reflexivity|].
  rewrite Nat.iter_succ_r.
  change (Nat.iter (S n) after_Next l) with (after_Next (Nat.iter n after_Next l)).
  destruct (Next_n_eq n l Hu) as [En Hun].
  rewrite (Backup_undoes_Next _ Hun). exact (IH l Hu En).
Qed.

Lemma rest_at l (a0 t : gostring) :
  source l = a0 ++ t -> len a0 = position l -> rest l = t.
Proof.
  intros Hs Hp. unfold rest. rewrite Hs. apply skipn_app_len. lia.
Qed.

(** The loop of [AcceptRun] on a source that is valid UTF-8: the runes
    [rs] that follow the position are in the set and what comes after
    them is the end of the source or a rune that is not. *)
Lemma AcceptRun_loop_run valid pre rs :
  clean pre rs ->
  Forall (fun r => strings.IndexRune valid r >= 0) rs ->
  forall post fuel n l a0,
    utf8_inv l ->
    source l = a0 ++ pre ++ post -> len a0 = position l ->
    post = [] \/ strings.IndexRune valid (fst (utf8.DecodeRuneInString post)) < 0 ->
    remaining l < Z.of_nat fuel ->
    let l1 := Nat.iter (length rs) after_Next l in
    AcceptRun_loop fuel valid n l = Ok (n + len rs, after_Next l1) /\
    utf8_inv l1 /\ position l1 = position l + len pre.
Proof.
  induction 1 as [|c s r rs Hc Hd Hnv Hcl IH]; intros Hall post fuel n l a0 Hu Hs Hp Hpost Hf.
  - cbn [app] in Hs. cbn [length Nat.iter len Z.of_nat].
    pose proof (utf8_inv_inv l Hu) as Hi.
    destruct fuel as [|fuel]; [pose proof (inv_remaining l Hi); lia|].
    destruct (Next_Ok l Hi) as (E & _ & _).
    cbn [AcceptRun_loop]. rewrite (bind_Ok _ _ _ _ _ E).
    assert (strings.IndexRune valid (fst (reading l)) < 0) as Hm.
    { unfold reading. rewrite (rest_at l a0 post Hs Hp).
      destruct post as [|p0 post]; [reflexivity|].
      destruct Hpost as [?|Hpost]; [discriminate|].
      replace (len (p0 :: post) =? 0) with false; [exact Hpost|].
      symmetry. apply Z.eqb_neq. pose proof (len_pos_cons p0 post). lia. }
    destruct (Z.geb_spec (strings.IndexRune valid (fst (reading l))) 0); [lia|].
    change (Nat.iter 0 after_Next l) with l. rewrite !Z.add_0_r.
    split; [reflexivity|]. split; [exact Hu|reflexivity].
  - inversion Hall as [|? ? Hr Hall']; subst.
    pose proof (utf8_inv_inv l Hu) as Hi.
    pose proof (enc_clean c r Hc Hd Hnv) as He.
    destruct fuel as [|fuel]; [pose proof (inv_remaining l Hi); lia|].
    destruct (Next_Ok l Hi) as (E & Hmv & _).
    cbn [AcceptRun_loop]. rewrite (bind_Ok _ _ _ _ _ E).
    assert (reading l = (r, len c)) as Hrd.
    { unfold reading. rewrite <- app_assoc in Hs.
      rewrite (rest_at l a0 _ Hs Hp).
      replace (len (c ++ s ++ post) =? 0) with false;
        [apply Decode_enc; exact He|].
      symmetry. apply Z.eqb_neq. rewrite len_app.
      pose proof (enc_len _ _ He). pose proof (len_nonneg (s ++ post)). lia. }
    rewrite Hrd. cbn [fst].
    destruct (Z.geb_spec (strings.IndexRune valid r) 0); [|lia].
    assert (utf8_inv (after_Next l)) as Hu'
        by (apply (utf8_inv_prim l); [exact Hu|apply prim_move; exact Hmv]).
    pose proof (enc_len _ _ He) as Hlc.
    destruct (IH Hall' post fuel (n + 1) (after_Next l) (a0 ++ c)) as (E' & Hu'' & Hp').
    + exact Hu'.
    + cbn [after_Next source]. rewrite Hs, <- !app_assoc. reflexivity.
    + unfold after_Next. fields. rewrite Hrd, len_app. cbn [snd]. lia.
    + exact Hpost.
    + unfold remaining, after_Next in *. fields. rewrite Hrd. cbn [snd]. lia.
    + cbn zeta in *. rewrite E'.
      cbn [length]. rewrite Nat.iter_succ_r.
      replace (n + len (r :: rs)) with (n + 1 + len rs) by (rewrite len_cons; lia).
      split; [reflexivity|]. split; [exact Hu''|].
      rewrite Hp'. unfold after_Next. fields. rewrite Hrd, len_app. cbn [snd]. lia.
Qed.

(** On a source that is valid UTF-8 [AcceptRun] consumes the run of runes
    of the set that follows the position, returns their number and leaves
    the position at the first rune that is not in the set. *)
Lemma AcceptRun_maximal_run valid l (a0 pre post : gostring) rs :
  utf8_inv l ->
  source l = a0 ++ pre ++ post -> len a0 = position l ->
  clean pre rs ->
  Forall (fun r => strings.IndexRune valid r >= 0) rs ->
  post = [] \/ strings.IndexRune valid (fst (utf8.DecodeRuneInString post)) < 0 ->
  exists l',
    AcceptRun valid l = Ok (len rs, l') /\
    position l' = position l + len pre /\
    start l' = start l /\ tokens l' = tokens l /\ rest l' = post.
Proof.
  intros Hu Hs Hp Hc Hall Hpost.
  pose proof (utf8_inv_inv l Hu) as Hi.
  destruct (AcceptRun_loop_run valid pre rs Hc Hall post (loop_fuel l) 0 l a0
              Hu Hs Hp Hpost (loop_fuel_enough l Hi)) as (E & Hu1 & Hp1).
  unfold AcceptRun. unfold bind at 1, get at 1.
  rewrite (bind_Ok _ _ _ _ _ E). unfold bind. rewrite Backup_eq.
  rewrite (Backup_undoes_Next _ Hu1).
  assert (moves l (Nat.iter (length rs) after_Next l)) as Hm.
  { clear E Hp1 Hs Hp Hc Hall Hpost. revert Hu1.
    induction (length rs) as [|k IHk]; intros Hk; [constructor|].
    destruct (Next_n_eq k l Hu) as [_ Huk].
    eapply moves_trans; [apply IHk; exact Huk|].
    apply moves_one. cbn [Nat.iter]. constructor.
    apply inv_position, utf8_inv_inv, Huk. }
  destruct (moves_frame _ _ Hm) as (Hsrc & Hst & _ & Htk & _).
  eexists. split; [reflexivity|]. split; [exact Hp1|].
  split; [exact Hst|]. split; [exact Htk|].
  apply (rest_at _ (a0 ++ pre) post).
  - rewrite Hsrc, Hs, app_assoc. reflexivity.
  - rewrite len_app. lia.
Qed.

End WellFormed.

(** ** The producer and the consumer taking turns *)

Section ChannelFree.

Context {State any : Type}.
Variable Sprintf : gostring -> list any -> gostring.
Implicit Types l : Lexer State.

Lemma chan_free_bind {A B} (m : M State A) (k : A -> M State B) :
  chan_free m -> (forall a, chan_free (k a)) -> chan_free (bind m k).
Proof.
  intros Hm Hk c l. unfold bind. rewrite Hm. unfold with_chan.
  destruct (m l) as [[a l1]| | |]; cbn [lift_outcome fst snd]; try reflexivity.
  apply Hk.
Qed.

Lemma chan_free_ret {A} (a : A) : chan_free (ret (State := State) a).
Proof. intros c l. reflexivity. Qed.

Lemma chan_free_Next : chan_free (Next (State := State)).
Proof.
  intros c l.
  destruct (Z.le_gt_cases 0 (position l)) as [H0|H0];
    [destruct (Z.le_gt_cases (position l) (len (source l))) as [H1|H1]|].
  - rewrite !Next_eq by (cbn; lia). reflexivity.
  - rewrite !Next_panics by (cbn; lia). reflexivity.
  - rewrite !Next_panics by (cbn; lia). reflexivity.
Qed.

Lemma chan_free_Backup : chan_free (Backup (State := State)).
Proof. intros c l. rewrite !Backup_eq. reflexivity. Qed.

Lemma chan_free_Ignore : chan_free (Ignore (State := State)).
Proof.
  intros c l. rewrite !Ignore_eq. unfold span. cbn [source start position set_tokens].
  destruct (slice _ _ _); reflexivity.
Qed.

Lemma chan_free_Peek : chan_free (Peek (State := State)).
Proof.
  unfold Peek. apply chan_free_bind; [apply chan_free_Next|]. intros r.
  apply chan_free_bind; [apply chan_free_Backup|]. intros _. apply chan_free_ret.
Qed.

Lemma chan_free_Accept valid : chan_free (Accept (State := State) valid).
Proof.
  unfold Accept. apply chan_free_bind; [apply chan_free_Next|]. intros r.
  destruct (_ >=? 0); [apply chan_free_ret|].
  apply chan_free_bind; [apply chan_free_Backup|]. intros _. apply chan_free_ret.
Qed.

Lemma chan_free_AcceptRun_loop fuel : forall valid n,
  chan_free (AcceptRun_loop (State := State) fuel valid n).
Proof.
  induction fuel as [|fuel IH]; intros valid n; cbn [AcceptRun_loop].
  - intros c l. reflexivity.
  - apply chan_free_bind; [apply chan_free_Next|]. intros r.
    destruct (_ >=? 0); [apply IH|apply chan_free_ret].
Qed.

Lemma chan_free_AcceptRun valid : chan_free (AcceptRun (State := State) valid).
Proof.
  intros c l. unfold AcceptRun. unfold bind at 1 3, get.
  change (loop_fuel (set_tokens c l)) with (loop_fuel l).
  apply (chan_free_bind (AcceptRun_loop (loop_fuel l) valid 0)
                        (fun n => Backup ;;; ret n)).
  - apply chan_free_AcceptRun_loop.
  - intros n. apply chan_free_bind; [apply chan_free_Backup|].
    intros _. apply chan_free_ret.
Qed.

Lemma chan_free_SkipWhitespace_loop fuel :
  chan_free (SkipWhitespace_loop (State := State) fuel).
Proof.
  induction fuel as [|fuel IH]; cbn [SkipWhitespace_loop].
  - intros c l. reflexivity.
  - apply chan_free_bind; [apply chan_free_Next|]. intros r.
    destruct (unicode.IsSpace r) eqn:Hs; cbn [negb]; [|apply chan_free_Backup].
    destruct (Z.eqb_spec r EOFRune) as [->|_]; [|apply IH].
    rewrite IsSpace_EOFRune in Hs. discriminate.
Qed.

Lemma chan_free_SkipWhitespace : chan_free (SkipWhitespace (State := State)).
Proof.
  intros c l. unfold SkipWhitespace. unfold bind, get.
  change (loop_fuel (set_tokens c l)) with (loop_fuel l).
  apply chan_free_SkipWhitespace_loop.
Qed.

Lemma set_tokens_same l : set_tokens (tokens l) l = l.
Proof. destruct l; reflexivity. Qed.

(** A method that does not touch the channel leaves it as it is. *)
Lemma chan_free_tokens {A} (m : M State A) l a l' :
  chan_free m -> m l = Ok (a, l') -> tokens l' = tokens l.
Proof.
  intros Hf E. pose proof (Hf (tokens l) l) as H.
  rewrite set_tokens_same, E in H. cbn in H. inversion H as [H1].
  rewrite H1 at 1. reflexivity.
Qed.

Lemma chan_open_eta c :
  ch_state c = ChOpen -> mkChan ChOpen (ch_cap c) (ch_buf c ++ []) = c.
Proof. intros H. destruct c; cbn in *. subst. rewrite app_nil_r. reflexivity. Qed.

Lemma chan_free_sim {A} (m : M State A) l a l1 clog :
  chan_free m -> m l = Ok (a, l1) -> ch_state clog = ChOpen ->
  ch_buf (tokens l1) = ch_buf (tokens l) ++ [] /\
  m (set_tokens clog l) =
  Ok (a, set_tokens (mkChan ChOpen (ch_cap clog) (ch_buf clog ++ [])) l1).
Proof.
  intros Hf E Ho. split.
  - rewrite (chan_free_tokens m l a l1 Hf E), app_nil_r. reflexivity.
  - rewrite Hf, E, (chan_open_eta clog Ho). reflexivity.
Qed.

(** An engine operation on a lexer whose channel is replaced by one that
    has room does what it does on the lexer itself, and sends the same
    tokens. *)
Lemma exec_sim o l l1 clog :
  exec Sprintf o l = Ok (tt, l1) ->
  has_room clog ->
  exists ts,
    len ts <= 1 /\
    ch_buf (tokens l1) = ch_buf (tokens l) ++ ts /\
    exec Sprintf o (set_tokens clog l) =
    Ok (tt, set_tokens (mkChan ChOpen (ch_cap clog) (ch_buf clog ++ ts)) l1).
Proof.
  intros E [Ho Hr].
  assert (forall m : M State unit,
             chan_free m -> m l = Ok (tt, l1) ->
             exists ts,
               len ts <= 1 /\
               ch_buf (tokens l1) = ch_buf (tokens l) ++ ts /\
               m (set_tokens clog l) =
               Ok (tt, set_tokens (mkChan ChOpen (ch_cap clog) (ch_buf clog ++ ts)) l1))
    as Hfree.
  { intros m Hf Em. exists []. split; [cbn; lia|].
    apply (chan_free_sim m l tt l1 clog Hf Em Ho). }
  assert (forall A (m : M State A), chan_free m -> chan_free (m ;;; ret tt)) as Hdrop.
  { intros A m Hf. apply chan_free_bind; [exact Hf|]. intros _. apply chan_free_ret. }
  destruct o; cbn [exec] in *.
  - apply Hfree; [apply Hdrop, chan_free_Next|exact E].
  - apply Hfree; [apply chan_free_Backup|exact E].
  - apply Hfree; [apply Hdrop, chan_free_Peek|exact E].
  - apply Hfree; [apply Hdrop, chan_free_Accept|exact E].
  - apply Hfree; [apply Hdrop, chan_free_AcceptRun|exact E].
  - apply Hfree; [apply chan_free_SkipWhitespace|exact E].
  - rewrite Emit_eq in E. rewrite Emit_eq. unfold span in *.
    cbn [source start position line set_tokens tokens].
    destruct (slice _ _ _) as [val|]; [|discriminate].
    destruct (chan_send _ (tokens l)) as [c1| | |] eqn:Es; try discriminate.
    destruct (chan_send_Ok_inv _ _ _ Es) as (_ & _ & ->).
    cbn in E. inversion E; subst. clear E.
    eexists [_]. split; [cbn; lia|]. split; [reflexivity|].
    rewrite chan_send_ok by assumption. reflexivity.
  - apply Hfree; [apply chan_free_Ignore|exact E].
  - unfold bind in E. unfold bind. rewrite Error_eq in E. rewrite Error_eq.
    cbn [source start position line set_tokens tokens].
    destruct (chan_send _ (tokens l)) as [c1| | |] eqn:Es; try discriminate.
    destruct (chan_send_Ok_inv _ _ _ Es) as (_ & _ & ->).
    cbn in E. inversion E; subst. clear E.
    eexists [_]. split; [cbn; lia|]. split; [reflexivity|].
    rewrite chan_send_ok by assumption. reflexivity.
Qed.

(** The producer and the consumer taking turns: the engine operations do
    on a lexer whose channel only collects the tokens what they do in the
    interleaving, and the channel then holds the tokens that were
    received followed by those that still wait. *)
Lemma interleave_sim acts : forall l res l' pre capL,
  interleave Sprintf acts l = Ok (res, l') ->
  len pre + len (ch_buf (tokens l)) + len (produced acts) <= capL ->
  exec_all Sprintf (produced acts)
           (set_tokens (mkChan ChOpen capL (pre ++ ch_buf (tokens l))) l)
  = Ok (tt, set_tokens (mkChan ChOpen capL
                               (pre ++ received res ++ ch_buf (tokens l'))) l').
Proof.
  induction acts as [|a acts IH]; intros l res l' pre capL E Hcap.
  - cbn in E. inversion E; subst. reflexivity.
  - destruct a as [o|]; cbn [interleave produced] in *.
    + unfold bind in E.
      destruct (exec Sprintf o l) as [[[] l1]| | |] eqn:Eo; try discriminate.
      rewrite len_cons in Hcap. pose proof (len_nonneg (produced acts)).
      destruct (exec_sim o l l1 (mkChan ChOpen capL (pre ++ ch_buf (tokens l))) Eo)
        as (ts & Hts & Hb & Es).
      { split; [reflexivity|]. cbn [ch_buf ch_cap]. rewrite len_app. lia. }
      cbn [exec_all]. unfold bind. rewrite Es. cbn [ch_cap ch_buf].
      rewrite <- app_assoc, <- Hb. apply IH; [exact E|].
      rewrite Hb, len_app. lia.
    + unfold bind in E. rewrite NextToken_eq in E.
      destruct (ch_buf (tokens l)) as [|t rest] eqn:Eb.
      * destruct (ch_state (tokens l)); try discriminate.
        destruct (interleave Sprintf acts l) as [[xs l2]| | |] eqn:Ei; try discriminate.
        cbn in E. inversion E; subst. cbn [received].
        rewrite <- Eb. apply IH; [exact Ei|]. rewrite Eb. exact Hcap.
      * destruct (interleave Sprintf acts _) as [[xs l2]| | |] eqn:Ei; try discriminate.
        cbn in E. inversion E; subst. cbn [received].
        pose proof (IH _ _ _ (pre ++ [t]) capL Ei) as IH1.
        cbn [tokens set_tokens ch_buf] in IH1.
        rewrite <- !app_assoc in IH1. cbn [app] in IH1.
        apply IH1. rewrite len_app, len_cons, len_nil. rewrite len_cons in Hcap. lia.
Qed.

(** In every interleaving of engine operations and calls of [NextToken]
    the tokens received, followed by those still in the channel, are the
    tokens that the operations emit, in the order in which they emit
    them. *)
Lemma interleave_fifo acts cap src st res l' :
  interleave Sprintf acts (started cap src st) = Ok (res, l') ->
  emitted Sprintf (produced acts) (New src st)
  = Some (received res ++ ch_buf (tokens l')).
Proof.
  intros E.
  pose proof (interleave_sim acts _ res l' [] (len (produced acts)) E) as H.
  unfold emitted.
  change (set_tokens (make_chan (len (produced acts))) (New src st))
    with (set_tokens (mkChan ChOpen (len (produced acts))
                             ([] ++ ch_buf (tokens (started cap src st))))
                     (started cap src st)).
  rewrite H; [reflexivity|].
  pose proof (len_nonneg (produced acts)).
  change (len (ch_buf (tokens (started cap src st)))) with 0.
  change (len (@nil Token)) with 0. lia.
Qed.

End ChannelFree.

(** * The properties of the specification *)

Section Claims.

Context {State any : Type}.
Variable Sprintf : gostring -> list any -> gostring.
Implicit Types l : Lexer State.

(** Claim C6.  The invariant of the cursor, [0 <= start <= position <=
    len source] and [1 <= line], holds for the lexer that [New] returns and
    after every sequence of engine operations ([Next], [Backup], [Peek],
    [Accept], [AcceptRun], [SkipWhitespace], [Emit], [Ignore], [Error]) that
    returns, whatever channel the lexer was given. *)
Theorem cursor_invariant_reachable
        (src : gostring) (st : option State) (c : Chan)
        (os : list (op any)) (l' : Lexer State) :
  exec_all Sprintf os (set_tokens c (New src st)) = Ok (tt, l') ->
  cursor_inv (New (State := State) src st) /\ cursor_inv l'.
Proof.
  intros E. split; [apply inv_New|].
  assert (inv (set_tokens c (New src st))) as Hi by apply inv_New.
  pose proof (exec_all_stepwise Sprintf os _ Hi) as Hs. rewrite E in Hs.
  apply (inv_steps _ _ Hi Hs).
Qed.

Lemma after_Backup_empty l : history l = [] -> after_Backup l = l.
Proof.
  intros H. destruct l as [src st ln pos lw ss tk h]. cbn in H. subst h.
  reflexivity.
Qed.

(** Claim C7.  Immediately after an [Emit] or an [Ignore] the history is
    empty, and a following [Backup] returns the lexer as it is: the
    position, and with it the pending span, is unchanged. *)
Theorem boundary_clears_history (t : TokenType) l l' :
  Emit t l = Ok (tt, l') \/ Ignore l = Ok (tt, l') ->
  history l' = [] /\ Backup l' = Ok (tt, l') /\
  position l' = position l /\ span l' = Some [].
Proof.
  intros H.
  assert (exists val c, span l = Some val /\ l' = after_boundary val (set_tokens c l))
    as (val & c & Hv & ->).
  { destruct H as [H|H].
    - rewrite Emit_eq in H. destruct (span l) as [val|]; [|discriminate].
      destruct (chan_send _ _) as [c| | |]; try discriminate.
      cbn in H. inversion H. eauto.
    - rewrite Ignore_eq in H. destruct (span l) as [val|]; [|discriminate].
      inversion H. exists val, (tokens l). split; [reflexivity|].
      destruct l; reflexivity. }
  split; [reflexivity|]. split; [rewrite Backup_eq, after_Backup_empty; reflexivity|].
  split; [reflexivity|].
  destruct (span_Some _ _ Hv) as (H0 & H1).
  unfold span. cbn. rewrite slice_ok by lia. rewrite Z.sub_diag. reflexivity.
Qed.

Lemma Error_Ok format args l :
  has_room (tokens l) ->
  Error Sprintf format args l =
  Ok (None, set_tokens (enqueued (error_token Sprintf format args l) (tokens l)) l).
Proof.
  intros [Hs Hc]. rewrite Error_eq.
  unfold error_token. rewrite chan_send_ok by assumption. reflexivity.
Qed.

Lemma run_loop_None (trans : State -> M State (option State)) fuel :
  run_loop trans fuel None = ret tt.
Proof. destruct fuel; reflexivity. Qed.


(** Claim C10.  [Error] changes nothing but the channel: the source, the
    start, the position, the line and the history are as before, the one
    effect is the error token at the end of the channel, and [Current] and
    [Backup] behave after it as they did before it. *)
Theorem Error_frame (format : gostring) (args : list any) l r l' :
  Error Sprintf format args l = Ok (r, l') ->
  l' = set_tokens (tokens l') l /\
  source l' = source l /\ start l' = start l /\ position l' = position l /\
  line l' = line l /\ history l' = history l /\
  ch_buf (tokens l') = ch_buf (tokens l) ++ [error_token Sprintf format args l] /\
  Current l' = lift_outcome (Current l) (fun vl => Ok (fst vl, l')) /\
  Backup l' = lift_outcome (Backup l)
                (fun ul => Ok (tt, set_tokens (tokens l') (snd ul))).
Proof.
  intros E. rewrite Error_eq in E.
  destruct (chan_send _ _) as [c| | |] eqn:Ec; try discriminate.
  cbn in E. inversion E; subst. clear E.
  destruct (chan_send_Ok_inv _ _ _ Ec) as (_ & _ & ->).
  repeat (split; [reflexivity|]).
  split.
  - rewrite !Current_eq. unfold span. cbn [source start position set_tokens].
    destruct (slice _ _ _); reflexivity.
  - rewrite !Backup_eq. reflexivity.
Qed.

Lemma Emit_Ok (t : TokenType) l val :
  span l = Some val ->
  has_room (tokens l) ->
  Emit t l =
  Ok (tt, after_boundary val
            (set_tokens (enqueued (mkToken t val (position l) (line l))
                                  (tokens l)) l)).
Proof.
  intros Hv [Hs Hc]. rewrite Emit_eq, Hv.
  rewrite chan_send_ok by assumption. reflexivity.
Qed.

(** Claim C5.  [Emit t] sends a token whose value is the pending span,
    whose position is the current position and whose line is the line
    before it is advanced; afterwards the line has grown by the number of
    newlines in the span, and the start is the position.  On the source of
    [TestNewlines] the first token reports line 1 and the second line 2. *)
Theorem Emit_token_and_lines (t : TokenType) l :
  0 <= start l -> start l <= position l -> position l <= len (source l) ->
  has_room (tokens l) ->
  (exists val l',
      Current l = Ok (val, l) /\
      Emit t l = Ok (tt, l') /\
      ch_buf (tokens l') =
      ch_buf (tokens l) ++ [{| Type_ := t; Value := val;
                               Position := position l; Line := line l |}] /\
      line l' = line l + bytes.CountByte val lineSep /\
      start l' = position l /\ position l' = position l) /\
  (exists (m1 m2 m3 : Lexer TestGrammar.state) (t1 t2 : Token),
      StartSync TestGrammar.trans0 1
                (New TestGrammar.newlines_src (Some TestGrammar.NewlineState)) = Ok (tt, m1) /\
      NextToken m1 = Ok ((Some t1, false), m2) /\
      NextToken m2 = Ok ((Some t2, false), m3) /\
      Value t1 = lit "123" /\ Line t1 = 1 /\
      Value t2 = lit "456" /\ Line t2 = 2).
Proof.
  intros H0 H1 H2 Hr. split.
  - assert (exists val, span l = Some val) as [val Hv].
    { eexists. unfold span. apply slice_ok; assumption. }
    exists val. eexists. rewrite Current_eq, Hv.
    rewrite (Emit_Ok t l val Hv Hr).
    repeat (split; [reflexivity|]). reflexivity.
  - vm_compute. do 5 eexists.
    repeat (split; [reflexivity|]). reflexivity.
Qed.

Lemma Next_at_end l :
  position l = len (source l) ->
  Next l = Ok (EOFRune, after_Next l) /\
  position (after_Next l) = position l /\
  history (after_Next l) = EOFRune :: history l.
Proof.
  intros Hp. pose proof (len_nonneg (source l)).
  assert (0 <= position l <= len (source l)) as Hr by lia.
  rewrite (Next_eq l Hr). unfold after_Next.
  destruct (reading_cases l Hr) as [[_ E]|(Hlt & _)]; [|lia].
  rewrite E. fields. repeat split. lia.
Qed.

Lemma utf8_inv_reachable src (st : option State) c os l' :
  utf8.ValidString src = true ->
  exec_all Sprintf os (set_tokens c (New src st)) = Ok (tt, l') ->
  utf8_inv l'.
Proof.
  intros Hv E.
  assert (utf8_inv (set_tokens c (New src st))) as Hu
      by (apply (utf8_inv_New src st Hv)).
  apply (exec_all_invariant Sprintf utf8_inv
           (fun l1 l2 _ H1 H2 => utf8_inv_prim l1 l2 H1 H2) os
           (set_tokens c (New src st)) l');
    [apply Hu|apply Hu|exact E].
Qed.

(** Claim C3, amended.  At the end of the source [Next] returns
    [EOFRune] and leaves the position where it is, but it pushes the
    sentinel on the history.  On a source that is valid UTF-8, after every
    sequence of engine operations, the entries of the history other than
    the sentinel are no more than the runes of the pending span. *)
Theorem Next_at_end_and_history_bound
        (src : gostring) (st : option State) (c : Chan)
        (os : list (op any)) (l' : Lexer State) :
  utf8.ValidString src = true ->
  exec_all Sprintf os (set_tokens c (New src st)) = Ok (tt, l') ->
  (forall l : Lexer State,
      position l = len (source l) ->
      Next l = Ok (EOFRune, after_Next l) /\
      position (after_Next l) = position l /\
      history (after_Next l) = EOFRune :: history l) /\
  (exists val, span l' = Some val /\
               len (read_runes (history l')) <= utf8.RuneCountInString val).
Proof.
  intros Hv E. split; [apply Next_at_end|].
  destruct (utf8_inv_span l' (utf8_inv_reachable src st c os l' Hv E))
    as (val & Hs & Hr).
  exists val. split; [exact Hs|].
  unfold utf8.RuneCountInString, len.
  rewrite <- (length_map fst), Hr, length_rev. lia.
Qed.

Lemma pull_closed n : forall l,
  ch_state (tokens l) = ChClosed ->
  pull n l =
  Ok (drained n (ch_buf (tokens l)),
      set_tokens (mkChan ChClosed (ch_cap (tokens l))
                         (skipn n (ch_buf (tokens l)))) l).
Proof.
  induction n as [|n IH]; intros l Hc.
  - cbn. unfold ret. do 2 f_equal.
    destruct l as [? ? ? ? ? ? [? ? ?] ?]; cbn in *. subst. reflexivity.
  - cbn [pull]. unfold bind at 1. rewrite NextToken_eq.
    destruct (ch_buf (tokens l)) as [|t rest] eqn:Eb.
    + rewrite Hc. unfold bind at 1. rewrite (IH l Hc), Eb.
      unfold drained. cbn. rewrite skipn_nil, firstn_nil. cbn.
      rewrite Nat.sub_0_r. reflexivity.
    + unfold bind at 1. rewrite IH by exact Hc. fields. rewrite Hc.
      reflexivity.
Qed.

Lemma run_closes (trans : State -> M State (option State)) fuel l l1 :
  run trans fuel l = Ok (tt, l1) -> ch_state (tokens l1) = ChClosed.
Proof.
  unfold run. unfold bind at 1, get at 1. unfold bind at 1.
  destruct (run_loop _ _ _ _) as [[u l2]| | |]; try discriminate.
  unfold on_tokens. destruct (chan_close (tokens l2)) as [c| | |] eqn:Ec;
    try discriminate.
  intros H; inversion H; subst. rewrite (chan_close_Ok_inv _ _ Ec). reflexivity.
Qed.

(** Claim C4, amended.  When [run] returns, the channel is closed; the
    calls of [NextToken] that follow return the tokens still in the
    channel, oldest first, and once these are drained every further call
    returns [(nil, true)].  In every interleaving of engine operations
    with calls of [NextToken], the tokens received followed by those still
    in the channel are the tokens emitted, in the order of emission. *)
Theorem tokens_fifo_then_closed
        (trans : State -> M State (option State)) (fuel : nat)
        (l l1 : Lexer State) (n : nat) :
  run trans fuel l = Ok (tt, l1) ->
  ch_state (tokens l1) = ChClosed /\
  (exists l2,
      pull n l1 = Ok (drained n (ch_buf (tokens l1)), l2) /\
      ch_state (tokens l2) = ChClosed /\
      ch_buf (tokens l2) = skipn n (ch_buf (tokens l1))) /\
  (forall m, (length (ch_buf (tokens l1)) <= m)%nat ->
             nth m (drained n (ch_buf (tokens l1))) (None, true) = (None, true)) /\
  (forall acts cap src st res (l' : Lexer State),
      interleave Sprintf acts (started cap src st) = Ok (res, l') ->
      emitted Sprintf (produced acts) (New src st)
      = Some (received res ++ ch_buf (tokens l'))).
Proof.
  intros E. pose proof (run_closes _ _ _ _ E) as Hc.
  split; [exact Hc|]. split; [|split].
  - eexists. split; [apply pull_closed; exact Hc|]. split; reflexivity.
  - intros m Hm. unfold drained.
    rewrite app_nth2; rewrite length_map, length_firstn; [|lia].
    destruct (nth_in_or_default (m - Nat.min n (length (ch_buf (tokens l1))))
                (repeat (@None Token, true) (n - length (ch_buf (tokens l1))))
                (None, true)) as [Hin|Hd]; [|exact Hd].
    apply repeat_spec in Hin. exact Hin.
  - intros acts cap src st res l' Ex. apply (interleave_fifo Sprintf _ _ _ _ _ _ Ex).
Qed.

(** [SkipWhitespace] returns and sends nothing, whatever follows the
    position. *)
Lemma SkipWhitespace_sends_nothing l :
  inv l ->
  exists l', SkipWhitespace l = Ok (tt, l') /\ tokens l' = tokens l /\
             start l' = start l /\ line l' = line l.
Proof.
  intros Hi. destruct (SkipWhitespace_moves l Hi) as (l' & E & Hm).
  destruct (moves_frame _ _ Hm) as (_ & ? & ? & ? & _). eauto.
Qed.

End Claims.

(** ** Runs on concrete sources *)

(** Claim C1, on the source ["  "].  [SkipWhitespace] reads to the end
    of the source and sends no token: [EOFRune] is not a space, so the
    loop leaves through [Backup] before it reaches [Emit(EOFToken)]. *)
Theorem SkipWhitespace_to_end_sends_nothing :
  let l0 := started (State := unit) 1 (lit "  ") None in
  exists l',
    SkipWhitespace l0 = Ok (tt, l') /\
    position l' = len (source l') /\
    ch_buf (tokens l') = [] /\
    unicode.IsSpace EOFRune = false.
Proof.
  eexists. split; [vm_compute; reflexivity|]. repeat split.
Qed.

(** Claim C2, on the source ["ab\xff"].  After two calls of [Next] the
    position is 2; one more [Next] reads the malformed byte as
    [RuneError] of width 1, and the [Backup] that follows goes back by
    [RuneLen(RuneError)] = 3 bytes: the position is 0, not 2, and the
    pending span is empty. *)
Theorem Backup_after_malformed_byte :
  let l0 := New (State := unit) (lit "ab" ++ [z2b 255]) None in
  exists l2 l3 l4,
    Next_n 2 l0 = Ok (tt, l2) /\
    position l2 = 2 /\ span l2 = Some (lit "ab") /\
    Next_n 1 l2 = Ok (tt, l3) /\
    position l3 = 3 /\ history l3 = utf8.RuneError :: history l2 /\
    Backup_n 1 l3 = Ok (tt, l4) /\
    position l4 = 0 /\ span l4 = Some [].
Proof.
  do 3 eexists.
  split; [vm_compute; reflexivity|]. split; [reflexivity|].
  split; [reflexivity|]. split; [vm_compute; reflexivity|].
  split; [reflexivity|]. split; [reflexivity|].
  split; [vm_compute; reflexivity|]. split; reflexivity.
Qed.

(** Claim C9, on the source ["12\xff"].  The digits are followed by a
    malformed byte, which is read as [RuneError] and is not in the set;
    [AcceptRun] returns 2, but its [Backup] goes back 3 bytes and leaves
    the position at 0 and the pending span empty. *)
Theorem AcceptRun_before_malformed_byte :
  let valid := lit "0123456789" in
  let l0 := New (State := unit) (lit "12" ++ [z2b 255]) None in
  strings.IndexRune valid 49 >= 0 /\
  strings.IndexRune valid 50 >= 0 /\
  utf8.DecodeRuneInString [z2b 255] = (utf8.RuneError, 1) /\
  strings.IndexRune valid utf8.RuneError = -1 /\
  exists l',
    AcceptRun valid l0 = Ok (2, l') /\
    position l' = 0 /\ span l' = Some [].
Proof.
  repeat (split; [vm_compute; congruence|]).
  eexists. split; [vm_compute; reflexivity|]. split; reflexivity.
Qed.

(** ** Instances of the theorems *)

Section Instances.

Import TestGrammar.

Lemma SkipWhitespace_sends_nothing_witness :
  inv (started (State := unit) 1 (lit "  ") None) /\
  exists l' : Lexer unit,
             SkipWhitespace (started 1 (lit "  ") None) = Ok (tt, l') /\
             tokens l' = tokens (started (State := unit) 1 (lit "  ") None) /\
             start l' = start (started (State := unit) 1 (lit "  ") None) /\
             line l' = line (started (State := unit) 1 (lit "  ") None).
Proof.
  assert (inv (started (State := unit) 1 (lit "  ") None)) as Hi.
  { split; [vm_compute; intuition discriminate|constructor]. }
  split; [exact Hi|]. apply (SkipWhitespace_sends_nothing _ Hi).
Defined.

(** The history is not empty after a [Next] at the end of the source. *)
Lemma Next_at_end_pushes_sentinel :
  let l := New (State := unit) [] None in
  position l = len (source l) /\
  exists l',
    Next l = Ok (EOFRune, l') /\
    history l' <> history l /\
    span l' = Some [] /\
    ~ (len (history l') <= utf8.RuneCountInString []).
Proof.
  split; [reflexivity|]. eexists. split; [vm_compute; reflexivity|].
  split; [discriminate|]. split; [reflexivity|].
  vm_compute. intros H. apply H. reflexivity.
Qed.

Lemma Next_at_end_and_history_bound_witness :
  utf8.ValidString (lit "ab") = true /\
  exists l',
    exec_all Sprintf0 [ONext; ONext; ONext; OBackup]
             (set_tokens (make_chan 1) (New (State := unit) (lit "ab") None))
    = Ok (tt, l') /\
    (forall l : Lexer unit,
        position l = len (source l) ->
        Next l = Ok (EOFRune, after_Next l) /\
        position (after_Next l) = position l /\
        history (after_Next l) = EOFRune :: history l) /\
    (exists val, span l' = Some val /\
                 len (read_runes (history l')) <= utf8.RuneCountInString val).
Proof.
  split; [reflexivity|]. eexists. split; [vm_compute; reflexivity|].
  apply (Next_at_end_and_history_bound
           Sprintf0 (lit "ab") None (make_chan 1)
           [ONext; ONext; ONext; OBackup] _); vm_compute; reflexivity.
Defined.

(** After the run of [TestNumbers] has ended and closed the channel, the
    next call of [NextToken] returns a token. *)
Lemma NextToken_after_close_returns_token :
  let l0 := New (lit "123") (Some NumberState) in
  exists l1 tok l2,
    StartSync trans0 1 l0 = Ok (tt, l1) /\
    ch_state (tokens l1) = ChClosed /\
    NextToken l1 = Ok ((Some tok, false), l2) /\
    Value tok = lit "123" /\
    NextToken l1 <> Ok ((None, true), l1).
Proof.
  do 3 eexists. split; [vm_compute; reflexivity|].
  split; [reflexivity|]. split; [vm_compute; reflexivity|].
  split; [reflexivity|]. vm_compute. discriminate.
Qed.

Lemma tokens_fifo_then_closed_witness :
  exists l1,
    run trans0 1 (started 1 (lit "123") (Some NumberState)) = Ok (tt, l1) /\
    ch_state (tokens l1) = ChClosed /\
    (exists l2,
        pull 3 l1 = Ok (drained 3 (ch_buf (tokens l1)), l2) /\
        ch_state (tokens l2) = ChClosed /\
        ch_buf (tokens l2) = skipn 3 (ch_buf (tokens l1))) /\
    (forall m, (length (ch_buf (tokens l1)) <= m)%nat ->
               nth m (drained 3 (ch_buf (tokens l1))) (None, true) = (None, true)) /\
    (forall acts cap src st res (l' : Lexer state),
        interleave Sprintf0 acts (started cap src st) = Ok (res, l') ->
        emitted Sprintf0 (produced acts) (New src st)
        = Some (received res ++ ch_buf (tokens l'))).
Proof.
  eexists. split; [vm_compute; reflexivity|].
  apply (tokens_fifo_then_closed Sprintf0 trans0 1
           (started 1 (lit "123") (Some NumberState)) _ 3).
  vm_compute. reflexivity.
Defined.

Lemma Emit_token_and_lines_witness :
  0 <= start ab /\ start ab <= position ab /\ position ab <= len (source ab) /\
  has_room (tokens ab) /\
  (exists val l',
      Current ab = Ok (val, ab) /\
      Emit 5 ab = Ok (tt, l') /\
      ch_buf (tokens l') =
      ch_buf (tokens ab) ++ [{| Type_ := 5; Value := val;
                                Position := position ab; Line := line ab |}] /\
      line l' = line ab + bytes.CountByte val lineSep /\
      start l' = position ab /\ position l' = position ab) /\
  (exists (m1 m2 m3 : Lexer state) (t1 t2 : Token),
      StartSync trans0 1 (New newlines_src (Some NewlineState)) = Ok (tt, m1) /\
      NextToken m1 = Ok ((Some t1, false), m2) /\
      NextToken m2 = Ok ((Some t2, false), m3) /\
      Value t1 = lit "123" /\ Line t1 = 1 /\
      Value t2 = lit "456" /\ Line t2 = 2).
Proof.
  assert (0 <= start ab) as H0 by (vm_compute; discriminate).
  assert (start ab <= position ab) as H1 by (vm_compute; discriminate).
  assert (position ab <= len (source ab)) as H2 by (vm_compute; discriminate).
  assert (has_room (tokens ab)) as H3 by (split; reflexivity).
  repeat (split; [assumption|]).
  apply (Emit_token_and_lines 5 ab H0 H1 H2 H3).
Defined.

Lemma cursor_invariant_reachable_witness :
  exists l',
    exec_all Sprintf0 [ONext; OEmit 5; ONext; OBackup; OAcceptRun (lit "b")]
             (set_tokens (make_chan 1) (New (State := unit) (lit "ab") None))
    = Ok (tt, l') /\
    cursor_inv (New (State := unit) (lit "ab") None) /\ cursor_inv l'.
Proof.
  eexists. split; [vm_compute; reflexivity|].
  apply (cursor_invariant_reachable
           Sprintf0 (lit "ab") None (make_chan 1)
           [ONext; OEmit 5; ONext; OBackup; OAcceptRun (lit "b")] _).
  vm_compute. reflexivity.
Defined.

Lemma boundary_clears_history_witness :
  exists l',
    (Emit 5 ab = Ok (tt, l') \/ Ignore ab = Ok (tt, l')) /\
    history l' = [] /\ Backup l' = Ok (tt, l') /\
    position l' = position ab /\ span l' = Some [].
Proof.
  eexists. split; [left; vm_compute; reflexivity|].
  apply (boundary_clears_history 5 ab _). left. vm_compute. reflexivity.
Defined.


Lemma Error_frame_witness :
  exists l',
    Error Sprintf0 (lit "bad") [] x0 = Ok (None, l') /\
    l' = set_tokens (tokens l') x0 /\
    source l' = source x0 /\ start l' = start x0 /\ position l' = position x0 /\
    line l' = line x0 /\ history l' = history x0 /\
    ch_buf (tokens l') =
    ch_buf (tokens x0) ++ [error_token Sprintf0 (lit "bad") [] x0] /\
    Current l' = lift_outcome (Current x0) (fun vl => Ok (fst vl, l')) /\
    Backup l' = lift_outcome (Backup x0)
                  (fun ul => Ok (tt, set_tokens (tokens l') (snd ul))).
Proof.
  eexists. split; [vm_compute; reflexivity|].
  apply (Error_frame Sprintf0 (lit "bad") [] x0 None _).
  vm_compute. reflexivity.
Defined.

End Instances.

(** * Further properties of the engine *)

Section Cursor.

Context {State any : Type}.
Variable Sprintf : gostring -> list any -> gostring.
Implicit Types l : Lexer State.

Lemma inv_reachable src (st : option State) c os l :
  exec_all Sprintf os (set_tokens c (New src st)) = Ok (tt, l) ->
  inv l /\ source l = src.
Proof.
  intros E.
  assert (inv (set_tokens c (New src st))) as Hi by apply inv_New.
  pose proof (exec_all_stepwise Sprintf os _ Hi) as Hs. rewrite E in Hs.
  split; [apply (inv_steps _ _ Hi Hs)|apply (steps_source _ _ Hs)].
Qed.

(** Property X1.  In every state that a sequence of operations of the engine
    reaches, [Next] returns: it pushes the rune that it returns on the
    history and leaves [start], [line] and the channel as they are.  It
    returns [EOFRune] exactly when the position is the end of the source,
    and then does not move; any other rune that it returns is a valid rune
    (the replacement rune for a malformed byte), and the position moves
    forward by one to four bytes without passing the end of the source. *)
Theorem Next_returns_rune_or_end
        (src : gostring) (st : option State) (c : Chan)
        (os : list (op any)) l :
  exec_all Sprintf os (set_tokens c (New src st)) = Ok (tt, l) ->
  exists r l',
    Next l = Ok (r, l') /\
    history l' = r :: history l /\
    start l' = start l /\ line l' = line l /\ tokens l' = tokens l /\
    (r = EOFRune <-> position l = len src) /\
    (r = EOFRune -> position l' = position l) /\
    (r <> EOFRune ->
     utf8.ValidRune r = true /\
     1 <= position l' - position l <= 4 /\ position l' <= len src).
Proof.
  intros E. destruct (inv_reachable src st c os l E) as [Hi Hsrc].
  destruct (Next_Ok l Hi) as (En & _ & _).
  exists (fst (reading l)), (after_Next l). split; [exact En|].
  repeat (split; [reflexivity|]).
  rewrite <- Hsrc. unfold after_Next. fields.
  destruct (reading_cases l (inv_position l Hi))
    as [[Hp Er]|(Hp & _ & _ & Hv & Hw & Hl)].
  - rewrite Er. fields. split; [tauto|]. split; [intros _; lia|].
    intros H. contradiction H. reflexivity.
  - pose proof (ValidRune_not_EOF _ Hv) as Hg. apply Z.gtb_lt in Hg.
    split; [split; intros H; [rewrite H in Hg; unfold EOFRune in Hg|]; lia|].
    split; [intros H; rewrite H in Hg; unfold EOFRune in Hg; lia|].
    intros _. split; [exact Hv|]. lia.
Qed.

(** Property X2.  In every state that the operations reach, [Current]
    returns and does not panic on its slice expression: its value has
    [position - start] bytes and is the part of the source between [start]
    and [position]. *)
Theorem Current_is_pending_span
        (src : gostring) (st : option State) (c : Chan)
        (os : list (op any)) l :
  exec_all Sprintf os (set_tokens c (New src st)) = Ok (tt, l) ->
  exists val,
    Current l = Ok (val, l) /\
    len val = position l - start l /\
    src = firstn (Z.to_nat (start l)) src ++ val
          ++ skipn (Z.to_nat (position l)) src.
Proof.
  intros E. destruct (inv_reachable src st c os l E) as [Hi Hsrc].
  destruct Hi as [(H0 & H1 & H2 & H3) _].
  rewrite Current_eq. unfold span. rewrite slice_ok by lia. rewrite Hsrc in *.
  eexists. split; [reflexivity|]. split.
  - unfold len in *. rewrite length_firstn, length_skipn. lia.
  - rewrite <- (firstn_skipn (Z.to_nat (start l)) src) at 1. f_equal.
    rewrite <- (firstn_skipn (Z.to_nat (position l - start l))
                             (skipn (Z.to_nat (start l)) src)) at 1.
    f_equal. rewrite skipn_skipn. f_equal. lia.
Qed.


(** The width that [Next] adds is never more than what [Backup] takes
    back for the same rune. *)
Lemma reading_width_le_RuneLen l :
  inv l -> (fst (reading l) >? EOFRune) = true ->
  0 <= snd (reading l) <= utf8.RuneLen (fst (reading l)).
Proof.
  intros Hi Hg.
  destruct (reading_cases l (inv_position l Hi))
    as [[_ Er]|(_ & Er & Hne & _ & Hw & _)].
  - rewrite Er in Hg. discriminate.
  - destruct (reading l) as [r w] eqn:Erd. cbn [fst snd] in *. symmetry in Er.
    destruct (Decode_shape _ _ _ Hne Er) as [[-> ->]|(c1 & t & _ & He & <-)].
    + vm_compute. split; discriminate.
    + destruct (enc_RuneLen _ _ He) as [-> _]. lia.
Qed.

(** Property X3.  In every state that the operations reach, on any source,
    [Peek] returns and leaves the history, [start], [line] and the channel
    as they are.  It never moves the position forward; where it moves it
    back, not before [start].  It returns [EOFRune] exactly at the end of
    the source. *)
Theorem Peek_never_advances
        (src : gostring) (st : option State) (c : Chan)
        (os : list (op any)) l :
  exec_all Sprintf os (set_tokens c (New src st)) = Ok (tt, l) ->
  exists r l',
    Peek l = Ok (r, l') /\
    history l' = history l /\
    start l' = start l /\ line l' = line l /\ tokens l' = tokens l /\
    start l <= position l' <= position l /\
    (r = EOFRune <-> position l = len src).
Proof.
  intros E. destruct (inv_reachable src st c os l E) as [Hi Hsrc].
  pose proof (inv_position l Hi) as Hp.
  rewrite (Peek_eq l Hp).
  exists (fst (reading l)), (after_Backup (after_Next l)).
  split; [reflexivity|]. repeat (split; [reflexivity|]).
  destruct Hi as [(H0 & H1 & H2 & H3) Hh].
  assert (inv l) as Hi by (split; [repeat split|]; assumption).
  unfold after_Backup, after_Next, backed. fields. split.
  - destruct (fst (reading l) >? EOFRune) eqn:Hg.
    + pose proof (reading_width_le_RuneLen l Hi Hg).
      destruct (Z.ltb_spec (position l + snd (reading l)
                            - utf8.RuneLen (fst (reading l))) (start l)); lia.
    + destruct (reading_cases l Hp) as [[_ Er]|(_ & _ & _ & Hv & _)].
      * rewrite Er. cbn [snd]. lia.
      * rewrite (ValidRune_not_EOF _ Hv) in Hg. discriminate.
  - rewrite <- Hsrc.
    destruct (reading_cases l Hp) as [[Hpe Er]|(Hpl & _ & _ & Hv & _)].
    + rewrite Er. cbn [fst]. tauto.
    + pose proof (ValidRune_not_EOF _ Hv) as Hg. apply Z.gtb_lt in Hg.
      split; intros H; [rewrite H in Hg; unfold EOFRune in Hg|]; lia.
Qed.

(** Property X4.  On a source that is valid UTF-8, [Peek] changes nothing:
    it returns the rune that the next call of [Next] returns, and a second
    [Peek] returns the same rune. *)
Theorem Peek_is_lookahead
        (src : gostring) (st : option State) (c : Chan)
        (os : list (op any)) l :
  utf8.ValidString src = true ->
  exec_all Sprintf os (set_tokens c (New src st)) = Ok (tt, l) ->
  exists r l',
    Peek l = Ok (r, l) /\
    (Peek ;;; Peek) l = Ok (r, l) /\
    Next l = Ok (r, l').
Proof.
  intros Hv E. pose proof (utf8_inv_reachable Sprintf src st c os l Hv E) as Hu.
  pose proof (inv_position l (utf8_inv_inv l Hu)) as Hp.
  assert (Peek l = Ok (fst (reading l), l)) as EP
      by (rewrite (Peek_eq l Hp), (Backup_undoes_Next l Hu); reflexivity).
  exists (fst (reading l)), (after_Next l).
  split; [exact EP|]. split; [|apply Next_eq; exact Hp].
  rewrite (bind_Ok _ _ _ _ _ EP). exact EP.
Qed.

(** Property X5.  On a source that is valid UTF-8, [Accept valid] returns
    [true] when the next rune is in [valid], and has then done what [Next]
    does and moved the position forward; when the next rune is not in
    [valid] it returns [false] and the lexer is what it was. *)
Theorem Accept_consumes_member_only
        (src : gostring) (st : option State) (c : Chan)
        (os : list (op any)) (valid : gostring) l :
  utf8.ValidString src = true ->
  exec_all Sprintf os (set_tokens c (New src st)) = Ok (tt, l) ->
  exists r lN,
    Next l = Ok (r, lN) /\
    (strings.IndexRune valid r >= 0 ->
     Accept valid l = Ok (true, lN) /\ position l < position lN) /\
    (strings.IndexRune valid r < 0 -> Accept valid l = Ok (false, l)).
Proof.
  intros Hv E. pose proof (utf8_inv_reachable Sprintf src st c os l Hv E) as Hu.
  pose proof (utf8_inv_inv l Hu) as Hi.
  destruct (Next_Ok l Hi) as (En & _ & _).
  exists (fst (reading l)), (after_Next l). split; [exact En|].
  unfold Accept. rewrite (bind_Ok _ _ _ _ _ En).
  split; intros Hm.
  - destruct (Z.geb_spec (strings.IndexRune valid (fst (reading l))) 0); [|lia].
    split; [reflexivity|].
    assert (fst (reading l) <> EOFRune) as Hr.
    { intros E0. rewrite E0, IndexRune_EOFRune in Hm. lia. }
    pose proof (Next_progress l Hi Hr) as Hpr. unfold remaining in Hpr.
    cbn [after_Next source position] in *. lia.
  - destruct (Z.geb_spec (strings.IndexRune valid (fst (reading l))) 0); [lia|].
    unfold bind. rewrite Backup_eq, (Backup_undoes_Next l Hu). reflexivity.
Qed.

(** Property X6.  On a source that is valid UTF-8, [n] calls of [Next]
    followed by [n] calls of [Backup] bring the lexer back to the state
    before them, also when some of the calls of [Next] were made at the end
    of the source. *)
Theorem Backup_undoes_Next_n_times
        (src : gostring) (st : option State) (c : Chan)
        (os : list (op any)) (n : nat) l :
  utf8.ValidString src = true ->
  exec_all Sprintf os (set_tokens c (New src st)) = Ok (tt, l) ->
  exists l1, Next_n n l = Ok (tt, l1) /\ Backup_n n l1 = Ok (tt, l).
Proof.
  intros Hv E. apply Next_Backup_round_trip.
  apply (utf8_inv_reachable Sprintf src st c os l Hv E).
Qed.

(** Property X7.  On a source that is valid UTF-8, the runes of the history
    other than the end sentinel, the oldest first, are the runes of the
    pending span, and the pending span is valid UTF-8. *)
Theorem history_is_runes_of_span
        (src : gostring) (st : option State) (c : Chan)
        (os : list (op any)) l :
  utf8.ValidString src = true ->
  exec_all Sprintf os (set_tokens c (New src st)) = Ok (tt, l) ->
  exists val,
    Current l = Ok (val, l) /\
    map fst (utf8.runes val) = rev (read_runes (history l)) /\
    utf8.ValidString val = true.
Proof.
  intros Hv E.
  destruct (utf8_inv_reachable Sprintf src st c os l Hv E)
    as [_ (a & b & c0 & Hs & Ha & Hp & Hc & _)].
  exists b. rewrite Current_eq, (span_split l a b c0 Hs Ha Hp).
  split; [reflexivity|]. split; [apply clean_runes; exact Hc|].
  rewrite <- (app_nil_r b). rewrite (clean_ValidString _ _ [] Hc). reflexivity.
Qed.

End Cursor.

Lemma CountByte_app s t c :
  bytes.CountByte (s ++ t) c = bytes.CountByte s c + bytes.CountByte t c.
Proof.
  induction s as [|b s IH]; cbn [app bytes.CountByte]; [lia|]. rewrite IH. lia.
Qed.

Lemma firstn_slice (src : gostring) (lo hi : Z) val :
  slice src lo hi = Some val ->
  firstn (Z.to_nat hi) src = firstn (Z.to_nat lo) src ++ val /\
  len val = hi - lo.
Proof.
  unfold slice.
  destruct (Z.leb_spec 0 lo), (Z.leb_spec lo hi), (Z.leb_spec hi (len src));
    cbn [andb]; try discriminate.
  intros E. inversion E. clear E. split.
  - replace (Z.to_nat hi) with (Z.to_nat lo + Z.to_nat (hi - lo))%nat by lia.
    rewrite <- (firstn_skipn (Z.to_nat lo) src) at 1.
    rewrite firstn_app, length_firstn.
    replace (Nat.min (Z.to_nat lo) (length src)) with (Z.to_nat lo)
      by (unfold len in *; lia).
    rewrite firstn_firstn.
    replace (Nat.min (Z.to_nat lo + Z.to_nat (hi - lo)) (Z.to_nat lo))
      with (Z.to_nat lo) by lia.
    f_equal. f_equal. lia.
  - unfold len in *. rewrite length_firstn, length_skipn. lia.
Qed.

Section Lines.

Context {State any : Type}.
Variable Sprintf : gostring -> list any -> gostring.
Implicit Types l : Lexer State.

Lemma line_inv_prim l l' : inv l -> line_inv l -> prim l l' -> line_inv l'.
Proof.
  intros Hi Hl Hp. destruct Hp as [l l' Hm|l val Hs|l tok c Hc].
  - destruct (move_frame _ _ Hm) as (Hsrc & Hst & Hln & _).
    unfold line_inv. rewrite Hsrc, Hst, Hln. exact Hl.
  - unfold line_inv, after_boundary. fields.
    destruct (firstn_slice _ _ _ _ Hs) as [-> _].
    rewrite CountByte_app. unfold line_inv in Hl. lia.
  - exact Hl.
Qed.


Lemma line_inv_New src (st : option State) c :
  line_inv (set_tokens c (New src st)).
Proof. reflexivity. Qed.

Lemma line_inv_reachable src (st : option State) c os l :
  exec_all Sprintf os (set_tokens c (New src st)) = Ok (tt, l) ->
  line_inv l.
Proof.
  intros E.
  apply (exec_all_invariant Sprintf line_inv line_inv_prim os
                            (set_tokens c (New src st)) l);
    [apply inv_New|apply line_inv_New|exact E].
Qed.

(** Property X8.  In every state that the operations reach, [line] is one
    plus the number of newline bytes of the source before [start]. *)
Theorem line_counts_newlines_before_start
        (src : gostring) (st : option State) (c : Chan)
        (os : list (op any)) l :
  exec_all Sprintf os (set_tokens c (New src st)) = Ok (tt, l) ->
  line l = 1 + bytes.CountByte (firstn (Z.to_nat (start l)) src) lineSep.
Proof.
  intros E. pose proof (line_inv_reachable src st c os l E) as H.
  assert (inv (set_tokens c (New src st))) as Hi by apply inv_New.
  pose proof (exec_all_stepwise Sprintf os _ Hi) as Hs. rewrite E in Hs.
  unfold line_inv in H. rewrite (steps_source _ _ Hs) in H. exact H.
Qed.

(** What an operation that returns has done: it has left the channel as it
    was, or it is an [Emit] that has sent the token of the pending span,
    or an [Error] that has sent its token. *)
Lemma exec_cases o l l' :
  inv l -> exec Sprintf o l = Ok (tt, l') ->
  steps l l' /\
  (tokens l' = tokens l \/
   (exists t val c,
       o = OEmit t /\ span l = Some val /\
       chan_send (mkToken t val (position l) (line l)) (tokens l) = Ok c /\
       l' = after_boundary val (set_tokens c l)) \/
   (exists format args c,
       o = OError format args /\
       chan_send (error_token Sprintf format args l) (tokens l) = Ok c /\
       l' = set_tokens c l)).
Proof.
  intros Hi E. split.
  { pose proof (exec_stepwise Sprintf o l Hi) as Hs. rewrite E in Hs. exact Hs. }
  assert (forall m : M State unit,
             chan_free m -> m l = Ok (tt, l') -> tokens l' = tokens l) as Hfree
      by (intros m Hf Em; apply (chan_free_tokens m l tt l' Hf Em)).
  assert (forall A (m : M State A), chan_free m -> chan_free (m ;;; ret tt)) as Hdrop.
  { intros A m Hf. apply chan_free_bind; [exact Hf|]. intros _. apply chan_free_ret. }
  destruct o; cbn [exec] in E.
  - left. apply (Hfree _ (Hdrop _ _ chan_free_Next) E).
  - left. apply (Hfree _ chan_free_Backup E).
  - left. apply (Hfree _ (Hdrop _ _ chan_free_Peek) E).
  - left. apply (Hfree _ (Hdrop _ _ (chan_free_Accept valid)) E).
  - left. apply (Hfree _ (Hdrop _ _ (chan_free_AcceptRun valid)) E).
  - left. apply (Hfree _ chan_free_SkipWhitespace E).
  - right. left. rewrite Emit_eq in E.
    destruct (span l) as [val|]; [|discriminate].
    destruct (chan_send _ _) as [c| | |] eqn:Es; try discriminate.
    cbn in E. inversion E. exists t, val, c. auto.
  - left. apply (Hfree _ chan_free_Ignore E).
  - right. right. unfold bind in E. rewrite Error_eq in E.
    fold (error_token Sprintf format args l) in E.
    destruct (chan_send _ _) as [c| | |] eqn:Es; try discriminate.
    cbn in E. inversion E. exists format, args, c. auto.
Qed.

Lemma prim_start_mono l l' : inv l -> prim l l' -> start l <= start l'.
Proof.
  intros [(H0 & H1 & _) _] Hp. destruct Hp as [l l' Hm| |].
  - destruct (move_frame _ _ Hm) as (_ & -> & _). lia.
  - cbn. lia.
  - cbn. lia.
Qed.

Lemma steps_start_mono l l' : inv l -> steps l l' -> start l <= start l'.
Proof.
  intros Hi Hs. induction Hs as [|l1 l2 l3 Hp _ IH]; [lia|].
  pose proof (prim_start_mono _ _ Hi Hp). pose proof (inv_prim _ _ Hi Hp) as Hi2.
  specialize (IH Hi2). lia.
Qed.

Lemma last_default {A} (xs : list A) (d d' : A) :
  xs <> [] -> last xs d = last xs d'.
Proof.
  induction xs as [|x xs IH]; intros H; [contradiction|].
  destruct xs as [|y xs]; [reflexivity|]. cbn [last] in *. apply IH. discriminate.
Qed.

Lemma last_end_snoc lo toks t : last_end lo (toks ++ [t]) = Position t.
Proof. unfold last_end. rewrite map_app. cbn [map]. apply last_last. Qed.

Lemma tiles_snoc src lo toks t :
  tiles src lo toks ->
  last_end lo toks <= Position t - len (Value t) ->
  slice src (Position t - len (Value t)) (Position t) = Some (Value t) ->
  Line t = 1 + bytes.CountByte
                 (firstn (Z.to_nat (Position t - len (Value t))) src) lineSep ->
  tiles src lo (toks ++ [t]).
Proof.
  revert lo. induction toks as [|t0 toks IH]; intros lo Ht Hl Hs Hn.
  - cbn. auto.
  - cbn [app tiles] in *. destruct Ht as (H1 & H2 & H3 & H4).
    repeat (split; [assumption|]). apply IH; try assumption.
    unfold last_end in *. cbn [map] in Hl.
    destruct (map Position toks) as [|z zs] eqn:Em.
    + cbn in *. destruct (firstn_slice _ _ _ _ Hs). lia.
    + cbn [last] in Hl. rewrite (last_default (z :: zs) _ lo); [exact Hl|discriminate].
Qed.

Lemma tiled_exec src o l l' :
  inv l -> line_inv l -> source l = src -> tiled src l ->
  exec Sprintf o l = Ok (tt, l') -> tiled src l'.
Proof.
  intros Hi Hl Hsrc [Ht Hle] E.
  destruct (exec_cases o l l' Hi E) as [Hs [Htk|[(t & val & c & _ & Hv & Hc & ->)
                                                 |(f & a & c & _ & Hc & ->)]]].
  - pose proof (steps_start_mono _ _ Hi Hs). unfold tiled. rewrite Htk.
    split; [exact Ht|lia].
  - destruct (chan_send_Ok_inv _ _ _ Hc) as (_ & _ & ->).
    unfold tiled, after_boundary. fields. rewrite filter_app. cbn [filter].
    pose proof (span_Some _ _ Hv) as [H01 H2].
    destruct (firstn_slice _ _ _ _ Hv) as [_ Hlen].
    destruct (non_error _) eqn:Hne.
    + split; [|rewrite last_end_snoc; cbn; lia].
      apply tiles_snoc; cbn [Position Value Line]; try assumption.
      * lia.
      * replace (position l - len val) with (start l) by lia.
        rewrite <- Hsrc. exact Hv.
      * replace (position l - len val) with (start l) by lia.
        rewrite <- Hsrc. exact Hl.
    + rewrite app_nil_r. split; [exact Ht|lia].
  - destruct (chan_send_Ok_inv _ _ _ Hc) as (_ & _ & ->).
    unfold tiled. fields. rewrite filter_app. cbn [filter].
    change (non_error (error_token Sprintf f a l)) with false.
    rewrite app_nil_r. split; assumption.
Qed.

(** Property X9.  The tokens in the channel that are not error tokens come
    in the order of the source and do not overlap: the value of each is the
    slice of the source that ends at its [Position], it begins no earlier
    than the previous one ends, and its [Line] is one plus the number of
    newline bytes before its beginning.  The last of them ends no later
    than [start]. *)
Theorem tokens_tile_the_source
        (cap : Z) (src : gostring) (st : option State)
        (os : list (op any)) l :
  exec_all Sprintf os (started cap src st) = Ok (tt, l) ->
  tiles src 0 (filter non_error (ch_buf (tokens l))) /\
  last_end 0 (filter non_error (ch_buf (tokens l))) <= start l.
Proof.
  assert (forall os (l0 : Lexer State),
             inv l0 -> line_inv l0 -> source l0 = src -> tiled src l0 ->
             exec_all Sprintf os l0 = Ok (tt, l) -> tiled src l) as H.
  { clear os. induction os as [|o os IH]; intros l0 Hi Hl Hsrc Ht E.
    - cbn in E. inversion E; subst. exact Ht.
    - cbn [exec_all] in E. unfold bind in E.
      destruct (exec Sprintf o l0) as [[[] l1]| | |] eqn:Eo; try discriminate.
      destruct (exec_cases o l0 l1 Hi Eo) as [Hs _].
      apply (IH l1); try assumption.
      + apply (inv_steps _ _ Hi Hs).
      + apply (steps_invariant line_inv line_inv_prim _ _ Hi Hl Hs).
      + rewrite (steps_source _ _ Hs). exact Hsrc.
      + apply (tiled_exec src o l0 l1); assumption. }
  intros E. apply (H os (started cap src st)); try assumption.
  - apply inv_New.
  - reflexivity.
  - reflexivity.
  - split; [exact I|]. cbn. lia.
Qed.

End Lines.

Section Sends.

Context {State any : Type}.
Variable Sprintf : gostring -> list any -> gostring.
Implicit Types l : Lexer State.

Lemma sends_cons o (os : list (op any)) :
  sends (o :: os) = (if sends_token o then 1 else 0) + sends os.
Proof.
  unfold sends. cbn [filter]. destruct (sends_token o); [rewrite len_cons|]; lia.
Qed.

Lemma sends_nonneg (os : list (op any)) : 0 <= sends os.
Proof. apply len_nonneg. Qed.

(** An operation that sends nothing returns, and leaves the channel as it
    is. *)
Lemma exec_silent o l :
  inv l -> sends_token o = false ->
  exists l', exec Sprintf o l = Ok (tt, l') /\ tokens l' = tokens l /\ inv l'.
Proof.
  intros Hi Hs.
  assert (forall l', moves l l' -> tokens l' = tokens l /\ inv l') as Hm.
  { intros l' H. split; [apply (moves_frame _ _ H)|].
    apply (inv_steps _ _ Hi (moves_steps _ _ H)). }
  destruct o; try discriminate; cbn [exec]; unfold bind.
  - destruct (Next_Ok l Hi) as (E & Hmv & _). rewrite E.
    eexists. split; [reflexivity|]. apply Hm, moves_one, Hmv.
  - rewrite Backup_eq. eexists. split; [reflexivity|].
    apply Hm, moves_one. constructor.
  - destruct (Peek_moves l Hi) as (r & l' & E & H). rewrite E.
    eexists. split; [reflexivity|]. apply Hm, H.
  - destruct (Accept_moves valid l Hi) as (b & l' & E & H). rewrite E.
    eexists. split; [reflexivity|]. apply Hm, H.
  - destruct (AcceptRun_moves valid l Hi) as (n & l' & E & H). rewrite E.
    eexists. split; [reflexivity|]. apply Hm, H.
  - destruct (SkipWhitespace_moves l Hi) as (l' & E & H).
    exists l'. split; [exact E|]. apply Hm, H.
  - rewrite Ignore_eq. destruct (inv_span l Hi) as [val Hv]. rewrite Hv.
    eexists. split; [reflexivity|]. split; [reflexivity|].
    apply (inv_prim l); [exact Hi|]. apply prim_boundary. exact Hv.
Qed.

(** An operation that sends a token, on a channel with the given
    outcome of the send. *)
Lemma exec_sending o l :
  inv l -> sends_token o = true ->
  exists tok,
    match chan_send tok (tokens l) with
    | Ok c => exists l', exec Sprintf o l = Ok (tt, l') /\ tokens l' = c /\ inv l'
    | Panic => exec Sprintf o l = Panic
    | Blocked => exec Sprintf o l = Blocked
    | Timeout => False
    end.
Proof.
  intros Hi Hs. destruct o; try discriminate; cbn [exec].
  - rewrite Emit_eq. destruct (inv_span l Hi) as [val Hv]. rewrite Hv.
    exists (mkToken t val (position l) (line l)).
    destruct (chan_send _ _) as [c| | |] eqn:Ec; cbn [lift_outcome]; try reflexivity.
    + eexists. split; [reflexivity|]. split; [reflexivity|].
      apply (inv_prim (set_tokens c l)); [exact Hi|]. apply prim_boundary. exact Hv.
    + exact (chan_send_not_Timeout _ _ Ec).
  - unfold bind. rewrite Error_eq.
    exists (mkToken ErrorToken (Sprintf format args) (position l) (line l)).
    destruct (chan_send _ _) as [c| | |] eqn:Ec; cbn [lift_outcome]; try reflexivity.
    + eexists. split; [reflexivity|]. split; [reflexivity|exact Hi].
    + exact (chan_send_not_Timeout _ _ Ec).
Qed.

Lemma exec_all_room os : forall l,
  inv l -> ch_state (tokens l) = ChOpen ->
  len (ch_buf (tokens l)) + sends os <= ch_cap (tokens l) ->
  exists l',
    exec_all Sprintf os l = Ok (tt, l') /\
    ch_state (tokens l') = ChOpen /\
    len (ch_buf (tokens l')) = len (ch_buf (tokens l)) + sends os /\
    inv l'.
Proof.
  induction os as [|o os IH]; intros l Hi Ho Hc.
  - exists l. split; [reflexivity|]. split; [exact Ho|]. split; [|exact Hi].
    change (sends (@nil (op any))) with 0. lia.
  - rewrite sends_cons in Hc. pose proof (sends_nonneg os) as Hnn.
    cbn [exec_all]. unfold bind. rewrite sends_cons.
    destruct (sends_token o) eqn:Hs.
    + destruct (exec_sending o l Hi Hs) as [tok H].
      rewrite chan_send_ok in H by (assumption || lia).
      destruct H as (l1 & -> & Htk & Hi1).
      destruct (IH l1 Hi1) as (l' & E & Ho' & Hl' & Hi');
        rewrite ?Htk; cbn [ch_state ch_cap ch_buf]; try reflexivity.
      * rewrite len_app, len_cons, len_nil. lia.
      * exists l'. rewrite Htk in Hl'. cbn [ch_buf] in Hl'.
        rewrite len_app, len_cons, len_nil in Hl'.
        split; [exact E|]. split; [exact Ho'|]. split; [lia|exact Hi'].
    + destruct (exec_silent o l Hi Hs) as (l1 & -> & Htk & Hi1).
      destruct (IH l1 Hi1) as (l' & E & Ho' & Hl' & Hi'); rewrite ?Htk; try assumption.
      exists l'. rewrite Htk in Hl'. split; [exact E|].
      split; [exact Ho'|]. split; [lia|exact Hi'].
Qed.

(** Property X10.  On a lexer whose channel has been made with capacity
    [cap], a sequence of operations with at most [cap] calls of [Emit] and
    [Error] returns, with neither a panic nor a wait, and the channel then
    holds one token for each of these calls. *)
Theorem operations_return_while_channel_has_room
        (cap : Z) (src : gostring) (st : option State) (os : list (op any)) :
  sends os <= cap ->
  exists l,
    exec_all Sprintf os (started cap src st) = Ok (tt, l) /\
    len (ch_buf (tokens l)) = sends os.
Proof.
  intros H.
  destruct (exec_all_room os (started cap src st)) as (l & E & _ & Hl & _).
  - apply inv_New.
  - reflexivity.
  - cbn. lia.
  - exists l. split; [exact E|]. cbn in Hl. lia.
Qed.

Lemma exec_all_nil_chan os : forall l,
  inv l -> ch_state (tokens l) = ChNil ->
  if 0 <? sends os then exec_all Sprintf os l = Blocked
  else exists l', exec_all Sprintf os l = Ok (tt, l') /\ tokens l' = tokens l.
Proof.
  induction os as [|o os IH]; intros l Hi Hn.
  - cbn. exists l. split; reflexivity.
  - rewrite sends_cons. pose proof (sends_nonneg os) as Hnn.
    cbn [exec_all]. unfold bind.
    destruct (sends_token o) eqn:Hs.
    + replace (0 <? 1 + sends os) with true by (symmetry; apply Z.ltb_lt; lia).
      destruct (exec_sending o l Hi Hs) as [tok H].
      unfold chan_send in H. rewrite Hn in H. rewrite H. reflexivity.
    + destruct (exec_silent o l Hi Hs) as (l1 & -> & Htk & Hi1).
      specialize (IH l1 Hi1). rewrite Htk in IH. specialize (IH Hn).
      change (0 + sends os) with (sends os).
      destruct (0 <? sends os); [exact IH|].
      destruct IH as (l' & E & Ht). exists l'. split; [exact E|].
      rewrite Ht. reflexivity.
Qed.

(** Property X11.  On the lexer that [New] returns, whose channel is nil
    until [StartSync] makes it, a sequence of operations with a call of
    [Emit] or [Error] blocks for ever, and so does [NextToken]; a sequence
    without such a call returns. *)
Theorem unstarted_lexer_blocks_on_first_send
        (src : gostring) (st : option State) (os : list (op any)) :
  0 < sends os ->
  exec_all Sprintf os (New src st) = Blocked /\
  NextToken (New src st) = Blocked /\
  (forall os', sends os' = 0 ->
               exists l, exec_all Sprintf os' (New src st) = Ok (tt, l)).
Proof.
  intros H. split; [|split].
  - pose proof (exec_all_nil_chan os (New src st) (inv_New src st) eq_refl) as E.
    replace (0 <? sends os) with true in E by (symmetry; apply Z.ltb_lt; lia).
    exact E.
  - reflexivity.
  - intros os' H'.
    pose proof (exec_all_nil_chan os' (New src st) (inv_New src st) eq_refl) as E.
    rewrite H' in E. cbn in E. destruct E as (l & E & _). exists l. exact E.
Qed.

End Sends.

Section Runs.

Context {State any : Type}.
Variable Sprintf : gostring -> list any -> gostring.
Implicit Types l : Lexer State.

Lemma stepwise_ret {A} (a : A) l : stepwise l (ret a l).
Proof. cbn. constructor. Qed.

(** The loop of [run] over a grammar of engine operations. *)
Lemma run_loop_steps (trans : State -> M State (option State)) :
  engine_grammar trans ->
  forall fuel st l,
    inv l ->
    match run_loop trans fuel st l with
    | Ok (_, l') => steps l l'
    | Panic => ch_state (tokens l) = ChClosed
    | _ => True
    end.
Proof.
  intros Hg. induction fuel as [|fuel IH]; intros st l Hi.
  - destruct st; cbn; [exact I|constructor].
  - destruct st as [s|]; cbn [run_loop]; [|cbn; constructor].
    unfold bind. pose proof (Hg s l Hi) as Hs.
    destruct (trans s l) as [[st' l1]| | |]; cbn in Hs; try assumption; try exact I.
    pose proof (inv_steps _ _ Hi Hs) as Hi1.
    specialize (IH st' l1 Hi1).
    destruct (run_loop trans fuel st' l1) as [[u l2]| | |]; try exact I.
    + eapply steps_trans; eassumption.
    + rewrite <- (steps_ch_state _ _ Hs). exact IH.
Qed.

(** The steps keep the channel open and within its capacity. *)
Lemma capacity_prim l l' :
  ch_state (tokens l) = ChOpen /\ len (ch_buf (tokens l)) <= ch_cap (tokens l) ->
  prim l l' ->
  (ch_state (tokens l') = ChOpen /\ len (ch_buf (tokens l')) <= ch_cap (tokens l'))
  /\ ch_cap (tokens l') = ch_cap (tokens l).
Proof.
  intros [Ho Hc] Hp. destruct Hp as [l l' Hm|l val Hs|l tok c Hs].
  - destruct (move_frame _ _ Hm) as (_ & _ & _ & -> & _). auto.
  - cbn. auto.
  - destruct (chan_send_Ok_inv _ _ _ Hs) as (_ & Hr & ->). cbn.
    rewrite len_app, len_cons, len_nil. repeat split; lia.
Qed.

Lemma capacity_steps l l' :
  ch_state (tokens l) = ChOpen -> len (ch_buf (tokens l)) <= ch_cap (tokens l) ->
  steps l l' ->
  ch_state (tokens l') = ChOpen /\
  len (ch_buf (tokens l')) <= ch_cap (tokens l) /\
  ch_cap (tokens l') = ch_cap (tokens l).
Proof.
  intros Ho Hc Hs. induction Hs as [|l1 l2 l3 Hp _ IH]; [auto|].
  destruct (capacity_prim l1 l2 (conj Ho Hc) Hp) as [[Ho2 Hc2] Hcap].
  destruct (IH Ho2 Hc2) as (? & ? & ?). rewrite Hcap in *. auto.
Qed.

(** The capacity that [StartSync] gives the channel. *)
Lemma buffSize_max (src : gostring) :
  (if len src / 2 <=? 0 then 1 else len src / 2) = Z.max 1 (len src / 2).
Proof. destruct (Z.leb_spec (len src / 2) 0); lia. Qed.

Lemma StartSync_outcome (trans : State -> M State (option State)) fuel src st :
  engine_grammar trans ->
  match StartSync trans fuel (New src st) with
  | Ok (_, l') =>
    steps (started (Z.max 1 (len src / 2)) src st)
          (set_tokens (mkChan ChOpen (ch_cap (tokens l')) (ch_buf (tokens l'))) l')
    /\ ch_state (tokens l') = ChClosed
    /\ ch_cap (tokens l') = Z.max 1 (len src / 2)
    /\ len (ch_buf (tokens l')) <= Z.max 1 (len src / 2)
  | Panic => False
  | _ => True
  end.
Proof.
  intros Hg. unfold StartSync. unfold bind at 1, get at 1.
  unfold bind at 1, modify at 1. cbn [New source].
  rewrite buffSize_max. fold (New src st).
  change (set_tokens (make_chan (Z.max 1 (len src / 2))) (New src st))
    with (started (Z.max 1 (len src / 2)) src st).
  set (l0 := started (Z.max 1 (len src / 2)) src st).
  assert (inv l0) as Hi by apply inv_New.
  unfold run. unfold bind at 1, get at 1. unfold bind at 1.
  pose proof (run_loop_steps trans Hg fuel (startState l0) l0 Hi) as Hs.
  destruct (run_loop trans fuel (startState l0) l0) as [[u l1]| | |];
    try exact I; [|discriminate Hs].
  destruct (capacity_steps l0 l1 eq_refl) as (Ho & Hc & Hcap); [cbn; lia|exact Hs|].
  unfold on_tokens, chan_close. rewrite Ho. cbn [tokens set_tokens ch_state ch_cap ch_buf].
  rewrite Hcap. cbn [l0 started tokens set_tokens make_chan ch_cap] in *.
  split; [|split; [reflexivity|split; [reflexivity|exact Hc]]].
  replace (set_tokens _ (set_tokens _ l1)) with l1; [exact Hs|].
  destruct l1 as [? ? ? ? ? ? [? ? ?] ?]; cbn in *. subst. reflexivity.
Qed.

(** Property X12.  When [StartSync] returns, for state functions that are
    made of the operations of the engine, the channel is closed and holds
    at most [max 1 (len src / 2)] tokens, the size of the buffer, and the
    invariant of the cursor holds. *)
Theorem StartSync_fills_at_most_the_buffer
        (trans : State -> M State (option State)) (fuel : nat)
        (src : gostring) (st : option State) l' :
  engine_grammar trans ->
  StartSync trans fuel (New src st) = Ok (tt, l') ->
  ch_state (tokens l') = ChClosed /\
  len (ch_buf (tokens l')) <= Z.max 1 (len src / 2) /\
  cursor_inv l'.
Proof.
  intros Hg E. pose proof (StartSync_outcome trans fuel src st Hg) as H.
  rewrite E in H. destruct H as (Hs & Hc & _ & Hl).
  split; [exact Hc|]. split; [exact Hl|].
  assert (inv (started (Z.max 1 (len src / 2)) src st)) as Hi by apply inv_New.
  apply (inv_steps _ _ Hi Hs).
Qed.


End Runs.

Section Scanning.

Context {State any : Type}.
Variable Sprintf : gostring -> list any -> gostring.
Implicit Types l : Lexer State.

Lemma source_at_position l :
  inv l ->
  source l = firstn (Z.to_nat (position l)) (source l) ++ rest l /\
  len (firstn (Z.to_nat (position l)) (source l)) = position l.
Proof.
  intros Hi. pose proof (inv_position l Hi) as Hp.
  split; [unfold rest; symmetry; apply firstn_skipn|].
  unfold len in *. rewrite length_firstn. lia.
Qed.

(** The loop of [SkipWhitespace] on a source that is valid UTF-8: the
    runes [rs] that follow the position are white space and what comes
    after them is the end of the source or a rune that is not. *)
Lemma SkipWhitespace_loop_run pre rs :
  clean pre rs ->
  Forall (fun r => unicode.IsSpace r = true) rs ->
  forall post fuel l a0,
    utf8_inv l ->
    source l = a0 ++ pre ++ post -> len a0 = position l ->
    post = [] \/ unicode.IsSpace (fst (utf8.DecodeRuneInString post)) = false ->
    remaining l < Z.of_nat fuel ->
    let l1 := Nat.iter (length rs) after_Next l in
    SkipWhitespace_loop fuel l = Ok (tt, l1) /\
    utf8_inv l1 /\ position l1 = position l + len pre.
Proof.
  induction 1 as [|c s r rs Hc Hd Hnv Hcl IH];
    intros Hall post fuel l a0 Hu Hs Hp Hpost Hf.
  - cbn [app] in Hs. cbn [length Nat.iter len Z.of_nat].
    pose proof (utf8_inv_inv l Hu) as Hi.
    destruct fuel as [|fuel]; [pose proof (inv_remaining l Hi); lia|].
    destruct (Next_Ok l Hi) as (E & _ & _).
    cbn [SkipWhitespace_loop]. rewrite (bind_Ok _ _ _ _ _ E).
    assert (unicode.IsSpace (fst (reading l)) = false) as Hm.
    { unfold reading. rewrite (rest_at l a0 post Hs Hp).
      destruct post as [|p0 post]; [reflexivity|].
      destruct Hpost as [?|Hpost]; [discriminate|].
      replace (len (p0 :: post) =? 0) with false; [exact Hpost|].
      symmetry. apply Z.eqb_neq. pose proof (len_pos_cons p0 post). lia. }
    rewrite Hm. cbn [negb]. rewrite Backup_eq, (Backup_undoes_Next _ Hu).
    rewrite Z.add_0_r. split; [reflexivity|]. split; [exact Hu|reflexivity].
  - inversion Hall as [|? ? Hr Hall']; subst.
    pose proof (utf8_inv_inv l Hu) as Hi.
    pose proof (enc_clean c r Hc Hd Hnv) as He.
    destruct fuel as [|fuel]; [pose proof (inv_remaining l Hi); lia|].
    destruct (Next_Ok l Hi) as (E & Hmv & _).
    cbn [SkipWhitespace_loop]. rewrite (bind_Ok _ _ _ _ _ E).
    assert (reading l = (r, len c)) as Hrd.
    { unfold reading. rewrite <- app_assoc in Hs.
      rewrite (rest_at l a0 _ Hs Hp).
      replace (len (c ++ s ++ post) =? 0) with false;
        [apply Decode_enc; exact He|].
      symmetry. apply Z.eqb_neq. rewrite len_app.
      pose proof (enc_len _ _ He). pose proof (len_nonneg (s ++ post)). lia. }
    rewrite Hrd. cbn [fst]. rewrite Hr. cbn [negb].
    assert (r <> EOFRune) as Hne
        by (intros ->; rewrite IsSpace_EOFRune in Hr; discriminate).
    destruct (Z.eqb_spec r EOFRune) as [?|_]; [contradiction|].
    assert (utf8_inv (after_Next l)) as Hu'
        by (apply (utf8_inv_prim l); [exact Hu|apply prim_move; exact Hmv]).
    pose proof (enc_len _ _ He) as Hlc.
    destruct (IH Hall' post fuel (after_Next l) (a0 ++ c)) as (E' & Hu'' & Hp').
    + exact Hu'.
    + cbn [after_Next source]. rewrite Hs, <- !app_assoc. reflexivity.
    + unfold after_Next. fields. rewrite Hrd, len_app. cbn [snd]. lia.
    + exact Hpost.
    + unfold remaining, after_Next in *. fields. rewrite Hrd. cbn [snd]. lia.
    + cbn zeta in *. rewrite E'.
      cbn [length]. rewrite Nat.iter_succ_r.
      split; [reflexivity|]. split; [exact Hu''|].
      rewrite Hp'. unfold after_Next. fields. rewrite Hrd, len_app. cbn [snd]. lia.
Qed.

Lemma iter_Next_frame n l :
  utf8_inv l -> moves l (Nat.iter n after_Next l).
Proof.
  induction n as [|n IH]; intros Hu; [constructor|].
  destruct (Next_n_eq n l Hu) as [_ Hun].
  eapply moves_trans; [apply IH; exact Hu|].
  apply moves_one. cbn [Nat.iter]. constructor.
  apply inv_position, utf8_inv_inv, Hun.
Qed.

(** Property X14.  On a source that is valid UTF-8, in every state that the
    operations reach, [AcceptRun valid] consumes the longest run of runes
    of [valid] that follows the position: it returns their number, the
    position is behind their encodings, at the first rune that is not in
    [valid] or at the end of the source, and [start], [line] and the
    channel are as they were. *)
Theorem AcceptRun_consumes_maximal_run
  (src : gostring) (st : option State) (c : Chan) (os : list (op any)) l
  (valid pre post : gostring) (rs : list rune) :
  utf8.ValidString src = true ->
  exec_all Sprintf os (set_tokens c (New src st)) = Ok (tt, l) ->
  rest l = pre ++ post ->
  clean pre rs ->
  Forall (fun r => strings.IndexRune valid r >= 0) rs ->
  post = [] \/ strings.IndexRune valid (fst (utf8.DecodeRuneInString post)) < 0 ->
  exists l',
    AcceptRun valid l = Ok (len rs, l') /\
    rest l' = post /\
    position l' = position l + len pre /\
    start l' = start l /\ line l' = line l /\ tokens l' = tokens l.
Proof.
  intros Hv E Hr Hc Hall Hpost.
  pose proof (utf8_inv_reachable Sprintf src st c os l Hv E) as Hu.
  pose proof (utf8_inv_inv l Hu) as Hi.
  destruct (source_at_position l Hi) as [Hs Hp]. rewrite Hr in Hs.
  destruct (AcceptRun_loop_run valid pre rs Hc Hall post (loop_fuel l) 0 l _
              Hu Hs Hp Hpost (loop_fuel_enough l Hi)) as (E1 & Hu1 & Hp1).
  unfold AcceptRun. unfold bind at 1, get at 1.
  rewrite (bind_Ok _ _ _ _ _ E1). unfold bind. rewrite Backup_eq.
  rewrite (Backup_undoes_Next _ Hu1).
  destruct (moves_frame _ _ (iter_Next_frame (length rs) l Hu))
    as (Hsrc & Hst & Hln & Htk & _).
  eexists. split; [reflexivity|].
  split; [|split; [exact Hp1|split; [exact Hst|split; [exact Hln|exact Htk]]]].
  apply (rest_at _ (firstn (Z.to_nat (position l)) (source l) ++ pre) post).
  - rewrite Hsrc. rewrite Hs at 1. rewrite app_assoc. reflexivity.
  - rewrite len_app. lia.
Qed.

(** Property X15.  On a source that is valid UTF-8, in every state that the
    operations reach, [SkipWhitespace] consumes the longest run of white
    space that follows the position and stops at the first rune that is
    not white space or at the end of the source; [start], [line] and the
    channel are as they were, so that nothing is sent. *)
Theorem SkipWhitespace_consumes_maximal_run
  (src : gostring) (st : option State) (c : Chan) (os : list (op any)) l
  (pre post : gostring) (rs : list rune) :
  utf8.ValidString src = true ->
  exec_all Sprintf os (set_tokens c (New src st)) = Ok (tt, l) ->
  rest l = pre ++ post ->
  clean pre rs ->
  Forall (fun r => unicode.IsSpace r = true) rs ->
  post = [] \/ unicode.IsSpace (fst (utf8.DecodeRuneInString post)) = false ->
  exists l',
    SkipWhitespace l = Ok (tt, l') /\
    rest l' = post /\
    position l' = position l + len pre /\
    start l' = start l /\ line l' = line l /\ tokens l' = tokens l.
Proof.
  intros Hv E Hr Hc Hall Hpost.
  pose proof (utf8_inv_reachable Sprintf src st c os l Hv E) as Hu.
  pose proof (utf8_inv_inv l Hu) as Hi.
  destruct (source_at_position l Hi) as [Hs Hp]. rewrite Hr in Hs.
  destruct (SkipWhitespace_loop_run pre rs Hc Hall post (loop_fuel l) l _
              Hu Hs Hp Hpost (loop_fuel_enough l Hi)) as (E1 & Hu1 & Hp1).
  unfold SkipWhitespace. unfold bind at 1, get at 1. rewrite E1.
  destruct (moves_frame _ _ (iter_Next_frame (length rs) l Hu))
    as (Hsrc & Hst & Hln & Htk & _).
  eexists. split; [reflexivity|].
  split; [|split; [exact Hp1|split; [exact Hst|split; [exact Hln|exact Htk]]]].
  apply (rest_at _ (firstn (Z.to_nat (position l)) (source l) ++ pre) post).
  - rewrite Hsrc. rewrite Hs at 1. rewrite app_assoc. reflexivity.
  - rewrite len_app. lia.
Qed.

(** Property X16.  As long as the channel of the lexer is not closed, no
    sequence of operations panics, and the loops of [AcceptRun] and
    [SkipWhitespace] end: an operation either returns or waits on the
    channel. *)
Theorem operations_never_panic_before_close
  (src : gostring) (st : option State) (c : Chan) (os : list (op any)) :
  ch_state c <> ChClosed ->
  exec_all Sprintf os (set_tokens c (New src st)) <> Panic /\
  exec_all Sprintf os (set_tokens c (New src st)) <> Timeout.
Proof.
  intros Hc.
  assert (inv (set_tokens c (New src st))) as Hi by apply inv_New.
  pose proof (exec_all_stepwise Sprintf os _ Hi) as Hs.
  split; intros E; rewrite E in Hs; cbn in Hs; [contradiction|exact Hs].
Qed.

(** Property X17.  [Ignore] is [Emit] without the token: where [Emit]
    returns, [Ignore] returns the lexer that [Emit] leaves, with the
    channel as it was before. *)
Theorem Ignore_is_Emit_without_send (t : TokenType) l l1 :
  Emit t l = Ok (tt, l1) ->
  Ignore l = Ok (tt, set_tokens (tokens l) l1).
Proof.
  rewrite Emit_eq, Ignore_eq. destruct (span l) as [val|]; [|discriminate].
  destruct (chan_send _ _) as [c'| | |]; cbn; try discriminate.
  intros H. inversion H. destruct l; reflexivity.
Qed.

End Scanning.

Section TestGrammarFacts.

Import TestGrammar.

Context {any : Type}.
Variable Sprintf : gostring -> list any -> gostring.
Variable of_rune : rune -> any.
Implicit Types l : Lexer state.

Lemma stepwise_moves {A} (m : M state A) l :
  (exists a l', m l = Ok (a, l') /\ moves l l') -> stepwise l (m l).
Proof. intros (a & l' & -> & Hm). cbn. apply moves_steps. exact Hm. Qed.

Lemma stepwise_then {A B} (m : M state A) (k : M state B) l :
  inv l -> stepwise l (m l) -> (forall l', inv l' -> stepwise l' (k l')) ->
  stepwise l ((m ;;; k) l).
Proof.
  intros Hi Hm Hk. apply stepwise_bind; [exact Hi|exact Hm|].
  intros _ l' Hi'. apply Hk. exact Hi'.
Qed.

Lemma stepwise_after {A} l l1 (o : outcome (A * Lexer state)) :
  steps l l1 -> stepwise l1 o -> stepwise l o.
Proof.
  intros Hs Ho. destruct o as [[a l2]| | |]; cbn in *; try assumption.
  - eapply steps_trans; eassumption.
  - rewrite <- (steps_ch_state _ _ Hs). exact Ho.
Qed.

Lemma IdentState_loop_moves fuel : forall r l,
  inv l ->
  ((((97 <=? r) && (r <=? 122)) || (r =? 95)) = true ->
   remaining l < Z.of_nat fuel) ->
  exists l', IdentState_loop fuel r l = Ok (tt, l') /\ moves l l'.
Proof.
  induction fuel as [|fuel IH]; intros r l Hi Hf.
  - cbn [IdentState_loop].
    destruct (((97 <=? r) && (r <=? 122)) || (r =? 95)) eqn:Hc.
    + pose proof (inv_remaining l Hi). specialize (Hf eq_refl). lia.
    + exists l. split; [reflexivity|constructor].
  - cbn [IdentState_loop].
    destruct (((97 <=? r) && (r <=? 122)) || (r =? 95)) eqn:Hc.
    + destruct (Next_Ok l Hi) as (E & Hm & Hi').
      rewrite (bind_Ok _ _ _ _ _ E).
      destruct (IH (fst (reading l)) (after_Next l) Hi') as (l' & E' & Hm').
      * intros Hc'.
        assert (fst (reading l) <> EOFRune) as Hr.
        { intros E0. rewrite E0 in Hc'. discriminate. }
        pose proof (Next_progress l Hi Hr). specialize (Hf eq_refl). lia.
      * exists l'. split; [exact E'|]. econstructor; eassumption.
    + exists l. split; [reflexivity|constructor].
Qed.

(** The state functions of the tests are made of engine operations. *)
Lemma test_grammar_is_engine_grammar :
  engine_grammar (TestGrammar.trans Sprintf of_rune).
Proof.
  intros s l Hi.
  assert (forall l, inv l -> forall valid, stepwise l (AcceptRun valid l)) as HAR
      by (intros l0 H0 v; apply stepwise_moves, AcceptRun_moves, H0).
  assert (forall l, inv l -> stepwise l (SkipWhitespace l)) as HSW.
  { intros l0 H0. apply stepwise_moves.
    destruct (SkipWhitespace_moves l0 H0) as (l' & E & Hm). eauto. }
  assert (forall l, inv l -> stepwise l (Next l)) as HN.
  { intros l0 H0. apply stepwise_moves. destruct (Next_Ok l0 H0) as (E & Hm & _).
    eexists _, _. split; [exact E|apply moves_one, Hm]. }
  assert (forall l, inv l -> stepwise l (Backup l)) as HB.
  { intros l0 H0. apply stepwise_moves. rewrite Backup_eq.
    eexists _, _. split; [reflexivity|apply moves_one; constructor]. }
  destruct s; cbn [TestGrammar.trans].
  - unfold do_NumberState.
    apply stepwise_then; [exact Hi|apply HAR, Hi|]. intros l1 H1.
    apply stepwise_then; [exact H1|apply Emit_stepwise, H1|]. intros l2 H2.
    apply stepwise_bind; [exact H2|apply stepwise_moves, Peek_moves, H2|].
    intros r l3 H3. destruct (r =? 46); [|apply stepwise_ret].
    apply stepwise_then; [exact H3|apply HN, H3|]. intros l4 H4.
    apply stepwise_then; [exact H4|apply Emit_stepwise, H4|]. intros l5 H5.
    apply stepwise_ret.
  - unfold do_IdentState. unfold bind at 1, get at 1.
    destruct (Next_Ok l Hi) as (E & Hm & H1).
    rewrite (bind_Ok _ _ _ _ _ E).
    apply (stepwise_after l (after_Next l)); [apply steps_one, prim_move, Hm|].
    apply stepwise_then; [exact H1| |].
    + apply stepwise_moves.
      destruct (IdentState_loop_moves (loop_fuel l) (fst (reading l))
                                      (after_Next l) H1) as (l' & E' & Hm').
      * intros Hc.
        assert (fst (reading l) <> EOFRune) as Hr.
        { intros E0. rewrite E0 in Hc. discriminate. }
        pose proof (Next_progress l Hi Hr). pose proof (loop_fuel_enough l Hi). lia.
      * eauto.
    + intros l2 H2.
      apply stepwise_then; [exact H2|apply HB, H2|]. intros l3 H3.
      apply stepwise_then; [exact H3|apply Emit_stepwise, H3|]. intros l4 H4.
      apply stepwise_ret.
  - unfold do_NewlineState.
    apply stepwise_then; [exact Hi|apply HAR, Hi|]. intros l1 H1.
    apply stepwise_then; [exact H1|apply Emit_stepwise, H1|]. intros l2 H2.
    apply stepwise_then; [exact H2|apply HSW, H2|]. intros l3 H3.
    apply stepwise_then; [exact H3|apply Ignore_stepwise, H3|]. intros l4 H4.
    apply stepwise_then; [exact H4|apply HAR, H4|]. intros l5 H5.
    apply stepwise_then; [exact H5|apply Emit_stepwise, H5|]. intros l6 H6.
    apply stepwise_then; [exact H6|apply HSW, H6|]. intros l7 H7.
    apply stepwise_ret.
  - unfold do_WhitespaceState.
    apply stepwise_bind; [exact Hi|apply HN, Hi|]. intros r l1 H1.
    destruct (r =? EOFRune); [apply stepwise_ret|].
    destruct (_ && _).
    + apply stepwise_then; [exact H1|apply Error_stepwise|]. intros l2 H2.
      apply stepwise_ret.
    + apply stepwise_then; [exact H1|apply stepwise_moves, Accept_moves, H1|].
      intros l2 H2.
      apply stepwise_then; [exact H2|apply Ignore_stepwise, H2|]. intros l3 H3.
      apply stepwise_ret.
Qed.


Lemma clean_ascii (ds : gostring) :
  Forall (fun b => b2z b < 0x80) ds -> clean ds (map b2z ds).
Proof.
  induction 1 as [|b ds Hb _ IH]; [constructor|].
  change (b :: ds) with ([b] ++ ds). cbn [map].
  pose proof (enc_1 b Hb) as He.
  constructor; [discriminate| |apply (enc_not_invalid _ _ He)|exact IH].
  rewrite <- (app_nil_r [b]) at 1. apply (Decode_enc _ _ He).
Qed.

Lemma ValidString_clean (b : gostring) rs : clean b rs -> utf8.ValidString b = true.
Proof.
  intros H. rewrite <- (app_nil_r b), (clean_ValidString _ _ [] H). reflexivity.
Qed.

Lemma digit_is_member (b : Byte.byte) :
  48 <= b2z b <= 57 -> strings.IndexRune digits (b2z b) >= 0.
Proof.
  intros H.
  assert (b2z b = 48 \/ b2z b = 49 \/ b2z b = 50 \/ b2z b = 51 \/ b2z b = 52 \/
          b2z b = 53 \/ b2z b = 54 \/ b2z b = 55 \/ b2z b = 56 \/ b2z b = 57)
    as Hc by lia.
  repeat (destruct Hc as [->|Hc]; [vm_compute; discriminate|]).
  rewrite Hc. vm_compute. discriminate.
Qed.

(** [AcceptRun] over a run of runes of the set, on a source that is valid
    UTF-8: the lexer is the one after as many calls of [Next]. *)
Lemma AcceptRun_run_eq valid l (a0 pre post : gostring) rs :
  utf8_inv l ->
  source l = a0 ++ pre ++ post -> len a0 = position l ->
  clean pre rs ->
  Forall (fun r => strings.IndexRune valid r >= 0) rs ->
  post = [] \/ strings.IndexRune valid (fst (utf8.DecodeRuneInString post)) < 0 ->
  let l' := Nat.iter (length rs) after_Next l in
  AcceptRun valid l = Ok (len rs, l') /\
  position l' = position l + len pre /\ moves l l'.
Proof.
  intros Hu Hs Hp Hc Hall Hpost l'.
  pose proof (utf8_inv_inv l Hu) as Hi.
  destruct (AcceptRun_loop_run valid pre rs Hc Hall post (loop_fuel l) 0 l a0
              Hu Hs Hp Hpost (loop_fuel_enough l Hi)) as (E & Hu1 & Hp1).
  unfold AcceptRun. unfold bind at 1, get at 1.
  rewrite (bind_Ok _ _ _ _ _ E). unfold bind. rewrite Backup_eq.
  rewrite (Backup_undoes_Next _ Hu1).
  split; [reflexivity|]. split; [exact Hp1|apply iter_Next_frame, Hu].
Qed.

Lemma slice_all (s : gostring) : slice s 0 (len s) = Some s.
Proof.
  rewrite slice_ok by (pose proof (len_nonneg s); lia).
  cbn [Z.to_nat skipn]. rewrite Z.sub_0_r. apply f_equal.
  apply firstn_all2. unfold len. lia.
Qed.

Lemma reading_at_end l :
  position l = len (source l) -> reading l = (EOFRune, 0).
Proof.
  intros Hp. pose proof (len_nonneg (source l)).
  destruct (reading_cases l) as [[_ E]|(Hlt & _)]; [lia|exact E|lia].
Qed.

(** Property X18.  The state function [NumberState] of the tests, started
    by [StartSync] on a source of ASCII digits only, sends one token of
    type [NumberToken] whose value is the whole source, at the position of
    its end and on line one, and the run ends with the channel closed:
    [NextToken] returns this token and then reports the end. *)
Theorem NumberState_lexes_digits (ds : gostring) (fuel : nat) :
  Forall (fun b => 48 <= b2z b <= 57) ds ->
  let tok := {| Type_ := NumberToken; Value := ds;
                Position := len ds; Line := 1 |} in
  exists l1 l2,
    StartSync (TestGrammar.trans Sprintf of_rune) (S fuel)
              (New ds (Some NumberState)) = Ok (tt, l1) /\
    tokens l1 = mkChan ChClosed (Z.max 1 (len ds / 2)) [tok] /\
    pull 2 l1 = Ok ([(Some tok, false); (None, true)], l2).
Proof.
  intros Hd tok.
  set (cap := Z.max 1 (len ds / 2)).
  set (l0 := started cap ds (Some NumberState)).
  assert (clean ds (map b2z ds)) as Hc.
  { apply clean_ascii. eapply Forall_impl; [|exact Hd]. cbn. intros; lia. }
  assert (utf8_inv l0) as Hu
      by (apply (utf8_inv_New ds (Some NumberState) (ValidString_clean _ _ Hc))).
  assert (Forall (fun r => strings.IndexRune digits r >= 0) (map b2z ds)) as Hm.
  { apply Forall_map. eapply Forall_impl; [|exact Hd].
    intros b Hb. apply digit_is_member, Hb. }
  destruct (AcceptRun_run_eq digits l0 [] ds [] (map b2z ds) Hu)
    as (EA & HpA & HmA); try assumption;
    [cbn; rewrite app_nil_r; reflexivity|reflexivity|left; reflexivity|].
  match type of HmA with moves _ ?x => set (lA := x) in * end.
  destruct (moves_frame _ _ HmA) as (HsA & HstA & HlnA & HtkA & HssA).
  change (position l0) with 0 in HpA. rewrite Z.add_0_l in HpA.
  assert (span lA = Some ds) as HvA.
  { unfold span. rewrite HsA, HstA, HpA. apply slice_all. }
  assert (has_room (tokens lA)) as HrA.
  { rewrite HtkA. split; [reflexivity|]. cbn. unfold cap. lia. }
  pose proof (Emit_Ok NumberToken lA ds HvA HrA) as EE.
  rewrite HpA, HlnA, HtkA in EE.
  change (line l0) with 1 in EE. change (tokens l0) with (make_chan cap) in EE.
  fold tok in EE.
  set (lE := after_boundary ds (set_tokens (enqueued tok (make_chan cap)) lA)) in *.
  assert (position lE = len (source lE)) as HpE
      by (cbn [lE after_boundary set_tokens position source]; rewrite HsA; exact HpA).
  assert (0 <= position lE <= len (source lE)) as HrE
      by (pose proof (len_nonneg (source lE)); lia).
  pose proof (Peek_eq lE HrE) as EP. rewrite (reading_at_end lE HpE) in EP.
  cbn [fst] in EP.
  assert (run_loop (TestGrammar.trans Sprintf of_rune) (S fuel)
                   (Some NumberState) l0
          = Ok (tt, after_Backup (after_Next lE))) as ER.
  { cbn [run_loop TestGrammar.trans]. unfold do_NumberState.
    unfold bind at 1. unfold bind at 1. rewrite EA.
    unfold bind at 1. rewrite EE. unfold bind at 1. rewrite EP.
    change (EOFRune =? 46) with false. cbv iota. unfold ret at 1.
    rewrite run_loop_None. reflexivity. }
  exists (set_tokens (mkChan ChClosed cap [tok]) (after_Backup (after_Next lE))).
  eexists.
  split; [|split; [reflexivity|]].
  - unfold StartSync. unfold bind at 1, get at 1.
    unfold bind at 1, modify at 1. cbn [New source].
    rewrite buffSize_max. fold cap.
    change (set_tokens (make_chan cap) _) with l0.
    unfold run. unfold bind at 1, get at 1.
    change (startState l0) with (Some NumberState).
    rewrite (bind_Ok _ _ _ _ _ ER). reflexivity.
  - rewrite pull_closed by reflexivity. reflexivity.
Qed.

(** Property X19.  The state function [WhitespaceState] of the tests,
    started by [StartSync] on a source whose first rune is none of the
    space, the tab, the newline and the carriage return, sends one error
    token, whose position is behind that rune and whose line is one, and
    the run ends with the channel closed. *)
Theorem WhitespaceState_reports_unexpected_rune (src : gostring) (fuel : nat) :
  src <> [] ->
  let r := fst (utf8.DecodeRuneInString src) in
  let w := snd (utf8.DecodeRuneInString src) in
  r <> 32 -> r <> 9 -> r <> 10 -> r <> 13 ->
  let tok := {| Type_ := ErrorToken;
                Value := Sprintf (Sprintf (lit "unexpected token %q")
                                          [of_rune r]) [];
                Position := w; Line := 1 |} in
  exists l1 l2,
    StartSync (TestGrammar.trans Sprintf of_rune) (S fuel)
              (New src (Some WhitespaceState)) = Ok (tt, l1) /\
    tokens l1 = mkChan ChClosed (Z.max 1 (len src / 2)) [tok] /\
    pull 2 l1 = Ok ([(Some tok, false); (None, true)], l2).
Proof.
  intros Hne r w H32 H9 H10 H13 tok.
  set (cap := Z.max 1 (len src / 2)).
  set (l0 := started cap src (Some WhitespaceState)).
  assert (inv l0) as Hi by apply inv_New.
  destruct (Next_Ok l0 Hi) as (EN & _ & _).
  assert (reading l0 = (r, w)) as Hrd.
  { unfold reading, rest. cbn [l0 started set_tokens New position source Z.to_nat skipn].
    destruct src as [|b src]; [contradiction|].
    replace (len (b :: src) =? 0) with false
      by (symmetry; apply Z.eqb_neq; pose proof (len_pos_cons b src); lia).
    apply surjective_pairing. }
  rewrite Hrd in EN. cbn [fst] in EN.
  assert (r <> EOFRune) as Hr.
  { pose proof (Decode_ValidRune src) as Hv. fold r in Hv.
    apply ValidRune_not_EOF in Hv. apply Z.gtb_lt in Hv. lia. }
  set (lN := after_Next l0) in *.
  assert (has_room (tokens lN)) as HrN.
  { split; [reflexivity|]. cbn. unfold cap. lia. }
  pose proof (Error_Ok Sprintf (Sprintf (lit "unexpected token %q") [of_rune r])
                       [] lN HrN) as EE.
  assert (error_token Sprintf (Sprintf (lit "unexpected token %q") [of_rune r])
                      [] lN = tok) as Htok.
  { unfold error_token, tok. f_equal.
    cbn [lN after_Next position l0 started set_tokens New]. rewrite Hrd. reflexivity. }
  rewrite Htok in EE.
  assert (run_loop (TestGrammar.trans Sprintf of_rune) (S fuel)
                   (Some WhitespaceState) l0
          = Ok (tt, set_tokens (enqueued tok (tokens lN)) lN)) as ER.
  { cbn [run_loop TestGrammar.trans]. unfold do_WhitespaceState.
    unfold bind at 1. unfold bind at 1. rewrite EN.
    destruct (Z.eqb_spec r EOFRune) as [?|_]; [contradiction|].
    destruct (Z.eqb_spec r 32) as [?|_]; [contradiction|].
    destruct (Z.eqb_spec r 9) as [?|_]; [contradiction|].
    destruct (Z.eqb_spec r 10) as [?|_]; [contradiction|].
    destruct (Z.eqb_spec r 13) as [?|_]; [contradiction|].
    cbn [negb andb]. unfold bind at 1. rewrite EE. unfold ret at 1.
    rewrite run_loop_None. reflexivity. }
  eexists. eexists. split; [|split].
  - unfold StartSync. unfold bind at 1, get at 1.
    unfold bind at 1, modify at 1. cbn [New source].
    rewrite buffSize_max. fold cap.
    change (set_tokens (make_chan cap) _) with l0.
    unfold run. unfold bind at 1, get at 1.
    change (startState l0) with (Some WhitespaceState).
    rewrite (bind_Ok _ _ _ _ _ ER). reflexivity.
  - reflexivity.
  - rewrite pull_closed by reflexivity. reflexivity.
Qed.

End TestGrammarFacts.

(** ** Instances of the further properties *)

Section Examples.

Import TestGrammar.

Lemma Next_returns_rune_or_end_witness :
  exists l : Lexer unit,
    exec_all Sprintf0 [ONext; OEmit 5]
             (set_tokens (make_chan 1) (New (lit "ab") None)) = Ok (tt, l) /\
    exists r l',
      Next l = Ok (r, l') /\
      history l' = r :: history l /\
      start l' = start l /\ line l' = line l /\ tokens l' = tokens l /\
      (r = EOFRune <-> position l = len (lit "ab")) /\
      (r = EOFRune -> position l' = position l) /\
      (r <> EOFRune ->
       utf8.ValidRune r = true /\
       1 <= position l' - position l <= 4 /\ position l' <= len (lit "ab")).
Proof.
  eexists. split; [vm_compute; reflexivity|].
  apply (Next_returns_rune_or_end Sprintf0 (lit "ab") None (make_chan 1)
           [ONext; OEmit 5] _).
  vm_compute. reflexivity.
Defined.

Lemma Current_is_pending_span_witness :
  exists l : Lexer unit,
    exec_all Sprintf0 [ONext; OEmit 5; ONext]
             (set_tokens (make_chan 1) (New (lit "abc") None)) = Ok (tt, l) /\
    exists val,
      Current l = Ok (val, l) /\
      len val = position l - start l /\
      lit "abc" = firstn (Z.to_nat (start l)) (lit "abc") ++ val
                  ++ skipn (Z.to_nat (position l)) (lit "abc").
Proof.
  eexists. split; [vm_compute; reflexivity|].
  apply (Current_is_pending_span Sprintf0 (lit "abc") None (make_chan 1)
           [ONext; OEmit 5; ONext] _).
  vm_compute. reflexivity.
Defined.

Lemma Peek_never_advances_witness :
  exists l : Lexer unit,
    exec_all Sprintf0 [ONext; ONext]
             (set_tokens (make_chan 1) (New ([z2b 97; z2b 255; z2b 98]) None))
    = Ok (tt, l) /\
    exists r l',
      Peek l = Ok (r, l') /\
      history l' = history l /\
      start l' = start l /\ line l' = line l /\ tokens l' = tokens l /\
      start l <= position l' <= position l /\
      (r = EOFRune <-> position l = len [z2b 97; z2b 255; z2b 98]).
Proof.
  eexists. split; [vm_compute; reflexivity|].
  apply (Peek_never_advances Sprintf0 [z2b 97; z2b 255; z2b 98] None
           (make_chan 1) [ONext; ONext] _).
  vm_compute. reflexivity.
Defined.

Lemma Peek_is_lookahead_witness :
  utf8.ValidString (lit "ab") = true /\
  exists l : Lexer unit,
    exec_all Sprintf0 [ONext]
             (set_tokens (make_chan 1) (New (lit "ab") None)) = Ok (tt, l) /\
    exists r l',
      Peek l = Ok (r, l) /\
      (Peek ;;; Peek) l = Ok (r, l) /\
      Next l = Ok (r, l').
Proof.
  split; [reflexivity|].
  eexists. split; [vm_compute; reflexivity|].
  apply (Peek_is_lookahead Sprintf0 (lit "ab") None (make_chan 1) [ONext] _
           eq_refl).
  vm_compute. reflexivity.
Defined.

Lemma Accept_consumes_member_only_witness :
  utf8.ValidString (lit "ab") = true /\
  exists l : Lexer unit,
    exec_all Sprintf0 [ONext]
             (set_tokens (make_chan 1) (New (lit "ab") None)) = Ok (tt, l) /\
    exists r lN,
      Next l = Ok (r, lN) /\
      (strings.IndexRune (lit "xb") r >= 0 ->
       Accept (lit "xb") l = Ok (true, lN) /\ position l < position lN) /\
      (strings.IndexRune (lit "xb") r < 0 ->
       Accept (lit "xb") l = Ok (false, l)).
Proof.
  split; [reflexivity|].
  eexists. split; [vm_compute; reflexivity|].
  apply (Accept_consumes_member_only Sprintf0 (lit "ab") None (make_chan 1)
           [ONext] (lit "xb") _ eq_refl).
  vm_compute. reflexivity.
Defined.

Lemma Backup_undoes_Next_n_times_witness :
  utf8.ValidString (lit "abc") = true /\
  exists l : Lexer unit,
    exec_all Sprintf0 [ONext]
             (set_tokens (make_chan 1) (New (lit "abc") None)) = Ok (tt, l) /\
    exists l1, Next_n 2 l = Ok (tt, l1) /\ Backup_n 2 l1 = Ok (tt, l).
Proof.
  split; [reflexivity|].
  eexists. split; [vm_compute; reflexivity|].
  apply (Backup_undoes_Next_n_times Sprintf0 (lit "abc") None (make_chan 1)
           [ONext] 2 _ eq_refl).
  vm_compute. reflexivity.
Defined.

Lemma history_is_runes_of_span_witness :
  utf8.ValidString (lit "abc") = true /\
  exists l : Lexer unit,
    exec_all Sprintf0 [ONext; OIgnore; ONext; ONext; OBackup]
             (set_tokens (make_chan 1) (New (lit "abc") None)) = Ok (tt, l) /\
    exists val,
      Current l = Ok (val, l) /\
      map fst (utf8.runes val) = rev (read_runes (history l)) /\
      utf8.ValidString val = true.
Proof.
  split; [reflexivity|].
  eexists. split; [vm_compute; reflexivity|].
  apply (history_is_runes_of_span Sprintf0 (lit "abc") None (make_chan 1)
           [ONext; OIgnore; ONext; ONext; OBackup] _ eq_refl).
  vm_compute. reflexivity.
Defined.

Lemma line_counts_newlines_before_start_witness :
  exists l : Lexer unit,
    exec_all Sprintf0 [ONext; ONext; OEmit 5; ONext; OIgnore; ONext]
             (set_tokens (make_chan 1) (New [z2b 97; lineSep; lineSep; z2b 98] None))
    = Ok (tt, l) /\
    line l = 1 + bytes.CountByte
                   (firstn (Z.to_nat (start l)) [z2b 97; lineSep; lineSep; z2b 98])
                   lineSep.
Proof.
  eexists. split; [vm_compute; reflexivity|].
  apply (line_counts_newlines_before_start Sprintf0
           [z2b 97; lineSep; lineSep; z2b 98] None (make_chan 1)
           [ONext; ONext; OEmit 5; ONext; OIgnore; ONext] _).
  vm_compute. reflexivity.
Defined.

Lemma tokens_tile_the_source_witness :
  exists l : Lexer unit,
    exec_all Sprintf0 [ONext; OEmit 5; ONext; OIgnore; OError (lit "bad") [];
                       ONext; OEmit 6]
             (started 3 (lit "abc") None) = Ok (tt, l) /\
    tiles (lit "abc") 0 (filter non_error (ch_buf (tokens l))) /\
    last_end 0 (filter non_error (ch_buf (tokens l))) <= start l.
Proof.
  eexists. split; [vm_compute; reflexivity|].
  apply (tokens_tile_the_source Sprintf0 3 (lit "abc") None
           [ONext; OEmit 5; ONext; OIgnore; OError (lit "bad") [];
            ONext; OEmit 6] _).
  vm_compute. reflexivity.
Defined.

Lemma operations_return_while_channel_has_room_witness :
  sends (any := Z) [ONext; OEmit 5; OPeek; OError (lit "bad") []] <= 2 /\
  exists l : Lexer unit,
    exec_all Sprintf0 [ONext; OEmit 5; OPeek; OError (lit "bad") []]
             (started 2 (lit "ab") None) = Ok (tt, l) /\
    len (ch_buf (tokens l))
    = sends (any := Z) [ONext; OEmit 5; OPeek; OError (lit "bad") []].
Proof.
  assert (sends (any := Z) [ONext; OEmit 5; OPeek; OError (lit "bad") []] <= 2)
    as H by (vm_compute; discriminate).
  split; [exact H|].
  apply (operations_return_while_channel_has_room Sprintf0 2 (lit "ab") None
           [ONext; OEmit 5; OPeek; OError (lit "bad") []] H).
Defined.

Lemma unstarted_lexer_blocks_on_first_send_witness :
  0 < sends (any := Z) [ONext; OEmit 5] /\
  exec_all Sprintf0 [ONext; OEmit 5] (New (State := unit) (lit "ab") None)
  = Blocked /\
  NextToken (New (State := unit) (lit "ab") None) = Blocked /\
  (forall os', sends os' = 0 ->
               exists l, exec_all Sprintf0 os'
                                  (New (State := unit) (lit "ab") None)
                         = Ok (tt, l)).
Proof.
  assert (0 < sends (any := Z) [ONext; OEmit 5]) as H by reflexivity.
  split; [exact H|].
  apply (unstarted_lexer_blocks_on_first_send Sprintf0 (lit "ab") None
           [ONext; OEmit 5] H).
Defined.

Lemma StartSync_fills_at_most_the_buffer_witness :
  engine_grammar trans0 /\
  exists l' : Lexer state,
    StartSync trans0 3 (New (lit "1234.ab") (Some NumberState)) = Ok (tt, l') /\
    ch_state (tokens l') = ChClosed /\
    len (ch_buf (tokens l')) <= Z.max 1 (len (lit "1234.ab") / 2) /\
    cursor_inv l'.
Proof.
  assert (engine_grammar trans0) as Hg
      by apply (test_grammar_is_engine_grammar Sprintf0 (fun r => r)).
  split; [exact Hg|].
  eexists. split; [vm_compute; reflexivity|].
  apply (StartSync_fills_at_most_the_buffer trans0 3 (lit "1234.ab")
           (Some NumberState) _ Hg).
  vm_compute. reflexivity.
Defined.


Lemma AcceptRun_consumes_maximal_run_witness :
  utf8.ValidString (lit "a12b") = true /\
  exists l : Lexer unit,
    exec_all Sprintf0 [ONext]
             (set_tokens (make_chan 1) (New (lit "a12b") None)) = Ok (tt, l) /\
    rest l = lit "12" ++ lit "b" /\
    clean (lit "12") [49; 50] /\
    Forall (fun r => strings.IndexRune digits r >= 0) [49; 50] /\
    (lit "b" = [] \/
     strings.IndexRune digits (fst (utf8.DecodeRuneInString (lit "b"))) < 0) /\
    exists l',
      AcceptRun digits l = Ok (len [49; 50], l') /\
      rest l' = lit "b" /\
      position l' = position l + len (lit "12") /\
      start l' = start l /\ line l' = line l /\ tokens l' = tokens l.
Proof.
  assert (clean (lit "12") [49; 50]) as Hc.
  { apply (clean_ascii (lit "12")).
    repeat constructor; vm_compute; reflexivity. }
  assert (Forall (fun r => strings.IndexRune digits r >= 0) [49; 50]) as Hd
      by (repeat constructor; vm_compute; discriminate).
  assert (lit "b" = [] \/
          strings.IndexRune digits (fst (utf8.DecodeRuneInString (lit "b"))) < 0)
    as Hp by (right; vm_compute; reflexivity).
  split; [reflexivity|].
  eexists. split; [vm_compute; reflexivity|].
  split; [vm_compute; reflexivity|].
  split; [exact Hc|]. split; [exact Hd|]. split; [exact Hp|].
  apply (AcceptRun_consumes_maximal_run Sprintf0 (lit "a12b") None (make_chan 1)
           [ONext] _ digits (lit "12") (lit "b") [49; 50] eq_refl);
    [vm_compute; reflexivity|vm_compute; reflexivity|exact Hc|exact Hd|exact Hp].
Defined.

Lemma SkipWhitespace_consumes_maximal_run_witness :
  utf8.ValidString (lit "a  b") = true /\
  exists l : Lexer unit,
    exec_all Sprintf0 [ONext]
             (set_tokens (make_chan 1) (New (lit "a  b") None)) = Ok (tt, l) /\
    rest l = lit "  " ++ lit "b" /\
    clean (lit "  ") [32; 32] /\
    Forall (fun r => unicode.IsSpace r = true) [32; 32] /\
    (lit "b" = [] \/
     unicode.IsSpace (fst (utf8.DecodeRuneInString (lit "b"))) = false) /\
    exists l',
      SkipWhitespace l = Ok (tt, l') /\
      rest l' = lit "b" /\
      position l' = position l + len (lit "  ") /\
      start l' = start l /\ line l' = line l /\ tokens l' = tokens l.
Proof.
  assert (clean (lit "  ") [32; 32]) as Hc.
  { apply (clean_ascii (lit "  ")).
    repeat constructor; vm_compute; reflexivity. }
  assert (Forall (fun r => unicode.IsSpace r = true) [32; 32]) as Hd
      by (repeat constructor).
  assert (lit "b" = [] \/
          unicode.IsSpace (fst (utf8.DecodeRuneInString (lit "b"))) = false)
    as Hp by (right; reflexivity).
  split; [reflexivity|].
  eexists. split; [vm_compute; reflexivity|].
  split; [vm_compute; reflexivity|].
  split; [exact Hc|]. split; [exact Hd|]. split; [exact Hp|].
  apply (SkipWhitespace_consumes_maximal_run Sprintf0 (lit "a  b") None
           (make_chan 1) [ONext] _ (lit "  ") (lit "b") [32; 32] eq_refl);
    [vm_compute; reflexivity|vm_compute; reflexivity|exact Hc|exact Hd|exact Hp].
Defined.

Lemma operations_never_panic_before_close_witness :
  ch_state (make_chan 1) <> ChClosed /\
  exec_all Sprintf0 [ONext; OEmit 5; OEmit 5; OBackup]
           (set_tokens (make_chan 1) (New (State := unit) (lit "ab") None))
  <> Panic /\
  exec_all Sprintf0 [ONext; OEmit 5; OEmit 5; OBackup]
           (set_tokens (make_chan 1) (New (State := unit) (lit "ab") None))
  <> Timeout.
Proof.
  assert (ch_state (make_chan 1) <> ChClosed) as H by discriminate.
  split; [exact H|].
  apply (operations_never_panic_before_close Sprintf0 (lit "ab") None
           (make_chan 1) [ONext; OEmit 5; OEmit 5; OBackup] H).
Defined.

Lemma Ignore_is_Emit_without_send_witness :
  exists l1,
    Emit 5 ab = Ok (tt, l1) /\
    Ignore ab = Ok (tt, set_tokens (tokens ab) l1).
Proof.
  eexists. split; [vm_compute; reflexivity|].
  apply (Ignore_is_Emit_without_send 5 ab _). vm_compute. reflexivity.
Defined.

Lemma NumberState_lexes_digits_witness :
  Forall (fun b => 48 <= b2z b <= 57) (lit "2024") /\
  let tok := {| Type_ := NumberToken; Value := lit "2024";
                Position := len (lit "2024"); Line := 1 |} in
  exists l1 l2,
    StartSync trans0 1 (New (lit "2024") (Some NumberState)) = Ok (tt, l1) /\
    tokens l1 = mkChan ChClosed (Z.max 1 (len (lit "2024") / 2)) [tok] /\
    pull 2 l1 = Ok ([(Some tok, false); (None, true)], l2).
Proof.
  assert (Forall (fun b => 48 <= b2z b <= 57) (lit "2024")) as H
      by (repeat constructor; vm_compute; discriminate).
  split; [exact H|].
  apply (NumberState_lexes_digits Sprintf0 (fun r => r) (lit "2024") 0 H).
Defined.

Lemma WhitespaceState_reports_unexpected_rune_witness :
  lit "x1" <> [] /\
  let r := fst (utf8.DecodeRuneInString (lit "x1")) in
  let w := snd (utf8.DecodeRuneInString (lit "x1")) in
  r <> 32 /\ r <> 9 /\ r <> 10 /\ r <> 13 /\
  let tok := {| Type_ := ErrorToken;
                Value := Sprintf0 (Sprintf0 (lit "unexpected token %q") [r]) [];
                Position := w; Line := 1 |} in
  exists l1 l2,
    StartSync trans0 1 (New (lit "x1") (Some WhitespaceState)) = Ok (tt, l1) /\
    tokens l1 = mkChan ChClosed (Z.max 1 (len (lit "x1") / 2)) [tok] /\
    pull 2 l1 = Ok ([(Some tok, false); (None, true)], l2).
Proof.
  assert (lit "x1" <> []) as H0 by discriminate.
  assert (fst (utf8.DecodeRuneInString (lit "x1")) <> 32) as H1
      by (vm_compute; discriminate).
  assert (fst (utf8.DecodeRuneInString (lit "x1")) <> 9) as H2
      by (vm_compute; discriminate).
  assert (fst (utf8.DecodeRuneInString (lit "x1")) <> 10) as H3
      by (vm_compute; discriminate).
  assert (fst (utf8.DecodeRuneInString (lit "x1")) <> 13) as H4
      by (vm_compute; discriminate).
  split; [exact H0|]. cbv zeta.
  split; [exact H1|]. split; [exact H2|]. split; [exact H3|]. split; [exact H4|].
  apply (WhitespaceState_reports_unexpected_rune Sprintf0 (fun r => r)
           (lit "x1") 0 H0 H1 H2 H3 H4).
Defined.

End Examples.
